(** * Toronto Taxi Fare Finder

    A shallow embedding of [js/taxi_fare_finder.js]: the [Decimal] value
    type, the fare formula of [FareCalculator], the geocoding chain of
    [MapDisplay], the [OutputField] they both write to, and the callbacks
    that the Google Maps services deliver to them.

    JavaScript numbers are IEEE 754 binary64 values; they are modelled by
    Rocq's primitive [float], whose operations are the same binary64
    operations, so that every arithmetic step below rounds exactly as the
    browser does. *)

From Stdlib Require Import ZArith NArith List String Ascii Bool Lia.
From Stdlib Require Import Floats DecimalString Permutation.
Import ListNotations.

Set Warnings "-inexact-float".

Local Open Scope string_scope.
Local Open Scope float_scope.

(** ** The ECMAScript built-ins the program calls *)

Module JS.

Definition number := float.

(** The Number nearest to the integer [z] (round to nearest, ties to
    even): the Number value of a mathematical integer. *)
Definition number_of_Z (z : Z) : number :=
  SF2Prim (binary_normalize prec emax z 0 false).

(** [Math.floor]: the greatest integral Number not above [x]; NaN, the
    infinities and both zeros are returned unchanged.  A finite [x] is
    [m * 2^e] with [m < 2^53]: with [e >= 0] it is integral already. *)
Definition Math_floor (x : number) : number :=
  match Prim2SF x with
  | S754_finite s m e =>
      if (0 <=? e)%Z then x
      else number_of_Z (Z.shiftr (cond_Zopp s (Zpos m)) (- e))
  | _ => x
  end.

(** [Math.ceil(x)] is [-Math.floor(-x)] (ECMA-262, Math.ceil, note), which
    also yields [-0] for [x] in [(-1, 0)]. *)
Definition Math_ceil (x : number) : number := - Math_floor (- x).

(** The integer a Number denotes, when it denotes one. *)
Definition integer_value (x : number) : option Z :=
  match Prim2SF x with
  | S754_zero _ => Some 0%Z
  | S754_finite s m e =>
      if (0 <=? e)%Z then Some (cond_Zopp s (Zpos m * 2 ^ e))%Z
      else if (Zpos m mod 2 ^ (- e) =? 0)%Z
           then Some (cond_Zopp s (Zpos m / 2 ^ (- e)))%Z
           else None
  | _ => None
  end.

(** Decimal digits of a non-negative integer. *)
Definition digits (n : Z) : string :=
  NilZero.string_of_uint (N.to_uint (Z.to_N n)).

Fixpoint zeros (k : nat) : string :=
  match k with
  | O => EmptyString
  | S k' => String "0" (zeros k')
  end.

(** [Number.prototype.toFixed], step 11.a: the integer [n] for which
    [n / 10^f - x] is as close to zero as possible, the larger one on a
    tie, for [x = m * 2^e > 0]. *)
Definition fixed_integer (m : positive) (e : Z) (f : nat) : Z :=
  let p := (Zpos m * 10 ^ Z.of_nat f)%Z in
  if (0 <=? e)%Z then (p * 2 ^ e)%Z
  else ((2 * p + 2 ^ (- e)) / 2 ^ (1 - e))%Z.

(** Steps 11.b and 11.c: the digits of [n], padded on the left with
    zeros to [f + 1] characters, with a point before the last [f]. *)
Definition fixed_notation (n : Z) (f : nat) : string :=
  let m := digits n in
  let k := String.length m in
  let m := if (k <=? f)%nat then zeros (f + 1 - k) ++ m else m in
  let k := if (k <=? f)%nat then (f + 1)%nat else k in
  if (f =? 0)%nat then m
  else substring 0 (k - f) m ++ "." ++ substring (k - f) f m.

(** [Number::toString] for an integral [x = N >= 10^21]: the shortest
    digit string [s] of [k] digits with [s * 10^(n-k)] rounding to [x],
    the closest to [x] among those, in exponential notation. *)
Definition shortest_candidates (N : Z) (k n : nat) : list (Z * nat * nat) :=
  let u := (10 ^ Z.of_nat (n - k))%Z in
  let lo := (N / u)%Z in
  let hi := (lo + 1)%Z in
  map (fun s => (s, k, n))
      (if (2 * (N - lo * u) <=? u)%Z then [lo; hi] else [hi; lo]).

Definition shortest_ok (x : number) (c : Z * nat * nat) : bool :=
  let '(s, k, n) := c in
  (10 ^ Z.of_nat (k - 1) <=? s)%Z && (s <? 10 ^ Z.of_nat k)%Z
  && Leibniz.eqb (number_of_Z (s * 10 ^ Z.of_nat (n - k))) x.

Definition shortest (x : number) (N : Z) : option (Z * nat * nat) :=
  let d := String.length (digits N) in
  find (shortest_ok x)
       (flat_map (fun k => (shortest_candidates N k d
                            ++ shortest_candidates N k (d + 1))%list)
                 (seq 1 17)).

Definition toString_large (x : number) (N : Z) : string :=
  match shortest x N with
  | Some (s, k, n) =>
      let ds := digits s in
      let e := digits (Z.of_nat (n - 1)) in
      if (k =? 1)%nat then ds ++ "e+" ++ e
      else substring 0 1 ds ++ "." ++ substring 1 (k - 1) ds ++ "e+" ++ e
  | None => digits N
  end.

(** [Number.prototype.toFixed(f)] for [0 <= f <= 100]. *)
Definition toFixed (x : number) (f : nat) : string :=
  match Prim2SF x with
  | S754_nan => "NaN"
  | S754_infinity false => "Infinity"
  | S754_infinity true => "-Infinity"
  | S754_zero _ => fixed_notation 0 f
  | S754_finite s m e =>
      let sgn := if s then "-" else "" in
      if ((0 <=? e) && (10 ^ 21 <=? Zpos m * 2 ^ e))%Z
      then sgn ++ toString_large (abs x) (Zpos m * 2 ^ e)
      else sgn ++ fixed_notation (fixed_integer m e f) f
  end.

End JS.


(** ** [Decimal]: a number with a stated count of decimal places *)

(** [new Decimal(amount, decimalPlaces)].  The program only ever passes
    the literals 2 and 3 as [decimalPlaces]; it is a count, which the loop
    of [valueOf] runs up to. *)
Record Decimal := new_Decimal {
  amount : JS.number;
  decimalPlaces : nat
}.

(** The loop [for (var i = 0; i < this.decimalPlaces; i++) scale *= 10],
    entered with [k] iterations to go. *)
Fixpoint for_scale (k : nat) (scale : JS.number) : JS.number :=
  match k with
  | O => scale
  | S k' => for_scale k' (scale * 10)
  end.

(** [Decimal.prototype.valueOf]. *)
Definition valueOf (d : Decimal) : JS.number :=
  let scale := for_scale (decimalPlaces d) 1 in
  JS.Math_floor (amount d * scale) / scale.

(** [Decimal.prototype.toCurrency]; [Number(this)] calls [valueOf]. *)
Definition toCurrency (d : Decimal) (unitPrefix : string) : string :=
  unitPrefix ++ JS.toFixed (valueOf d) 2.

(** [Decimal.prototype.toDistance]. *)
Definition toDistance (d : Decimal) (unitSuffix : string) : string :=
  JS.toFixed (valueOf d) 3 ++ unitSuffix.

(** ** The Google Maps values the program reads *)

Module google_maps.

Inductive DirectionsStatus :=
| DirectionsStatus_OK
| DirectionsStatus_NOT_FOUND
| DirectionsStatus_ZERO_RESULTS
| DirectionsStatus_MAX_WAYPOINTS_EXCEEDED
| DirectionsStatus_INVALID_REQUEST
| DirectionsStatus_OVER_QUERY_LIMIT
| DirectionsStatus_REQUEST_DENIED
| DirectionsStatus_UNKNOWN_ERROR.

Inductive GeocoderStatus :=
| GeocoderStatus_OK
| GeocoderStatus_ZERO_RESULTS
| GeocoderStatus_OVER_QUERY_LIMIT
| GeocoderStatus_REQUEST_DENIED
| GeocoderStatus_INVALID_REQUEST
| GeocoderStatus_ERROR
| GeocoderStatus_UNKNOWN_ERROR.

Record LatLng := { lat : JS.number; lng : JS.number }.

Record GeocoderResult := {
  formatted_address : string;
  geometry_location : LatLng
}.

(** [distance] and [duration] of a leg: a [value] and its [text]. *)
Record Measure := { value : JS.number; text : string }.

Record DirectionsLeg := {
  distance : Measure;
  duration : Measure;
  start_address : string;
  end_address : string
}.

Record DirectionsRoute := {
  legs : list DirectionsLeg;
  summary : string
}.

Record DirectionsResult := { routes : list DirectionsRoute }.

(** The request both callers build; [travelMode] is always DRIVING. *)
Record DirectionsRequest := {
  origin : string;
  destination : string
}.

End google_maps.
Import google_maps.

(** [response.routes[0].legs[0].distance.value]; [None] when [routes] or
    [legs] is empty, where the property access throws a TypeError. *)
Definition first_leg_distance (response : DirectionsResult) : option JS.number :=
  match routes response with
  | [] => None
  | route0 :: _ =>
      match legs route0 with
      | [] => None
      | leg0 :: _ => Some (value (distance leg0))
      end
  end.

(** ** [OutputField] *)

Module OutputField.

(** What the element holds after [makeFareMessage] or [makeMessage]
    has run; the fade-out and fade-in around them are not modelled. *)
Inductive content :=
| FareMessage (totalFare totalDistance : string)
| Message (message messageClass : string).

(** The four variables of the closure ([None]: still undefined) and the
    contents shown so far, oldest first. *)
Record t := mk {
  totalFare : option string;
  totalDistance : option string;
  message : option string;
  messageClass : option string;
  shown : list content
}.

Definition create : t := mk None None None None [].

Definition showFare (newTotalFare newTotalDistance : string) (o : t) : t :=
  {| totalFare := Some newTotalFare;
     totalDistance := Some newTotalDistance;
     message := message o;
     messageClass := messageClass o;
     shown := (shown o ++ [FareMessage newTotalFare newTotalDistance])%list |}.

Definition showMessage (newMessage newMessageClass : string) (o : t) : t :=
  {| totalFare := totalFare o;
     totalDistance := totalDistance o;
     message := Some newMessage;
     messageClass := Some newMessageClass;
     shown := (shown o ++ [Message newMessage newMessageClass])%list |}.

End OutputField.

(** ** [FareCalculator] *)

(** The [fare] argument of [FareCalculator]. *)
Record Fare := {
  baseRate : Decimal;
  distanceUnit : Decimal;
  ratePerDistanceUnit : Decimal
}.

Module FareCalculator.

(** The four variables of the closure ([None]: still undefined). *)
Record vars := mk {
  totalDistance : option Decimal;
  distanceOverBase : option Decimal;
  distanceFare : option Decimal;
  totalFare : option Decimal
}.

Definition create : vars := mk None None None None.

(** [Math.ceil(distanceOverBase / fare.distanceUnit)]; the operands of
    [/] are objects, so each is read through its [valueOf]. *)
Definition tierCount (fare : Fare) (distanceOverBase : Decimal) : JS.number :=
  JS.Math_ceil (valueOf distanceOverBase / valueOf (distanceUnit fare)).

(** The function handed to [directionsService.route] in [updateContent].
    A status other than OK falls through the [if], which has no [else].
    With OK and no first leg the first statement throws before it
    assigns, and the callback ends there. *)
Definition route_callback (fare : Fare)
    (response : DirectionsResult) (status : DirectionsStatus)
    (fc : vars) (fareOutput : OutputField.t) : vars * OutputField.t :=
  match status with
  | DirectionsStatus_OK =>
      match first_leg_distance response with
      | None => (fc, fareOutput)
      | Some distance_value =>
          let totalDistance := new_Decimal (distance_value / 1000) 3 in
          let distanceOverBase :=
            new_Decimal (valueOf totalDistance - valueOf (distanceUnit fare)) 3 in
          let distanceFare :=
            new_Decimal (valueOf (ratePerDistanceUnit fare)
                         * tierCount fare distanceOverBase) 2 in
          let totalFare :=
            new_Decimal (valueOf (baseRate fare) + valueOf distanceFare) 2 in
          (mk (Some totalDistance) (Some distanceOverBase)
              (Some distanceFare) (Some totalFare),
           OutputField.showFare (toCurrency totalFare "$")
                                (toDistance totalDistance " km")
                                fareOutput)
      end
  | _ => (fc, fareOutput)
  end.

End FareCalculator.

(** ** [TaxiFareFinder.initialize]: the fare configuration *)

(** The three numbers [parseFloat] reads from [xml/strings.xml] (ids
    [fare_base_rate], [fare_distance_unit], [fare_rate_per_distance_unit])
    and the [fare] object [initialize] builds from them. *)
Definition initialize_fare
    (fare_base_rate fare_distance_unit fare_rate_per_distance_unit : JS.number)
    : Fare :=
  {| baseRate := new_Decimal fare_base_rate 2;
     distanceUnit := new_Decimal fare_distance_unit 3;
     ratePerDistanceUnit := new_Decimal fare_rate_per_distance_unit 2 |}.

(** ** [MapDisplay] and the page as a whole *)

(** JavaScript arrays: reading past the end gives undefined ([None]),
    writing past the end extends the array, leaving holes. *)
Definition array_get {A : Type} (a : list (option A)) (i : nat) : option A :=
  match nth_error a i with
  | Some x => x
  | None => None
  end.

Fixpoint array_set {A : Type} (a : list (option A)) (i : nat) (v : A)
  : list (option A) :=
  match i, a with
  | O, [] => [Some v]
  | O, _ :: a' => Some v :: a'
  | S i', [] => None :: array_set [] i' v
  | S i', x :: a' => x :: array_set a' i' v
  end.

Module MapDisplay.

(** The two arrays of the closure, the markers of every map shown and
    the routes handed to the renderer. *)
Record vars := mk {
  addresses : list (option string);
  codedAddresses : list (option LatLng);
  maps : list (list LatLng);
  directions : list DirectionsResult
}.

Definition create : vars := mk [] [] [] [].

End MapDisplay.

(** A reply of a Google Maps service that has not been handed to its
    callback yet. *)
Inductive task :=
| geocode_callback (index : nat)
    (results : list GeocoderResult) (status : GeocoderStatus)
| map_route_callback (response : DirectionsResult) (status : DirectionsStatus)
| fare_route_callback (response : DirectionsResult) (status : DirectionsStatus).

(** The page: the text in the two input fields, the three objects of
    [TaxiFareFinder] and the replies in flight. *)
Record page := mk_page {
  originInput : string;
  destinationInput : string;
  mapOutput : MapDisplay.vars;
  fareCalculator : FareCalculator.vars;
  fareOutput : OutputField.t;
  pending : list task
}.

Definition set_mapOutput (m : MapDisplay.vars) (p : page) : page :=
  mk_page (originInput p) (destinationInput p) m
          (fareCalculator p) (fareOutput p) (pending p).

Definition set_fareOutput (o : OutputField.t) (p : page) : page :=
  mk_page (originInput p) (destinationInput p) (mapOutput p)
          (fareCalculator p) o (pending p).

Definition set_pending (ts : list task) (p : page) : page :=
  mk_page (originInput p) (destinationInput p) (mapOutput p)
          (fareCalculator p) (fareOutput p) ts.

Definition send (t : task) (p : page) : page :=
  set_pending (pending p ++ [t])%list p.

Definition shown (p : page) : list OutputField.content :=
  OutputField.shown (fareOutput p).

(** The user typing into the two input fields. *)
Definition enter (origin_text destination_text : string) (p : page) : page :=
  mk_page origin_text destination_text (mapOutput p)
          (fareCalculator p) (fareOutput p) (pending p).

(** What [TaxiFareFinder] wires together.  The services answer a request
    with the arguments of its callback; [MapDisplay] and [FareCalculator]
    each own a DirectionsService.  [initialize] passes on the fare and the
    error texts. *)
Record TaxiFareFinder := {
  geocoder_geocode : option string -> list GeocoderResult * GeocoderStatus;
  map_directionsService_route :
    DirectionsRequest -> DirectionsResult * DirectionsStatus;
  fare_directionsService_route :
    DirectionsRequest -> DirectionsResult * DirectionsStatus;
  fare : Fare;
  errorMessage : string;
  errorClass : string
}.

Section Page.

Variable site : TaxiFareFinder.

(** [MapDisplay.showMap]: a new map with the markers, and the request
    for the route line. *)
Definition showMap (markers : list LatLng) (p : page) : page :=
  let m := mapOutput p in
  let request := {| origin := originInput p;
                    destination := destinationInput p |} in
  let '(response, status) := map_directionsService_route site request in
  send (map_route_callback response status)
       (set_mapOutput
          (MapDisplay.mk (MapDisplay.addresses m) (MapDisplay.codedAddresses m)
                         (MapDisplay.maps m ++ [markers])%list
                         (MapDisplay.directions m)) p).

(** [MapDisplay.codeAddresses(addresses, index, codeAddresses)]: the
    request for the next address, or the map once all are coded (where
    [origin.lat()] throws if a coded address is missing). *)
Definition codeAddresses (index : nat) (p : page) : page :=
  let m := mapOutput p in
  if (index <? List.length (MapDisplay.addresses m))%nat then
    let '(results, status) :=
      geocoder_geocode site (array_get (MapDisplay.addresses m) index) in
    send (geocode_callback index results status) p
  else
    match array_get (MapDisplay.codedAddresses m) 0,
          array_get (MapDisplay.codedAddresses m) 1 with
    | Some origin, Some destination => showMap [origin; destination] p
    | _, _ => p
    end.

(** The function handed to [geocoder.geocode] in [codeAddresses]. *)
Definition geocode_reply (index : nat)
    (results : list GeocoderResult) (status : GeocoderStatus)
    (p : page) : page :=
  match status with
  | GeocoderStatus_OK =>
      match results with
      | [] => p
      | result0 :: _ =>
          let m := mapOutput p in
          codeAddresses (index + 1)
            (set_mapOutput
               (MapDisplay.mk (MapDisplay.addresses m)
                  (array_set (MapDisplay.codedAddresses m) index
                             (geometry_location result0))
                  (MapDisplay.maps m) (MapDisplay.directions m)) p)
      end
  | _ =>
      set_fareOutput
        (OutputField.showMessage (errorMessage site) (errorClass site) (fareOutput p)) p
  end.

(** The function handed to [directionsService.route] in [showMap]. *)
Definition map_route_reply
    (response : DirectionsResult) (status : DirectionsStatus)
    (p : page) : page :=
  match status with
  | DirectionsStatus_OK =>
      let m := mapOutput p in
      set_mapOutput
        (MapDisplay.mk (MapDisplay.addresses m) (MapDisplay.codedAddresses m)
                       (MapDisplay.maps m)
                       (MapDisplay.directions m ++ [response])%list) p
  | _ => p
  end.

(** [FareCalculator]'s callback, on the page. *)
Definition fare_route_reply
    (response : DirectionsResult) (status : DirectionsStatus)
    (p : page) : page :=
  let '(fc, o) :=
    FareCalculator.route_callback (fare site) response status
      (fareCalculator p) (fareOutput p) in
  mk_page (originInput p) (destinationInput p) (mapOutput p) fc o (pending p).

(** [MapDisplay.updateContent], the first handler bound to the click. *)
Definition MapDisplay_updateContent (p : page) : page :=
  let m := mapOutput p in
  let addresses :=
    array_set (array_set (MapDisplay.addresses m) 0 (originInput p))
              1 (destinationInput p) in
  codeAddresses 0
    (set_mapOutput
       (MapDisplay.mk addresses (MapDisplay.codedAddresses m)
                      (MapDisplay.maps m) (MapDisplay.directions m)) p).

(** [FareCalculator.updateContent], the second handler. *)
Definition FareCalculator_updateContent (p : page) : page :=
  let request := {| origin := originInput p;
                    destination := destinationInput p |} in
  let '(response, status) := fare_directionsService_route site request in
  send (fare_route_callback response status) p.

(** A click on the "show fare" button runs both handlers in the order
    they were bound. *)
Definition click (p : page) : page :=
  FareCalculator_updateContent (MapDisplay_updateContent p).

(** Handing a reply to its callback. *)
Definition deliver (t : task) (p : page) : page :=
  match t with
  | geocode_callback index results status =>
      geocode_reply index results status p
  | map_route_callback response status => map_route_reply response status p
  | fare_route_callback response status => fare_route_reply response status p
  end.

(** The event loop: any reply in flight may arrive next. *)
Inductive step : page -> page -> Prop :=
| step_deliver (p : page) (before : list task) (t : task) (after : list task) :
    pending p = (before ++ t :: after)%list ->
    step p (deliver t (set_pending (before ++ after)%list p)).

Inductive steps : page -> page -> Prop :=
| steps_done (p : page) : steps p p
| steps_next (p q r : page) : step p q -> steps q r -> steps p r.

(** A request, from the click to the last callback. *)
Definition request_completes (p r : page) : Prop :=
  steps (click p) r /\ pending r = [].

(** The page between requests: nothing in flight, and the [addresses]
    array as [initialize] or an earlier click left it. *)
Definition idle (p : page) : Prop :=
  pending p = [] /\ (List.length (MapDisplay.addresses (mapOutput p)) <= 2)%nat.

(** What the geocoding chain will still show, from a reply on. *)
Definition geocode_shows (results : list GeocoderResult)
    (status : GeocoderStatus) (rest : list OutputField.content)
  : list OutputField.content :=
  match status with
  | GeocoderStatus_OK =>
      match results with
      | [] => []
      | _ :: _ => rest
      end
  | _ => [OutputField.Message (errorMessage site) (errorClass site)]
  end.

Fixpoint chain_shows (addresses : list (option string))
  : list OutputField.content :=
  match addresses with
  | [] => []
  | a :: rest =>
      geocode_shows (fst (geocoder_geocode site a)) (snd (geocoder_geocode site a))
                    (chain_shows rest)
  end.

(** What the fare callback shows. *)
Definition fare_shows (response : DirectionsResult)
    (status : DirectionsStatus) : list OutputField.content :=
  OutputField.shown
    (snd (FareCalculator.route_callback (fare site) response status
            FareCalculator.create OutputField.create)).

Definition task_shows (addresses : list (option string)) (t : task)
  : list OutputField.content :=
  match t with
  | geocode_callback index results status =>
      geocode_shows results status (chain_shows (skipn (S index) addresses))
  | map_route_callback _ _ => []
  | fare_route_callback response status => fare_shows response status
  end.

Definition will_show (p : page) : list OutputField.content :=
  flat_map (task_shows (MapDisplay.addresses (mapOutput p))) (pending p).

(** The page [initialize] builds: [MapDisplay] shows the default map at
    once, with no markers; the input fields hold their placeholders. *)
Definition initialize (origin_placeholder destination_placeholder : string)
  : page :=
  showMap []
    (mk_page origin_placeholder destination_placeholder MapDisplay.create
             FareCalculator.create OutputField.create []).

(** The replies still to come from a reply in flight, counting itself. *)
Definition task_weight (addresses : list (option string)) (t : task) : nat :=
  match t with
  | geocode_callback index _ _ => 2 + (List.length addresses - index)
  | _ => 1
  end.

Definition weight (p : page) : nat :=
  list_sum (map (task_weight (MapDisplay.addresses (mapOutput p))) (pending p)).

End Page.

(** A page between requests with the two texts typed in and nothing shown
    yet. *)
Definition initial_page (origin_text destination_text : string) : page :=
  mk_page origin_text destination_text MapDisplay.create
          FareCalculator.create OutputField.create [].


(** ** The words of the specification *)

Module Spec.

(** [10^n], computed in Numbers. *)
Fixpoint pow10 (n : nat) : JS.number :=
  match n with
  | O => 1
  | S n' => pow10 n' * 10
  end.

(** [truncate(x, n) = floor(x * 10^n) / 10^n]. *)
Definition truncate (x : JS.number) (n : nat) : JS.number :=
  JS.Math_floor (x * pow10 n) / pow10 n.

(** The five steps of the fare algorithm, for a distance of [d] metres
    and the numbers [B] (base rate), [U] (distance unit) and [R] (rate
    per distance unit). *)
Definition totalDistanceKm (d : JS.number) : JS.number :=
  truncate (d / 1000) 3.

Definition distanceOverBase (U d : JS.number) : JS.number :=
  truncate (totalDistanceKm d - U) 3.

Definition tierCount (U d : JS.number) : JS.number :=
  JS.Math_ceil (distanceOverBase U d / U).

Definition distanceFare (U R d : JS.number) : JS.number :=
  truncate (R * tierCount U d) 2.

Definition totalFare (B U R d : JS.number) : JS.number :=
  truncate (B + distanceFare U R d) 2.

End Spec.

(** ** Decimal strings *)

Definition is_digit (c : ascii) : bool :=
  ((48 <=? nat_of_ascii c) && (nat_of_ascii c <=? 57))%nat.

Fixpoint all_digits (s : string) : bool :=
  match s with
  | EmptyString => true
  | String c s' => is_digit c && all_digits s'
  end.

(** A number written with a sign, at least one digit, a point and
    exactly [f] digits. *)
Definition fixed_decimal (f : nat) (s : string) : Prop :=
  exists sign whole fraction : string,
    s = sign ++ whole ++ "." ++ fraction
    /\ (sign = "" \/ sign = "-")
    /\ (1 <= String.length whole)%nat /\ all_digits whole = true
    /\ String.length fraction = f /\ all_digits fraction = true.

(** The Numbers [toFixed] writes in fixed notation: the finite ones below
    [10^21] in magnitude. *)
Definition fixed_range (x : JS.number) : bool :=
  match Prim2SF x with
  | S754_zero _ => true
  | S754_finite _ m e => negb ((0 <=? e) && (10 ^ 21 <=? Zpos m * 2 ^ e))%Z
  | _ => false
  end.

(** The claim that every Decimal is written with exactly two decimals
    by [toCurrency] and exactly three by [toDistance]: after the prefix,
    respectively before the suffix, stands a sign, digits, a point and
    two, respectively three, digits. *)
Definition every_Decimal_fixed_claim : Prop :=
  forall (d : Decimal) (unitPrefix unitSuffix : string),
    (exists money : string,
        toCurrency d unitPrefix = unitPrefix ++ money /\ fixed_decimal 2 money)
    /\ (exists length_km : string,
           toDistance d unitSuffix = length_km ++ unitSuffix
           /\ fixed_decimal 3 length_km).

(** ** The values used in the examples *)

(** The configuration of the specification's examples. *)
Definition toronto : Fare := initialize_fare 4.25 0.5 1.75.

Definition leg_of (metres : JS.number) (label : string) : DirectionsLeg :=
  {| distance := {| value := metres; text := label |};
     duration := {| value := 0; text := "" |};
     start_address := "";
     end_address := "" |}.

(** A response with one route of one leg. *)
Definition response_of (metres : JS.number) : DirectionsResult :=
  {| routes := [ {| legs := [leg_of metres ""]; summary := "" |} ] |}.

(** The variables of a [FareCalculator] after its first OK reply. *)
Definition computed (fare : Fare) (metres : JS.number) : FareCalculator.vars :=
  fst (FareCalculator.route_callback fare (response_of metres)
         DirectionsStatus_OK FareCalculator.create OutputField.create).





(** The event loop with replies handed over in the order they arrived,
    for at most [fuel] replies. *)
Fixpoint run (site : TaxiFareFinder) (fuel : nat) (p : page) : page :=
  match fuel with
  | O => p
  | S fuel' =>
      match pending p with
      | [] => p
      | t :: rest => run site fuel' (deliver site t (set_pending rest p))
      end
  end.

(** The fares among the contents shown. *)
Fixpoint fares (l : list OutputField.content) : list (string * string) :=
  match l with
  | [] => []
  | OutputField.FareMessage totalFare totalDistance :: l' =>
      (totalFare, totalDistance) :: fares l'
  | OutputField.Message _ _ :: l' => fares l'
  end.

(** How one call changes the page: the input fields and the [addresses]
    array stay, [new] replies are awaited, [emitted] contents are shown. *)
Definition effect (p q : page)
    (emitted : list OutputField.content) (new : list task) : Prop :=
  originInput q = originInput p
  /\ destinationInput q = destinationInput p
  /\ MapDisplay.addresses (mapOutput q) = MapDisplay.addresses (mapOutput p)
  /\ pending q = (pending p ++ new)%list
  /\ shown q = (shown p ++ emitted)%list.

(** What a request shows once all its replies are in: the message of the
    geocoding chain over the two addresses and the fare of the fare
    calculator's reply. *)
Definition request_shows (site : TaxiFareFinder) (p : page)
  : list OutputField.content :=
  (chain_shows site [Some (originInput p); Some (destinationInput p)]
   ++ fare_shows site
        (fst (fare_directionsService_route site
                {| origin := originInput p; destination := destinationInput p |}))
        (snd (fare_directionsService_route site
                {| origin := originInput p; destination := destinationInput p |})))%list.

(** A site whose geocoder resolves every address and whose directions
    services find no route. *)
Definition no_route_site : TaxiFareFinder :=
  {| geocoder_geocode := fun _ =>
       ([ {| formatted_address := "";
             geometry_location := {| lat := 43.65; lng := -79.38 |} |} ],
        GeocoderStatus_OK);
     map_directionsService_route := fun _ =>
       ({| routes := [] |}, DirectionsStatus_ZERO_RESULTS);
     fare_directionsService_route := fun _ =>
       ({| routes := [] |}, DirectionsStatus_ZERO_RESULTS);
     fare := toronto;
     errorMessage := "Please enter a valid origin and destination.";
     errorClass := "error" |}.

(** A site whose geocoder resolves nothing and whose directions services
    find no route. *)
Definition no_address_site : TaxiFareFinder :=
  {| geocoder_geocode := fun _ => ([], GeocoderStatus_ZERO_RESULTS);
     map_directionsService_route := fun _ =>
       ({| routes := [] |}, DirectionsStatus_NOT_FOUND);
     fare_directionsService_route := fun _ =>
       ({| routes := [] |}, DirectionsStatus_NOT_FOUND);
     fare := toronto;
     errorMessage := "Please enter a valid origin and destination.";
     errorClass := "error" |}.

(** A site where every address resolves and every route is 1300 m long. *)
Definition route_site : TaxiFareFinder :=
  {| geocoder_geocode := fun _ =>
       ([ {| formatted_address := "";
             geometry_location := {| lat := 43.65; lng := -79.38 |} |} ],
        GeocoderStatus_OK);
     map_directionsService_route := fun _ =>
       (response_of 1300, DirectionsStatus_OK);
     fare_directionsService_route := fun _ =>
       (response_of 1300, DirectionsStatus_OK);
     fare := toronto;
     errorMessage := "Please enter a valid origin and destination.";
     errorClass := "error" |}.

(** Two routes, the first of two legs: only the 1300 m of [legs[0]] of
    [routes[0]] are the same as in [response_of 1300]. *)
Definition detour_response : DirectionsResult :=
  {| routes :=
       [ {| legs := [leg_of 1300 "1.3 km"; leg_of 5200 "5.2 km"];
            summary := "Queen St W" |};
         {| legs := [leg_of 9900 "9.9 km"]; summary := "Gardiner Expy" |} ] |}.

(** The replies a request can get. *)
Definition geocoding_fails (site : TaxiFareFinder) (address : string) : Prop :=
  snd (geocoder_geocode site (Some address)) <> GeocoderStatus_OK.

Definition geocoding_resolves (site : TaxiFareFinder) (address : string)
  : Prop :=
  snd (geocoder_geocode site (Some address)) = GeocoderStatus_OK
  /\ fst (geocoder_geocode site (Some address)) <> [].

Definition route_fails (site : TaxiFareFinder) (p : page) : Prop :=
  snd (fare_directionsService_route site
         {| origin := originInput p; destination := destinationInput p |})
  <> DirectionsStatus_OK.

(** The claim that every failure of a service (origin not resolved,
    destination not resolved, no route) shows the one message and nothing
    else, as a statement about completed requests. *)
Definition service_failure (site : TaxiFareFinder) (p : page) : Prop :=
  geocoding_fails site (originInput p)
  \/ geocoding_fails site (destinationInput p)
  \/ route_fails site p.

Definition uniform_failure_claim : Prop :=
  forall (site : TaxiFareFinder) (p r : page),
    idle p -> service_failure site p -> request_completes site p r ->
    shown r
    = (shown p ++ [OutputField.Message (errorMessage site) (errorClass site)])%list.

(** A page with two addresses typed in. *)
Definition downtown : page := initial_page "CN Tower" "Casa Loma".


(** ** What the callbacks leave behind *)

(** The replies [MapDisplay] awaits, as against the one of
    [FareCalculator]. *)
Definition map_task (t : task) : bool :=
  match t with
  | fare_route_callback _ _ => false
  | _ => true
  end.

Definition opt_list {A : Type} (o : option A) : list A :=
  match o with
  | Some a => [a]
  | None => []
  end.

(** [MapDisplay]'s variables after the callback of [showMap]. *)
Definition map_after_route (response : DirectionsResult)
    (status : DirectionsStatus) (m : MapDisplay.vars) : MapDisplay.vars :=
  match status with
  | DirectionsStatus_OK =>
      MapDisplay.mk (MapDisplay.addresses m) (MapDisplay.codedAddresses m)
                    (MapDisplay.maps m)
                    (MapDisplay.directions m ++ [response])%list
  | _ => m
  end.

(** ... after the [else] branch of [codeAddresses] and the reply to the
    route request of [showMap], sent with the texts [o] and [d]. *)
Definition map_after_end (site : TaxiFareFinder) (o d : string)
    (m : MapDisplay.vars) : MapDisplay.vars :=
  match array_get (MapDisplay.codedAddresses m) 0,
        array_get (MapDisplay.codedAddresses m) 1 with
  | Some origin, Some destination =>
      map_after_route
        (fst (map_directionsService_route site
                {| origin := o; destination := d |}))
        (snd (map_directionsService_route site
                {| origin := o; destination := d |}))
        (MapDisplay.mk (MapDisplay.addresses m) (MapDisplay.codedAddresses m)
                       (MapDisplay.maps m ++ [[origin; destination]])%list
                       (MapDisplay.directions m))
  | _, _ => m
  end.

(** ... after the callback of [geocoder.geocode] for [addresses[index]],
    where [continue] is the rest of the chain. *)
Definition map_after_geocode (index : nat)
    (results : list GeocoderResult) (status : GeocoderStatus)
    (continue : MapDisplay.vars -> MapDisplay.vars)
    (m : MapDisplay.vars) : MapDisplay.vars :=
  match status with
  | GeocoderStatus_OK =>
      match results with
      | [] => m
      | result0 :: _ =>
          continue
            (MapDisplay.mk (MapDisplay.addresses m)
               (array_set (MapDisplay.codedAddresses m) index
                          (geometry_location result0))
               (MapDisplay.maps m) (MapDisplay.directions m))
      end
  | _ => m
  end.

(** ... after [codeAddresses(addresses, index, codeAddresses)] and all the
    replies it leads to, [rest] being the addresses from [index] on. *)
Fixpoint map_after_chain (site : TaxiFareFinder) (o d : string)
    (index : nat) (rest : list (option string)) (m : MapDisplay.vars)
  : MapDisplay.vars :=
  match rest with
  | [] => map_after_end site o d m
  | a :: rest' =>
      map_after_geocode index
        (fst (geocoder_geocode site a)) (snd (geocoder_geocode site a))
        (map_after_chain site o d (S index) rest') m
  end.

(** ... after a reply in flight and all the replies it leads to. *)
Definition map_after_task (site : TaxiFareFinder) (o d : string)
    (t : task) (m : MapDisplay.vars) : MapDisplay.vars :=
  match t with
  | geocode_callback index results status =>
      map_after_geocode index results status
        (map_after_chain site o d (S index)
           (skipn (S index) (MapDisplay.addresses m))) m
  | map_route_callback response status => map_after_route response status m
  | fare_route_callback _ _ => m
  end.

(** [FareCalculator]'s variables after a reply in flight. *)
Definition fare_after_task (site : TaxiFareFinder)
    (t : task) (fc : FareCalculator.vars) : FareCalculator.vars :=
  match t with
  | fare_route_callback response status =>
      fst (FareCalculator.route_callback (fare site) response status
             fc OutputField.create)
  | _ => fc
  end.

(** The replies in flight are at most one for [MapDisplay] and at most
    one for [FareCalculator]. *)
Definition threads (p : page) (for_map for_fare : option task) : Prop :=
  Permutation (pending p) (opt_list for_map ++ opt_list for_fare)
  /\ (forall t : task, for_map = Some t -> map_task t = true)
  /\ (forall t : task, for_fare = Some t -> map_task t = false).

Definition map_outcome (site : TaxiFareFinder) (p : page)
    (for_map : option task) : MapDisplay.vars :=
  match for_map with
  | Some t =>
      map_after_task site (originInput p) (destinationInput p) t (mapOutput p)
  | None => mapOutput p
  end.

Definition fare_outcome (site : TaxiFareFinder) (p : page)
    (for_fare : option task) : FareCalculator.vars :=
  match for_fare with
  | Some t => fare_after_task site t (fareCalculator p)
  | None => fareCalculator p
  end.

(** [MapDisplay]'s variables once the click has stored the two texts. *)
Definition clicked_map (p : page) : MapDisplay.vars :=
  MapDisplay.mk [Some (originInput p); Some (destinationInput p)]
                (MapDisplay.codedAddresses (mapOutput p))
                (MapDisplay.maps (mapOutput p))
                (MapDisplay.directions (mapOutput p)).


(** ** Kinds of Numbers *)


Definition has_strict_sign (s : bool) (x : spec_float) : bool :=
  match x with
  | S754_infinity s' | S754_finite s' _ _ => Bool.eqb s' s
  | _ => false
  end.

(** A Number above zero other than [Infinity]. *)
Definition is_positive_finite (x : JS.number) : bool :=
  match Prim2SF x with
  | S754_finite false _ _ => true
  | _ => false
  end.

(** A Number other than [NaN] and the infinities. *)
Definition is_finite_number (x : JS.number) : bool :=
  match Prim2SF x with
  | S754_finite _ _ _ | S754_zero _ => true
  | _ => false
  end.

(** A site that cannot reach the geocoder (its quota is used up) while
    the directions service answers: 1300 m from the CN Tower, 7234 m from
    anywhere else. *)
Definition quota_site : TaxiFareFinder :=
  {| geocoder_geocode := fun _ => ([], GeocoderStatus_OVER_QUERY_LIMIT);
     map_directionsService_route := fun _ =>
       ({| routes := [] |}, DirectionsStatus_OVER_QUERY_LIMIT);
     fare_directionsService_route := fun request =>
       if (origin request =? "CN Tower")%string
       then (response_of 1300, DirectionsStatus_OK)
       else (response_of 7234, DirectionsStatus_OK);
     fare := toronto;
     errorMessage := "Please enter a valid origin and destination.";
     errorClass := "error" |}.


(** ** Whole metres and whole cents *)

(** A distance of a whole number of metres is shown as that many
    thousandths of a kilometre, or one less. *)
Definition metres_check (metres : nat) : bool :=
  let text :=
    toDistance (new_Decimal (JS.number_of_Z (Z.of_nat metres) / 1000) 3) " km" in
  ((text =? JS.fixed_notation (Z.of_nat metres) 3 ++ " km")
   || (text =? JS.fixed_notation (Z.of_nat metres - 1) 3 ++ " km"))%string.

(** A rate of a whole number of cents is read at two places as that many
    hundredths, or one less. *)
Definition cents_check (cents : nat) : bool :=
  let text :=
    toCurrency (new_Decimal (JS.number_of_Z (Z.of_nat cents) / 100) 2) "$" in
  ((text =? "$" ++ JS.fixed_notation (Z.of_nat cents) 2)
   || (text =? "$" ++ JS.fixed_notation (Z.of_nat cents - 1) 2))%string.


(** ** [InputField] *)

Module InputField.

(** The field: its placeholder text, the value of its element, whether
    the element carries the class ['placeholder'], and [oldValue]. *)
Record t := mk {
  placeholder : string;
  val : string;
  hasClass_placeholder : bool;
  oldValue : string
}.

Definition showPlaceholder (f : t) : t :=
  mk (placeholder f) (placeholder f) true (oldValue f).

Definition hidePlaceholder (f : t) : t :=
  mk (placeholder f) "" false (oldValue f).

(** [new InputField(element, placeholder)], for an element holding
    [element_val] and carrying the class or not: [oldValue] starts empty
    and the placeholder is shown. *)
Definition create (element_val : string) (element_hasClass : bool)
    (placeholder : string) : t :=
  showPlaceholder (mk placeholder element_val element_hasClass "").

Definition getPlaceholder (f : t) : string := placeholder f.

Definition getOldValue (f : t) : string := oldValue f.

Definition setOldValue (newValue : string) (f : t) : t :=
  mk (placeholder f) (val f) (hasClass_placeholder f) newValue.

Definition updateOnFocus (f : t) : t :=
  if ((val f =? placeholder f)%string && hasClass_placeholder f)%bool
  then hidePlaceholder f
  else f.

Definition updateOnBlur (f : t) : t :=
  if (val f =? "")%string
  then mk (placeholder f) (placeholder f) true ""
  else f.

(** What the user does to the field: the browser runs the focus handler
    when the field is entered, lets the user edit the value while the
    field has the focus, and runs the blur handler when it is left. *)
Inductive event :=
| focus
| input (text : string)
| blur.

Definition handle (f : t) (e : event) : t :=
  match e with
  | focus => updateOnFocus f
  | input text => mk (placeholder f) text (hasClass_placeholder f) (oldValue f)
  | blur => updateOnBlur f
  end.

(** Whether the field has the focus after the events [es], and whether
    the events can occur in that order. *)
Fixpoint focused_after (focused : bool) (es : list event) : bool :=
  match es with
  | [] => focused
  | focus :: es' => focused_after true es'
  | input _ :: es' => focused_after focused es'
  | blur :: es' => focused_after false es'
  end.

Fixpoint possible (focused : bool) (es : list event) : bool :=
  match es with
  | [] => true
  | focus :: es' => negb focused && possible true es'
  | input _ :: es' => focused && possible focused es'
  | blur :: es' => focused && possible false es'
  end.

Definition after (es : list event) (f : t) : t := fold_left handle es f.

(** Entering and leaving the field [n] times without typing. *)
Definition visits (n : nat) : list event := List.concat (repeat [focus; blur] n).

(** What the handlers keep true of a field that has the focus or not. *)
Definition consistent (f : t) (focused : bool) : Prop :=
  (hasClass_placeholder f = true -> val f = placeholder f /\ focused = false)
  /\ (focused = false -> placeholder f <> "" -> val f <> "").

End InputField.

(** The page when the button is clicked: the two texts are the values of
    the elements of the two fields. *)
Definition read_fields (origin_field destination_field : InputField.t)
    (p : page) : page :=
  enter (InputField.val origin_field) (InputField.val destination_field) p.


(** ** The element of [OutputField] *)

Module OutputElement.

(** The [stylingClasses] argument of [OutputField]. *)
Record stylingClasses := {
  hidden : string;
  error : string;
  totalFare : string
}.

(** What the element holds: the markup [element.html(message)] put there
    (or the page came with), or the two paragraphs of [makeFareMessage],
    the first with the class for the total fare. *)
Inductive html :=
| markup (text : string)
| fare_paragraphs (class totalFare totalDistance : string).

(** The two functions handed to [showOutputField], and the effects jQuery
    queues on the element: [fadeOut] calls its function when it ends. *)
Inductive action := makeMessage | makeFareMessage.

Inductive effect :=
| fadeOut (complete : action)
| fadeIn.

(** The variables of the closure, the class names on the element and its
    content, whether it is visible, and its queue of effects. *)
Record t := mk {
  closure : OutputField.t;
  classes : list string;
  content : html;
  visible : bool;
  fx : list effect
}.

(** The characters that separate class names: space, tab, line feed,
    form feed and carriage return. *)
Definition is_blank (c : ascii) : bool :=
  existsb (Nat.eqb (nat_of_ascii c)) [32; 9; 10; 12; 13]%nat.

(** The class names in a string, in order: its runs of characters other
    than blanks.  [word] is the run being read. *)
Fixpoint class_names_from (word : string) (s : string) : list string :=
  match s with
  | EmptyString =>
      match word with
      | EmptyString => []
      | _ => [word]
      end
  | String c s' =>
      if is_blank c then
        match word with
        | EmptyString => class_names_from "" s'
        | _ => word :: class_names_from "" s'
        end
      else class_names_from (word ++ String c "") s'
  end.

Definition class_names (value : string) : list string :=
  class_names_from "" value.

(** One class name: a string with a character and without blanks. *)
Fixpoint no_blank (s : string) : bool :=
  match s with
  | EmptyString => true
  | String c s' => negb (is_blank c) && no_blank s'
  end.

Definition is_class_name (c : string) : bool :=
  negb (c =? "")%string && no_blank c.

(** The class attribute as jQuery lays it out for its tests: the names
    with one space between them, and a space before and after. *)
Definition class_attribute (l : list string) : string :=
  " " ++ String.concat " " l ++ " ".

(** [indexOf(pattern) > -1]. *)
Fixpoint occurs (pattern s : string) : bool :=
  String.prefix pattern s
  || match s with
     | EmptyString => false
     | String _ s' => occurs pattern s'
     end.

(** jQuery's [hasClass(selector)]: whether [" " + selector + " "] occurs
    in the class attribute; the selector is not split into names. *)
Definition hasClass (selector : string) (l : list string) : bool :=
  occurs (" " ++ selector ++ " ") (class_attribute l).

(** jQuery's [addClass(value)]: each name in [value] that the element
    does not carry is appended. *)
Definition add_name (l : list string) (c : string) : list string :=
  if existsb (String.eqb c) l then l else (l ++ [c])%list.

Definition addClass (value : string) (l : list string) : list string :=
  fold_left add_name (class_names value) l.

(** jQuery's [removeClass(value)]: every name in [value] is removed. *)
Definition removeClass (value : string) (l : list string) : list string :=
  filter (fun x => negb (existsb (String.eqb x) (class_names value))) l.

(** [new OutputField(element, stylingClasses)], for an element with the
    class attribute [element_class]: the element is hidden and loses the
    class that hid it before. *)
Definition create (sc : stylingClasses)
    (element_class : string) (element_content : html) : t :=
  mk OutputField.create (removeClass (hidden sc) (class_names element_class))
     element_content false [].

(** [makeMessage] and [makeFareMessage], which read the variables of the
    closure when they run.  [html(undefined)] and [addClass(undefined)]
    change nothing; [text(undefined)] is a read, so that [makeFareMessage]
    with a variable not yet set raises a TypeError before it touches the
    element ([showFare] sets both before it hands the function over). *)
Definition run (sc : stylingClasses) (a : action) (e : t) : t :=
  match a with
  | makeMessage =>
      mk (closure e)
         match OutputField.messageClass (closure e) with
         | Some c => addClass c (classes e)
         | None => classes e
         end
         match OutputField.message (closure e) with
         | Some m => markup m
         | None => content e
         end
         (visible e) (fx e)
  | makeFareMessage =>
      match OutputField.totalFare (closure e),
            OutputField.totalDistance (closure e) with
      | Some fare, Some distance =>
          mk (closure e)
             (if hasClass (error sc) (classes e)
              then removeClass (error sc) (classes e)
              else classes e)
             (fare_paragraphs (totalFare sc) fare distance)
             (visible e) (fx e)
      | _, _ => e
      end
  end.

(** [showOutputField(action)]: [element.fadeOut(action); element.fadeIn()]. *)
Definition showOutputField (a : action) (e : t) : t :=
  mk (closure e) (classes e) (content e) (visible e)
     (fx e ++ [fadeOut a; fadeIn])%list.

Definition showFare (newTotalFare newTotalDistance : string) (e : t) : t :=
  showOutputField makeFareMessage
    (mk (OutputField.showFare newTotalFare newTotalDistance (closure e))
        (classes e) (content e) (visible e) (fx e)).

Definition showMessage (newMessage newMessageClass : string) (e : t) : t :=
  showOutputField makeMessage
    (mk (OutputField.showMessage newMessage newMessageClass (closure e))
        (classes e) (content e) (visible e) (fx e)).

(** The first effect of the queue ends. *)
Definition effect_ends (sc : stylingClasses) (e : t) : t :=
  match fx e with
  | [] => e
  | fadeOut a :: rest =>
      run sc a (mk (closure e) (classes e) (content e) false rest)
  | fadeIn :: rest => mk (closure e) (classes e) (content e) true rest
  end.

(** Calls of the two methods and ends of effects, in any order. *)
Inductive event :=
| call_showFare (newTotalFare newTotalDistance : string)
| call_showMessage (newMessage newMessageClass : string)
| animation_ends.

Definition handle (sc : stylingClasses) (e : t) (ev : event) : t :=
  match ev with
  | call_showFare f d => showFare f d e
  | call_showMessage m c => showMessage m c e
  | animation_ends => effect_ends sc e
  end.

Definition after (sc : stylingClasses) (evs : list event) (e : t) : t :=
  fold_left (handle sc) evs e.

(** All queued effects have ended. *)
Definition settle (sc : stylingClasses) (e : t) : t :=
  Nat.iter (List.length (fx e)) (effect_ends sc) e.

(** The last call, among the calls made so far. *)
Fixpoint last_call (l : list OutputField.content) : option OutputField.content :=
  match l with
  | [] => None
  | c :: l' =>
      match last_call l' with
      | Some c' => Some c'
      | None => Some c
      end
  end.

(** The function the last queued [fadeOut] will call. *)
Fixpoint last_action (q : list effect) : option action :=
  match q with
  | [] => None
  | fadeOut a :: q' =>
      match last_action q' with
      | Some b => Some b
      | None => Some a
      end
  | fadeIn :: q' => last_action q'
  end.

Definition action_of (c : OutputField.content) : action :=
  match c with
  | OutputField.FareMessage _ _ => makeFareMessage
  | OutputField.Message _ _ => makeMessage
  end.

(** The element as a call asked for it: the two paragraphs of the fare
    on an element that fails the test [hasClass(stylingClasses.error)] or
    carries none of its names, or the message on an element that carries
    every name of the message class. *)
Definition displays (sc : stylingClasses) (c : OutputField.content) (e : t)
  : Prop :=
  match c with
  | OutputField.FareMessage f d =>
      content e = fare_paragraphs (totalFare sc) f d
      /\ (hasClass (error sc) (classes e) = false
          \/ Forall (fun name => ~ In name (classes e))
                    (class_names (error sc)))
  | OutputField.Message m cl =>
      content e = markup m
      /\ Forall (fun name => In name (classes e)) (class_names cl)
  end.

(** The variables hold the arguments of the last call. *)
Definition holds (c : OutputField.content) (o : OutputField.t) : Prop :=
  match c with
  | OutputField.FareMessage f d =>
      OutputField.totalFare o = Some f /\ OutputField.totalDistance o = Some d
  | OutputField.Message m cl =>
      OutputField.message o = Some m /\ OutputField.messageClass o = Some cl
  end.

(** What calls and ends of effects keep true. *)
Definition coherent (sc : stylingClasses) (element_content : html) (e : t)
  : Prop :=
  match last_call (OutputField.shown (closure e)) with
  | None => fx e = [] /\ content e = element_content /\ visible e = false
  | Some c =>
      holds c (closure e)
      /\ match last_action (fx e) with
         | Some a => a = action_of c
         | None => displays sc c e
         end
      /\ match fx e with
         | [] => visible e = true
         | _ :: _ => exists q, fx e = (q ++ [fadeIn])%list
         end
  end.

End OutputElement.


(** ** Counting replies *)

(** The replies a reply in flight stands for, itself included: a reply of
    the geocoder for [addresses[index]] can lead to one for every later
    address and to one for the route line. *)
Definition task_cost (addresses : list (option string)) (t : task) : nat :=
  match t with
  | geocode_callback index _ _ => 2 + (List.length addresses - S index)
  | _ => 1
  end.

Definition cost (p : page) : nat :=
  list_sum (map (task_cost (MapDisplay.addresses (mapOutput p))) (pending p)).

(** [n] turns of the event loop. *)
Inductive steps_in (site : TaxiFareFinder) : nat -> page -> page -> Prop :=
| steps_in_done (p : page) : steps_in site 0 p p
| steps_in_next (n : nat) (p q r : page) :
    step site p q -> steps_in site n q r -> steps_in site (S n) p r.

(** The turns [run] takes before the replies run out or the fuel does. *)
Fixpoint turns (site : TaxiFareFinder) (fuel : nat) (p : page) : nat :=
  match fuel with
  | O => 0
  | S fuel' =>
      match pending p with
      | [] => 0
      | t :: rest => S (turns site fuel' (deliver site t (set_pending rest p)))
      end
  end.

(** A site whose directions service answers by the origin it is asked
    for: 1300 m from the CN Tower, 7234 m from anywhere else. *)
Definition origin_site : TaxiFareFinder :=
  {| geocoder_geocode := geocoder_geocode route_site;
     map_directionsService_route := fun request =>
       if (origin request =? "CN Tower")%string
       then (response_of 1300, DirectionsStatus_OK)
       else (response_of 7234, DirectionsStatus_OK);
     fare_directionsService_route := fun request =>
       if (origin request =? "CN Tower")%string
       then (response_of 1300, DirectionsStatus_OK)
       else (response_of 7234, DirectionsStatus_OK);
     fare := toronto;
     errorMessage := "Please enter a valid origin and destination.";
     errorClass := "error" |}.

(** * Properties *)

(** ** [Decimal] *)

Lemma for_scale_step (k : nat) (scale : JS.number) :
  for_scale k (scale * 10) = for_scale k scale * 10.
Proof.
  revert scale.
  induction k as [|k IH]; intros scale; simpl.
  - reflexivity.
  - now rewrite IH.
Qed.

Lemma for_scale_pow10 (n : nat) : for_scale n 1 = Spec.pow10 n.
Proof.
  induction n as [|n IH].
  - reflexivity.
  - change (for_scale n (1 * 10) = Spec.pow10 n * 10).
    now rewrite for_scale_step, IH.
Qed.

Lemma valueOf_truncate (d : Decimal) :
  valueOf d = Spec.truncate (amount d) (decimalPlaces d).
Proof.
  unfold valueOf, Spec.truncate.
  now rewrite for_scale_pow10.
Qed.

(** Up to [10^22] the powers of ten are Numbers, and the loop of
    [valueOf] reaches them without rounding. *)
Lemma pow10_exact (n : nat) :
  (n <= 22)%nat -> JS.integer_value (Spec.pow10 n) = Some (10 ^ Z.of_nat n)%Z.
Proof.
  intros Hn.
  assert (Hall : forallb
            (fun k => match JS.integer_value (Spec.pow10 k) with
                      | Some z => (z =? 10 ^ Z.of_nat k)%Z
                      | None => false
                      end) (seq 0 23) = true) by (vm_compute; reflexivity).
  rewrite forallb_forall in Hall.
  specialize (Hall n).
  destruct (JS.integer_value (Spec.pow10 n)) as [z|].
  - f_equal. apply Z.eqb_eq, Hall, in_seq. lia.
  - discriminate Hall. apply in_seq. lia.
Qed.

(** The product [amount * scale] is itself rounded to a Number before
    [Math.floor] sees it: the Number next below 0.1 reads as 0.1 at two
    places. *)
Lemma product_rounds_before_floor :
  (0.09999999999999999 <? 0.1) = true
  /\ valueOf (new_Decimal 0.09999999999999999 2) = 0.1.
Proof.
  split; vm_compute; reflexivity.
Qed.

(** C2: reading a Decimal built from an amount [a] and a count [n] of
    decimal places gives [floor(a * 10^n) / 10^n], whatever [a] and [n];
    the power of ten is the exact one up to [10^22].  The floor makes it a
    truncation, also below zero: [Decimal(2.4999, 3)] reads 2.499 and
    [Decimal(-1.2349, 2)] reads -1.24. *)
Theorem Decimal_reads_floor :
  (forall (a : JS.number) (n : nat),
      valueOf (new_Decimal a n)
      = JS.Math_floor (a * Spec.pow10 n) / Spec.pow10 n)
  /\ (forall n : nat, (n <= 22)%nat ->
        JS.integer_value (Spec.pow10 n) = Some (10 ^ Z.of_nat n)%Z)
  /\ valueOf (new_Decimal 2.4999 3) = 2.499
  /\ valueOf (new_Decimal (-1.2349) 2) = -1.24.
Proof.
  split; [|split; [|split]].
  - intros a n. apply (valueOf_truncate (new_Decimal a n)).
  - exact pow10_exact.
  - vm_compute. reflexivity.
  - vm_compute. reflexivity.
Qed.

Lemma Decimal_reads_floor_witness :
  (3 <= 22)%nat /\ JS.integer_value (Spec.pow10 3) = Some 1000%Z.
Proof.
  split.
  - lia.
  - apply (proj1 (proj2 Decimal_reads_floor) 3%nat). lia.
Defined.

(** ** Signs of binary64 results *)



(** *** Shifting a mantissa to the right *)










(** *** What a Number stored in binary64 satisfies *)


(** *** Comparisons with zero *)


Lemma zero_ltb (x : float) :
  (0 <? x) = has_strict_sign false (Prim2SF x).
Proof.
  rewrite ltb_spec. change (Prim2SF 0) with (S754_zero false).
  destruct (Prim2SF x) as [s|s| |s m e]; try destruct s; reflexivity.
Qed.




(** *** Subtraction *)





(** *** Products *)




(** *** Quotients *)



(** *** Integers as Numbers *)





(** *** [Math.floor] and [Math.ceil] *)







(** *** Decimals of two and three places *)





(** ** The fare formula *)

(** The statements the callback runs on an OK reply with a first leg. *)
Lemma route_callback_OK
    (fare : Fare) (response : DirectionsResult) (d : JS.number)
    (fc : FareCalculator.vars) (fareOutput : OutputField.t) :
  first_leg_distance response = Some d ->
  exists totalDistance distanceOverBase distanceFare totalFare : Decimal,
    FareCalculator.route_callback fare response DirectionsStatus_OK fc fareOutput
    = (FareCalculator.mk (Some totalDistance) (Some distanceOverBase)
                         (Some distanceFare) (Some totalFare),
       OutputField.showFare (toCurrency totalFare "$")
                            (toDistance totalDistance " km") fareOutput)
    /\ totalDistance = new_Decimal (d / 1000) 3
    /\ distanceOverBase
       = new_Decimal (valueOf totalDistance - valueOf (distanceUnit fare)) 3
    /\ distanceFare
       = new_Decimal (valueOf (ratePerDistanceUnit fare)
                      * FareCalculator.tierCount fare distanceOverBase) 2
    /\ totalFare = new_Decimal (valueOf (baseRate fare) + valueOf distanceFare) 2.
Proof.
  intros Hd.
  unfold FareCalculator.route_callback. rewrite Hd.
  do 4 eexists. repeat split.
Qed.

(** C1: on an OK reply whose first leg is [d] metres long, the callback
    leaves in its four variables the Decimals that read as the five steps
    of the formula, taken on the values the three Decimals of the
    configuration read as, and shows the total and the distance. *)
Theorem fare_formula
    (fare : Fare) (response : DirectionsResult) (d : JS.number)
    (fc : FareCalculator.vars) (fareOutput : OutputField.t) :
  first_leg_distance response = Some d ->
  let B := valueOf (baseRate fare) in
  let U := valueOf (distanceUnit fare) in
  let R := valueOf (ratePerDistanceUnit fare) in
  exists totalDistance distanceOverBase distanceFare totalFare : Decimal,
    FareCalculator.route_callback fare response DirectionsStatus_OK fc fareOutput
    = (FareCalculator.mk (Some totalDistance) (Some distanceOverBase)
                         (Some distanceFare) (Some totalFare),
       OutputField.showFare (toCurrency totalFare "$")
                            (toDistance totalDistance " km") fareOutput)
    /\ valueOf totalDistance = Spec.truncate (d / 1000) 3
    /\ valueOf distanceOverBase = Spec.truncate (valueOf totalDistance - U) 3
    /\ FareCalculator.tierCount fare distanceOverBase
       = JS.Math_ceil (valueOf distanceOverBase / U)
    /\ valueOf distanceFare
       = Spec.truncate (R * FareCalculator.tierCount fare distanceOverBase) 2
    /\ valueOf totalFare = Spec.truncate (B + valueOf distanceFare) 2
    /\ valueOf totalFare = Spec.totalFare B U R d.
Proof.
  intros Hd B U R.
  destruct (route_callback_OK fare response d fc fareOutput Hd)
    as (tD & oB & dF & tF & Hrun & HtD & HoB & HdF & HtF).
  exists tD, oB, dF, tF.
  split; [exact Hrun|].
  assert (H1 : valueOf tD = Spec.truncate (d / 1000) 3)
    by (rewrite HtD; apply valueOf_truncate).
  assert (H2 : valueOf oB = Spec.truncate (valueOf tD - U) 3)
    by (rewrite HoB at 1; apply valueOf_truncate).
  assert (H3 : valueOf dF
               = Spec.truncate (R * FareCalculator.tierCount fare oB) 2)
    by (rewrite HdF; apply valueOf_truncate).
  assert (H4 : valueOf tF = Spec.truncate (B + valueOf dF) 2)
    by (rewrite HtF at 1; apply valueOf_truncate).
  do 2 (split; [assumption|]). split; [reflexivity|].
  do 2 (split; [assumption|]).
  unfold Spec.totalFare, Spec.distanceFare, Spec.tierCount,
    Spec.distanceOverBase, Spec.totalDistanceKm.
  rewrite H4, H3. unfold FareCalculator.tierCount. fold U.
  now rewrite H2, H1.
Qed.

Lemma fare_formula_witness :
  first_leg_distance (response_of 7234) = Some 7234
  /\ exists totalDistance distanceOverBase distanceFare totalFare : Decimal,
       FareCalculator.route_callback toronto (response_of 7234)
         DirectionsStatus_OK FareCalculator.create OutputField.create
       = (FareCalculator.mk (Some totalDistance) (Some distanceOverBase)
                            (Some distanceFare) (Some totalFare),
          OutputField.showFare (toCurrency totalFare "$")
                               (toDistance totalDistance " km")
                               OutputField.create)
       /\ valueOf totalFare = Spec.totalFare 4.25 0.5 1.75 7234.
Proof.
  split.
  - reflexivity.
  - destruct (fare_formula toronto (response_of 7234) 7234
                FareCalculator.create OutputField.create eq_refl)
      as (tD & oB & dF & tF & Hrun & _ & _ & _ & _ & _ & Htotal).
    exists tD, oB, dF, tF. split; [exact Hrun|].
    rewrite Htotal. reflexivity.
Defined.

(** C7: with base rate 4.25, distance unit 0.5 and rate 1.75, a distance
    of exactly 0.5 km gives 0 over the base, no tier, a distance fare of
    0.00 and a total of 4.25; a distance of 1.3 km gives 0.8 over the
    base, 2 tiers, a distance fare of 3.50 and a total of 7.75. *)
Theorem fare_examples :
  let base := computed toronto 500 in
  let multi := computed toronto 1300 in
  option_map valueOf (FareCalculator.totalDistance base) = Some 0.5
  /\ option_map valueOf (FareCalculator.distanceOverBase base) = Some 0
  /\ option_map (FareCalculator.tierCount toronto)
                (FareCalculator.distanceOverBase base) = Some 0
  /\ option_map valueOf (FareCalculator.distanceFare base) = Some 0
  /\ option_map valueOf (FareCalculator.totalFare base) = Some 4.25
  /\ option_map valueOf (FareCalculator.totalDistance multi) = Some 1.3
  /\ option_map valueOf (FareCalculator.distanceOverBase multi) = Some 0.8
  /\ option_map (FareCalculator.tierCount toronto)
                (FareCalculator.distanceOverBase multi) = Some 2
  /\ option_map valueOf (FareCalculator.distanceFare multi) = Some 3.5
  /\ option_map valueOf (FareCalculator.totalFare multi) = Some 7.75
  /\ shown (fare_route_reply route_site (response_of 500)
              DirectionsStatus_OK downtown)
     = [OutputField.FareMessage "$4.25" "0.500 km"]
  /\ shown (fare_route_reply route_site (response_of 1300)
              DirectionsStatus_OK downtown)
     = [OutputField.FareMessage "$7.75" "1.300 km"].
Proof.
  repeat split; vm_compute; reflexivity.
Qed.




(** C9: [initialize] wraps the three configured numbers as Decimals of
    2, 3 and 2 places, so the formula works on their truncations: the
    total is the formula's on [truncate(b, 2)], [truncate(u, 3)] and
    [truncate(r, 2)].  A configured base rate of 4.249 reads as 4.24 and
    is charged as 4.24. *)
Theorem configuration_read_truncated :
  (forall b u r : JS.number,
      let fare := initialize_fare b u r in
      decimalPlaces (baseRate fare) = 2%nat
      /\ decimalPlaces (distanceUnit fare) = 3%nat
      /\ decimalPlaces (ratePerDistanceUnit fare) = 2%nat
      /\ valueOf (baseRate fare) = Spec.truncate b 2
      /\ valueOf (distanceUnit fare) = Spec.truncate u 3
      /\ valueOf (ratePerDistanceUnit fare) = Spec.truncate r 2
      /\ forall d : JS.number,
           option_map valueOf (FareCalculator.totalFare (computed fare d))
           = Some (Spec.totalFare (Spec.truncate b 2) (Spec.truncate u 3)
                                  (Spec.truncate r 2) d))
  /\ valueOf (baseRate (initialize_fare 4.249 0.5 1.75)) = 4.24
  /\ OutputField.shown
       (snd (FareCalculator.route_callback (initialize_fare 4.249 0.5 1.75)
               (response_of 500) DirectionsStatus_OK
               FareCalculator.create OutputField.create))
     = [OutputField.FareMessage "$4.24" "0.500 km"].
Proof.
  split; [|split].
  - intros b u r fare.
    do 3 (split; [reflexivity|]).
    do 3 (split; [apply valueOf_truncate|]).
    intros d.
    destruct (route_callback_OK fare (response_of d) d
                FareCalculator.create OutputField.create eq_refl)
      as (tD & oB & dF & tF & Hrun & HtD & HoB & HdF & HtF).
    unfold computed. rewrite Hrun. cbn [fst FareCalculator.totalFare option_map].
    f_equal. subst tF dF oB tD.
    unfold Spec.totalFare, Spec.distanceFare, Spec.tierCount,
      Spec.distanceOverBase, Spec.totalDistanceKm, FareCalculator.tierCount.
    now rewrite !valueOf_truncate.
  - vm_compute. reflexivity.
  - vm_compute. reflexivity.
Qed.

(** ** Formatting *)

Lemma length_append (a b : string) :
  String.length (a ++ b) = (String.length a + String.length b)%nat.
Proof.
  induction a as [|c a IH]; simpl; [reflexivity | now rewrite IH].
Qed.

Lemma length_substring (s : string) (n m : nat) :
  (n + m <= String.length s)%nat -> String.length (substring n m s) = m.
Proof.
  revert n m.
  induction s as [|c s IH]; intros n m Hle; simpl in Hle.
  - assert (n = 0%nat) by lia. assert (m = 0%nat) by lia. now subst.
  - destruct n as [|n], m as [|m]; simpl; try reflexivity.
    + f_equal. apply IH. simpl. lia.
    + apply IH. lia.
    + apply IH. lia.
Qed.

Lemma all_digits_append (a b : string) :
  all_digits a = true -> all_digits b = true -> all_digits (a ++ b) = true.
Proof.
  intros Ha Hb.
  induction a as [|c a IH]; simpl in *; [assumption|].
  apply andb_prop in Ha. destruct Ha as [Hc Ha].
  now rewrite Hc, IH.
Qed.

Lemma all_digits_substring (s : string) (n m : nat) :
  all_digits s = true -> all_digits (substring n m s) = true.
Proof.
  revert n m.
  induction s as [|c s IH]; intros n m Hs.
  - now destruct n, m.
  - simpl in Hs. apply andb_prop in Hs. destruct Hs as [Hc Hs].
    destruct n as [|n], m as [|m]; simpl; auto.
    now rewrite Hc, IH.
Qed.

Lemma all_digits_zeros (k : nat) : all_digits (JS.zeros k) = true.
Proof.
  induction k as [|k IH]; simpl; [reflexivity | exact IH].
Qed.

Lemma length_zeros (k : nat) : String.length (JS.zeros k) = k.
Proof.
  induction k as [|k IH]; simpl; [reflexivity | now rewrite IH].
Qed.

Lemma all_digits_uint (u : Decimal.uint) :
  all_digits (NilEmpty.string_of_uint u) = true.
Proof.
  induction u; simpl; auto.
Qed.

Lemma digits_shape (n : Z) :
  all_digits (JS.digits n) = true /\ (1 <= String.length (JS.digits n))%nat.
Proof.
  unfold JS.digits, NilZero.string_of_uint.
  destruct (N.to_uint (Z.to_N n)) as [|u|u|u|u|u|u|u|u|u|u];
    (split; [first [reflexivity | apply (all_digits_uint (_ u))] | simpl; lia]).
Qed.

(** Steps 11.b and 11.c of [toFixed] leave at least one digit before the
    point and exactly [f] after it. *)
Lemma fixed_notation_shape (n : Z) (f : nat) :
  (0 < f)%nat ->
  exists whole fraction : string,
    JS.fixed_notation n f = whole ++ "." ++ fraction
    /\ (1 <= String.length whole)%nat /\ all_digits whole = true
    /\ String.length fraction = f /\ all_digits fraction = true.
Proof.
  intros Hf.
  destruct (digits_shape n) as [Hall Hlen].
  unfold JS.fixed_notation.
  set (m := JS.digits n) in *.
  set (k := String.length m) in *.
  assert (Hf0 : (f =? 0)%nat = false) by (apply Nat.eqb_neq; lia).
  rewrite Hf0.
  destruct (k <=? f)%nat eqn:Hk.
  - apply Nat.leb_le in Hk.
    assert (Hlen' : String.length (JS.zeros (f + 1 - k) ++ m) = (f + 1)%nat).
    { rewrite length_append, length_zeros. fold k. lia. }
    assert (Hall' : all_digits (JS.zeros (f + 1 - k) ++ m) = true)
      by (apply all_digits_append; [apply all_digits_zeros | exact Hall]).
    eexists _, _. split; [reflexivity|].
    repeat split.
    + rewrite length_substring; lia.
    + now apply all_digits_substring.
    + rewrite length_substring; lia.
    + now apply all_digits_substring.
  - apply Nat.leb_gt in Hk.
    eexists _, _. split; [reflexivity|].
    repeat split.
    + rewrite length_substring; fold k; lia.
    + now apply all_digits_substring.
    + rewrite length_substring; fold k; lia.
    + now apply all_digits_substring.
Qed.

Lemma toFixed_fixed_decimal (x : JS.number) (f : nat) :
  (0 < f)%nat -> fixed_range x = true -> fixed_decimal f (JS.toFixed x f).
Proof.
  intros Hf Hx.
  unfold fixed_range in Hx. unfold JS.toFixed, fixed_decimal.
  destruct (Prim2SF x) as [sg| sg | | sg m e]; try discriminate Hx.
  - destruct (fixed_notation_shape 0 f Hf) as (w & fr & Heq & Hw).
    exists "", w, fr. rewrite Heq. split; [reflexivity|]. split; [now left|exact Hw].
  - apply negb_true_iff in Hx. rewrite Hx.
    destruct (fixed_notation_shape (JS.fixed_integer m e f) f Hf)
      as (w & fr & Heq & Hw).
    exists (if sg then "-" else ""), w, fr. rewrite Heq.
    split; [reflexivity|]. split; [destruct sg; auto | exact Hw].
Qed.

(** C6: [toCurrency] is the prefix followed by the Decimal's truncated
    value, [floor(amount * 10^decimalPlaces) / 10^decimalPlaces], as
    [toFixed(2)] writes it, and [toDistance] is that value as [toFixed(3)]
    writes it followed by the suffix; the two texts depend on the Decimal
    through its truncated value only.  When that value is finite and below
    [10^21] in magnitude the text is a sign, digits, a point and exactly
    2, respectively 3, digits, whatever [decimalPlaces] is.
    [Decimal(3, 0).toCurrency('$')] is ['$3.00'],
    [Decimal(7.2, 3).toDistance(' km')] is ['7.200 km'], and
    [Decimal(12.509, 2).toCurrency('$')] is ['$12.50'].  Other values are
    written as [toFixed] writes them: ['$1e+21'], ['$NaN'],
    ['$Infinity']. *)
Theorem currency_and_distance_format :
  (forall (d : Decimal) (unitPrefix : string),
      toCurrency d unitPrefix
      = unitPrefix ++ JS.toFixed (Spec.truncate (amount d) (decimalPlaces d)) 2)
  /\ (forall (d : Decimal) (unitSuffix : string),
      toDistance d unitSuffix
      = JS.toFixed (Spec.truncate (amount d) (decimalPlaces d)) 3 ++ unitSuffix)
  /\ (forall (d : Decimal) (unitPrefix unitSuffix : string),
      fixed_range (Spec.truncate (amount d) (decimalPlaces d)) = true ->
      exists money length_km : string,
        toCurrency d unitPrefix = unitPrefix ++ money
        /\ fixed_decimal 2 money
        /\ toDistance d unitSuffix = length_km ++ unitSuffix
        /\ fixed_decimal 3 length_km)
  /\ (forall (d d' : Decimal) (unitPrefix unitSuffix : string),
      Spec.truncate (amount d) (decimalPlaces d)
      = Spec.truncate (amount d') (decimalPlaces d') ->
      toCurrency d unitPrefix = toCurrency d' unitPrefix
      /\ toDistance d unitSuffix = toDistance d' unitSuffix)
  /\ toCurrency (new_Decimal 3 0) "$" = "$3.00"
  /\ toDistance (new_Decimal 7.2 3) " km" = "7.200 km"
  /\ toCurrency (new_Decimal 12.509 2) "$" = "$12.50"
  /\ toCurrency (new_Decimal 1e21 0) "$" = "$1e+21"
  /\ toCurrency (new_Decimal nan 2) "$" = "$NaN"
  /\ toCurrency (new_Decimal infinity 2) "$" = "$Infinity".
Proof.
  assert (Hmoney : forall (d : Decimal) (unitPrefix : string),
             toCurrency d unitPrefix
             = unitPrefix
               ++ JS.toFixed (Spec.truncate (amount d) (decimalPlaces d)) 2)
    by (intros d unitPrefix; unfold toCurrency; now rewrite valueOf_truncate).
  assert (Hlength : forall (d : Decimal) (unitSuffix : string),
             toDistance d unitSuffix
             = JS.toFixed (Spec.truncate (amount d) (decimalPlaces d)) 3
               ++ unitSuffix)
    by (intros d unitSuffix; unfold toDistance; now rewrite valueOf_truncate).
  split; [exact Hmoney|]. split; [exact Hlength|].
  split; [|split].
  - intros d unitPrefix unitSuffix Hrange.
    exists (JS.toFixed (Spec.truncate (amount d) (decimalPlaces d)) 2),
           (JS.toFixed (Spec.truncate (amount d) (decimalPlaces d)) 3).
    split; [apply Hmoney|].
    split; [apply toFixed_fixed_decimal; [lia | exact Hrange]|].
    split; [apply Hlength|].
    apply toFixed_fixed_decimal; [lia | exact Hrange].
  - intros d d' unitPrefix unitSuffix Hsame.
    rewrite !Hmoney, !Hlength, Hsame. now split.
  - repeat split; vm_compute; reflexivity.
Qed.

Lemma currency_and_distance_format_witness :
  fixed_range (Spec.truncate 12.509 1) = true
  /\ exists money length_km : string,
       toCurrency (new_Decimal 12.509 1) "$" = "$" ++ money
       /\ fixed_decimal 2 money
       /\ toDistance (new_Decimal 12.509 1) " km" = length_km ++ " km"
       /\ fixed_decimal 3 length_km.
Proof.
  split.
  - vm_compute. reflexivity.
  - apply (proj1 (proj2 (proj2 currency_and_distance_format))
             (new_Decimal 12.509 1)).
    vm_compute. reflexivity.
Defined.

(** C6, as stated for every Decimal, fails: [Decimal(1e21, 0)] is written
    ['$1e+21'], with no decimals at all. *)
Lemma every_Decimal_fixed_refuted : ~ every_Decimal_fixed_claim.
Proof.
  intros Hclaim.
  destruct (Hclaim (new_Decimal 1e21 0) "$" "")
    as [(money & Heq & sign & whole & fraction & Hmoney & Hsign & Hlen
          & Hdigits & _) _].
  assert (Htext : toCurrency (new_Decimal 1e21 0) "$" = "$1e+21")
    by (vm_compute; reflexivity).
  rewrite Htext in Heq. injection Heq as Heq. subst money.
  destruct Hsign as [-> | ->]; [|discriminate Hmoney].
  destruct whole as [|c whole]; [simpl in Hlen; lia|].
  injection Hmoney as <- Hrest.
  destruct whole as [|c' whole]; [discriminate Hrest|].
  injection Hrest as <- _.
  discriminate Hdigits.
Qed.

(** ** The page and its callbacks *)

Lemma skipn_nth_error {A : Type} (l : list A) (i : nat) (a : A) :
  nth_error l i = Some a -> skipn i l = a :: skipn (S i) l.
Proof.
  revert i.
  induction l as [|x l IH]; intros [|i] Hnth; simpl in *; try discriminate.
  - now inversion Hnth.
  - now apply IH.
Qed.

Lemma array_get_nth_error {A : Type} (l : list (option A)) (i : nat) (a : option A) :
  nth_error l i = Some a -> array_get l i = a.
Proof.
  intros Hnth. unfold array_get. now rewrite Hnth.
Qed.

Lemma clicked_addresses (a : list (option string)) (o d : string) :
  (List.length a <= 2)%nat ->
  array_set (array_set a 0 o) 1 d = [Some o; Some d].
Proof.
  intros Hlen.
  destruct a as [|x [|y [|z a]]]; simpl in *; try reflexivity; lia.
Qed.

(** The callback of [FareCalculator] only appends to what is shown. *)
Lemma route_callback_shown (f : Fare) (response : DirectionsResult)
    (status : DirectionsStatus) (fc : FareCalculator.vars) (o : OutputField.t) :
  OutputField.shown (snd (FareCalculator.route_callback f response status fc o))
  = (OutputField.shown o
     ++ OutputField.shown
          (snd (FareCalculator.route_callback f response status
                  FareCalculator.create OutputField.create)))%list.
Proof.
  unfold FareCalculator.route_callback.
  destruct status; simpl; try (now rewrite app_nil_r).
  destruct (first_leg_distance response); simpl; [reflexivity | now rewrite app_nil_r].
Qed.

Section PageFacts.

Variable site : TaxiFareFinder.

Local Abbreviation addresses_of p := (MapDisplay.addresses (mapOutput p)).
Local Abbreviation shows p := (task_shows site (addresses_of p)).
Local Abbreviation weighs p := (task_weight (addresses_of p)).

Lemma effect_none (p : page) : effect p p [] [].
Proof.
  unfold effect. now rewrite !app_nil_r.
Qed.

Lemma showMap_effect (markers : list LatLng) (p : page) :
  exists t : task,
    effect p (showMap site markers p) [] [t]
    /\ shows p t = [] /\ weighs p t = 1%nat.
Proof.
  unfold showMap.
  destruct (map_directionsService_route site _) as [response status].
  exists (map_route_callback response status).
  unfold effect, shown. simpl. now rewrite app_nil_r.
Qed.

Lemma codeAddresses_effect (index : nat) (p : page) :
  exists new : list task,
    effect p (codeAddresses site index p) [] new
    /\ flat_map (shows p) new = chain_shows site (skipn index (addresses_of p))
    /\ (list_sum (map (weighs p) new)
        <= if (index <? List.length (addresses_of p))%nat
           then 2 + (List.length (addresses_of p) - index) else 1)%nat.
Proof.
  unfold codeAddresses.
  destruct (index <? List.length (addresses_of p))%nat eqn:Hlt.
  - apply Nat.ltb_lt in Hlt.
    destruct (nth_error (addresses_of p) index) as [a|] eqn:Hnth;
      [|apply nth_error_None in Hnth; lia].
    rewrite (array_get_nth_error _ _ _ Hnth), (skipn_nth_error _ _ _ Hnth).
    simpl chain_shows.
    destruct (geocoder_geocode site a) as [results status].
    exists [geocode_callback index results status].
    unfold effect, shown. simpl. rewrite !app_nil_r.
    repeat split; try reflexivity. lia.
  - apply Nat.ltb_ge in Hlt.
    rewrite (skipn_all2 _ Hlt). simpl chain_shows.
    destruct (array_get _ 0) as [origin|];
      [destruct (array_get _ 1) as [destination|]|].
    + destruct (showMap_effect [origin; destination] p) as (t & He & Hs & Hw).
      exists [t]. split; [exact He|]. simpl. rewrite Hs, Hw. split; [reflexivity | lia].
    + exists []. split; [apply effect_none|]. simpl. split; [reflexivity | lia].
    + exists []. split; [apply effect_none|]. simpl. split; [reflexivity | lia].
Qed.

(** What handing over one reply does: it shows [emitted] and awaits
    [new] replies, which together show what the reply was due to show,
    and which weigh less than it did. *)
Lemma deliver_effect (t : task) (p : page) :
  exists (emitted : list OutputField.content) (new : list task),
    effect p (deliver site t p) emitted new
    /\ (emitted ++ flat_map (shows p) new)%list = shows p t
    /\ (list_sum (map (weighs p) new) < weighs p t)%nat.
Proof.
  destruct t as [index results status | response status | response status].
  - assert (Hfail : status <> GeocoderStatus_OK ->
              exists emitted new,
                effect p (deliver site (geocode_callback index results status) p)
                       emitted new
                /\ (emitted ++ flat_map (shows p) new)%list
                   = shows p (geocode_callback index results status)
                /\ (list_sum (map (weighs p) new)
                    < weighs p (geocode_callback index results status))%nat).
    { intros Hne.
      exists [OutputField.Message (errorMessage site) (errorClass site)], [].
      destruct status; try contradiction;
        (unfold effect, shown; simpl; rewrite !app_nil_r;
         repeat split; try reflexivity; lia). }
    destruct status; try (apply Hfail; discriminate).
    clear Hfail. simpl.
    destruct results as [|result0 rest].
    + exists [], []. split; [apply effect_none|]. simpl. split; [reflexivity | lia].
    + set (p1 := set_mapOutput _ p).
      destruct (codeAddresses_effect (index + 1) p1) as (new & He & Hs & Hw).
      exists [], new.
      change (addresses_of p1) with (addresses_of p) in *.
      split; [exact He|].
      rewrite Nat.add_1_r in Hs, Hw. simpl. split; [exact Hs|].
      destruct (S index <? List.length (addresses_of p))%nat eqn:Hlt.
      * apply Nat.ltb_lt in Hlt. lia.
      * lia.
  - exists [], [].
    destruct status; simpl;
      (split; [unfold effect, shown; simpl; now rewrite !app_nil_r
              | split; [reflexivity | lia]]).
  - exists (fare_shows site response status), [].
    unfold deliver, fare_route_reply.
    destruct (FareCalculator.route_callback (fare site) response status
                (fareCalculator p) (fareOutput p)) as [fc o] eqn:Hcb.
    assert (Ho : OutputField.shown o
                 = (shown p ++ fare_shows site response status)%list).
    { replace o with (snd (FareCalculator.route_callback (fare site) response
                              status (fareCalculator p) (fareOutput p)))
        by now rewrite Hcb.
      apply route_callback_shown. }
    unfold effect, shown in *. simpl. rewrite !app_nil_r.
    repeat split; try assumption; try reflexivity. lia.
Qed.

Lemma perm_deliver {A : Type} (e b a n : list A) :
  Permutation (e ++ (b ++ a) ++ n) (b ++ (e ++ n) ++ a).
Proof.
  rewrite <- !app_assoc.
  apply perm_trans with (b ++ e ++ a ++ n)%list.
  - apply Permutation_app_swap_app.
  - do 2 apply Permutation_app_head. apply Permutation_app_comm.
Qed.

(** One turn of the event loop keeps the input fields and the addresses,
    only adds to what is shown, keeps the total of what is and will be
    shown, and brings the end nearer. *)
Lemma step_effect (p q : page) :
  step site p q ->
  originInput q = originInput p
  /\ destinationInput q = destinationInput p
  /\ addresses_of q = addresses_of p
  /\ (weight q < weight p)%nat
  /\ exists emitted : list OutputField.content,
       shown q = (shown p ++ emitted)%list
       /\ Permutation (emitted ++ will_show site q) (will_show site p).
Proof.
  intros Hstep.
  destruct Hstep as [p before t after Hpending].
  set (p' := set_pending (before ++ after)%list p).
  destruct (deliver_effect t p')
    as (emitted & new & (Ho & Hd & Ha & Hp & Hs) & Hshows & Hweight).
  change (addresses_of p') with (addresses_of p) in *.
  change (pending p') with (before ++ after)%list in Hp.
  change (shown p') with (shown p) in Hs.
  do 3 (split; [assumption|]).
  split.
  - unfold weight. rewrite Ha, Hp, Hpending.
    rewrite !map_app, !list_sum_app. simpl. lia.
  - exists emitted. split; [exact Hs|].
    unfold will_show. rewrite Ha, Hp, Hpending.
    rewrite !flat_map_app. simpl. rewrite <- Hshows.
    apply perm_deliver.
Qed.

Lemma steps_effect (p r : page) :
  steps site p r ->
  originInput r = originInput p
  /\ destinationInput r = destinationInput p
  /\ addresses_of r = addresses_of p
  /\ exists emitted : list OutputField.content,
       shown r = (shown p ++ emitted)%list
       /\ Permutation (emitted ++ will_show site r) (will_show site p).
Proof.
  induction 1 as [p | p q r Hstep _ IH].
  - repeat split. exists []. now rewrite app_nil_r.
  - destruct (step_effect _ _ Hstep) as (Ho & Hd & Ha & _ & e1 & Hs1 & Hp1).
    destruct IH as (Ho' & Hd' & Ha' & e2 & Hs2 & Hp2).
    split; [congruence|]. split; [congruence|]. split; [congruence|].
    exists (e1 ++ e2)%list. split.
    + now rewrite Hs2, Hs1, app_assoc.
    + rewrite <- app_assoc.
      apply perm_trans with (e1 ++ will_show site q)%list; [|exact Hp1].
      now apply Permutation_app_head.
Qed.

(** Every reply is handed over after finitely many turns, whatever the
    order: the event loop runs dry. *)
Lemma event_loop_runs_dry (p : page) :
  exists r : page, steps site p r /\ pending r = [].
Proof.
  remember (weight p) as w eqn:Hw. revert p Hw.
  induction w as [w IH] using lt_wf_ind. intros p Hw.
  destruct (pending p) as [|t rest] eqn:Hpending.
  - exists p. split; [apply steps_done | exact Hpending].
  - assert (Hstep : step site p (deliver site t (set_pending ([] ++ rest)%list p)))
      by (apply step_deliver; exact Hpending).
    destruct (step_effect _ _ Hstep) as (_ & _ & _ & Hlt & _).
    destruct (IH _ ltac:(rewrite Hw; exact Hlt) _ eq_refl) as (r & Hsteps & Hr).
    exists r. split; [|exact Hr].
    eapply steps_next; [exact Hstep | exact Hsteps].
Qed.

Lemma run_steps (fuel : nat) (p : page) : steps site p (run site fuel p).
Proof.
  revert p.
  induction fuel as [|fuel IH]; intros p; simpl.
  - apply steps_done.
  - destruct (pending p) as [|t rest] eqn:Hpending.
    + apply steps_done.
    + eapply steps_next; [|apply IH].
      apply (step_deliver site p [] t rest Hpending).
Qed.

(** The click shows nothing by itself; it sends the first geocoding
    request and the route request of the fare calculator. *)
Lemma click_effect (p : page) :
  idle p ->
  originInput (click site p) = originInput p
  /\ destinationInput (click site p) = destinationInput p
  /\ addresses_of (click site p)
     = [Some (originInput p); Some (destinationInput p)]
  /\ shown (click site p) = shown p
  /\ will_show site (click site p) = request_shows site p.
Proof.
  intros [Hpending Hlen].
  unfold click, MapDisplay_updateContent.
  rewrite (clicked_addresses _ _ _ Hlen).
  set (p1 := set_mapOutput _ p).
  destruct (codeAddresses_effect 0 p1)
    as (new & (Ho & Hd & Ha & Hp & Hs) & Hshows & _).
  change (pending p1) with (pending p) in Hp. rewrite Hpending in Hp.
  change (shown p1) with (shown p) in Hs. rewrite app_nil_r in Hs.
  change (originInput p1) with (originInput p) in Ho.
  change (destinationInput p1) with (destinationInput p) in Hd.
  change (addresses_of p1)
    with [Some (originInput p); Some (destinationInput p)] in *.
  unfold FareCalculator_updateContent, request_shows.
  rewrite Ho, Hd.
  destruct (fare_directionsService_route site _) as [response status].
  unfold will_show, shown in *. simpl. rewrite Ha, Hp.
  repeat split; try assumption.
  simpl app. rewrite flat_map_app, Hshows. simpl. now rewrite app_nil_r.
Qed.

(** A request, from the click to the last callback, shows the messages
    of the geocoding chain and the fare of the fare calculator, in the
    order the replies arrive, and leaves the page ready for the next. *)
Lemma request_effect (p r : page) :
  idle p -> request_completes site p r ->
  idle r
  /\ originInput r = originInput p
  /\ destinationInput r = destinationInput p
  /\ exists emitted : list OutputField.content,
       shown r = (shown p ++ emitted)%list
       /\ Permutation emitted (request_shows site p).
Proof.
  intros Hidle [Hsteps Hdry].
  destruct (click_effect p Hidle) as (Ho & Hd & Ha & Hs & Hw).
  destruct (steps_effect _ _ Hsteps) as (Ho' & Hd' & Ha' & emitted & Hs' & Hperm).
  split; [|split; [congruence|split; [congruence|]]].
  - split; [exact Hdry|]. rewrite Ha', Ha. simpl. lia.
  - exists emitted. split; [congruence|].
    unfold will_show at 1 in Hperm. rewrite Hdry in Hperm. simpl in Hperm.
    rewrite app_nil_r, Hw in Hperm. exact Hperm.
Qed.

(** A request always completes. *)
Lemma request_ends (p : page) : exists r : page, request_completes site p r.
Proof.
  destruct (event_loop_runs_dry (click site p)) as (r & Hsteps & Hdry).
  exists r. now split.
Qed.

End PageFacts.

(** ** What a request shows *)

Lemma chain_shows_message (site : TaxiFareFinder)
    (addresses : list (option string)) (c : OutputField.content) :
  In c (chain_shows site addresses) ->
  c = OutputField.Message (errorMessage site) (errorClass site)
  /\ exists a : option string,
       In a addresses /\ snd (geocoder_geocode site a) <> GeocoderStatus_OK.
Proof.
  induction addresses as [|a rest IH]; simpl; [contradiction|].
  unfold geocode_shows.
  destruct (snd (geocoder_geocode site a)) eqn:Hstatus;
    try (intros [Hc|[]]; split; [now symmetry|];
         exists a; split; [now left | rewrite Hstatus; discriminate]).
  destruct (fst (geocoder_geocode site a)); [contradiction|].
  intros Hin. destruct (IH Hin) as (Hc & a' & Ha' & Hfail).
  split; [exact Hc|]. exists a'. split; [now right | exact Hfail].
Qed.

Lemma fares_app (l l' : list OutputField.content) :
  fares (l ++ l') = (fares l ++ fares l')%list.
Proof.
  induction l as [|[tf td|m c] l IH]; simpl; [reflexivity| |]; now rewrite IH.
Qed.

Lemma fares_chain_shows (site : TaxiFareFinder)
    (addresses : list (option string)) :
  fares (chain_shows site addresses) = [].
Proof.
  induction addresses as [|a rest IH]; simpl; [reflexivity|].
  unfold geocode_shows.
  destruct (snd (geocoder_geocode site a)); try reflexivity.
  now destruct (fst (geocoder_geocode site a)).
Qed.

Lemma fare_shows_failed (site : TaxiFareFinder)
    (response : DirectionsResult) (status : DirectionsStatus) :
  status <> DirectionsStatus_OK -> fare_shows site response status = [].
Proof.
  intros Hne. destruct status; try reflexivity. contradiction.
Qed.

Lemma fare_shows_short (site : TaxiFareFinder)
    (response : DirectionsResult) (status : DirectionsStatus) :
  (List.length (fares (fare_shows site response status)) <= 1)%nat.
Proof.
  unfold fare_shows, FareCalculator.route_callback.
  destruct status; simpl; try lia.
  destruct (first_leg_distance response); simpl; lia.
Qed.

Lemma Permutation_fares (l l' : list OutputField.content) :
  Permutation l l' -> Permutation (fares l) (fares l').
Proof.
  induction 1 as [|[tf td|m c] l l' _ IH|[tf td|m c] [tf' td'|m' c'] l| l l' l'' _ IH1 _ IH2];
    simpl; try (now constructor); try apply Permutation_refl.
  - exact IH.
  - eapply perm_trans; eassumption.
Qed.

Lemma Permutation_short {A : Type} (l l' : list A) :
  (List.length l' <= 1)%nat -> Permutation l l' -> l = l'.
Proof.
  intros Hlen Hperm.
  destruct l' as [|x [|y l']]; simpl in Hlen; try lia.
  - apply Permutation_sym in Hperm. now apply Permutation_nil in Hperm.
  - apply Permutation_sym in Hperm. now apply Permutation_length_1_inv in Hperm.
Qed.

(** The fares a request shows are those of the fare calculator's reply. *)
Lemma request_fares (site : TaxiFareFinder) (p r : page)
    (emitted : list OutputField.content) :
  Permutation emitted (request_shows site p) ->
  fares emitted
  = fares (fare_shows site
             (fst (fare_directionsService_route site
                {| origin := originInput p; destination := destinationInput p |}))
             (snd (fare_directionsService_route site
                {| origin := originInput p; destination := destinationInput p |}))).
Proof.
  intros Hperm.
  apply Permutation_short; [apply fare_shows_short|].
  apply Permutation_fares in Hperm.
  unfold request_shows in Hperm.
  now rewrite fares_app, fares_chain_shows in Hperm.
Qed.

Lemma fare_route_reply_failed (site : TaxiFareFinder)
    (response : DirectionsResult) (status : DirectionsStatus) (p : page) :
  status <> DirectionsStatus_OK -> fare_route_reply site response status p = p.
Proof.
  intros Hne. unfold fare_route_reply.
  destruct status; try contradiction; now destruct p.
Qed.

(** C4: when the directions service answers the fare calculator with a
    status other than OK, the callback changes nothing: no variable, no
    call of [showFare] or [showMessage].  A message shown by a request is
    the error message of [MapDisplay], shown because geocoding the origin
    or the destination failed; when both are geocoded and the route
    request fails, the request shows nothing at all. *)
Theorem route_failure_is_silent (site : TaxiFareFinder) :
  (forall (response : DirectionsResult) (status : DirectionsStatus)
          (fc : FareCalculator.vars) (o : OutputField.t),
      status <> DirectionsStatus_OK ->
      FareCalculator.route_callback (fare site) response status fc o = (fc, o))
  /\ (forall (response : DirectionsResult) (status : DirectionsStatus)
             (p : page),
      status <> DirectionsStatus_OK ->
      fare_route_reply site response status p = p)
  /\ (forall p r : page,
      idle p -> request_completes site p r ->
      exists emitted : list OutputField.content,
        shown r = (shown p ++ emitted)%list
        /\ forall message class : string,
             In (OutputField.Message message class) emitted ->
             message = errorMessage site /\ class = errorClass site
             /\ (geocoding_fails site (originInput p)
                 \/ geocoding_fails site (destinationInput p)))
  /\ (forall p r : page,
      idle p -> request_completes site p r ->
      snd (geocoder_geocode site (Some (originInput p))) = GeocoderStatus_OK ->
      snd (geocoder_geocode site (Some (destinationInput p))) = GeocoderStatus_OK ->
      route_fails site p ->
      shown r = shown p).
Proof.
  split; [|split; [|split]].
  - intros response status fc o Hne.
    destruct status; try reflexivity. contradiction.
  - intros response status p Hne. now apply fare_route_reply_failed.
  - intros p r Hidle Hrun.
    destruct (request_effect site p r Hidle Hrun)
      as (_ & _ & _ & emitted & Hshown & Hperm).
    exists emitted. split; [exact Hshown|].
    intros message class Hin.
    apply (Permutation_in _ Hperm) in Hin.
    unfold request_shows in Hin. apply in_app_or in Hin.
    destruct Hin as [Hin|Hin].
    + destruct (chain_shows_message _ _ _ Hin) as (Heq & a & Ha & Hfail).
      inversion Heq; subst. do 2 (split; [reflexivity|]).
      destruct Ha as [<-|[<-|[]]]; [now left | now right].
    + exfalso. revert Hin.
      unfold fare_shows, FareCalculator.route_callback.
      destruct (snd (fare_directionsService_route site _)); simpl; try tauto.
      destruct (first_leg_distance _); simpl; [|tauto].
      intros [Hin|[]]. discriminate Hin.
  - intros p r Hidle Hrun Ho Hd Hroute.
    destruct (request_effect site p r Hidle Hrun)
      as (_ & _ & _ & emitted & Hshown & Hperm).
    unfold request_shows in Hperm.
    rewrite (fare_shows_failed _ _ _ Hroute), app_nil_r in Hperm.
    simpl in Hperm. unfold geocode_shows in Hperm. rewrite Ho, Hd in Hperm.
    assert (Hnil : emitted = []).
    { destruct (fst (geocoder_geocode site (Some (originInput p))));
        [|destruct (fst (geocoder_geocode site (Some (destinationInput p))))];
        now apply Permutation_sym, Permutation_nil in Hperm. }
    now rewrite Hshown, Hnil, app_nil_r.
Qed.

Lemma route_failure_is_silent_witness :
  idle downtown
  /\ request_completes no_route_site downtown
       (run no_route_site 4 (click no_route_site downtown))
  /\ route_fails no_route_site downtown
  /\ shown (run no_route_site 4 (click no_route_site downtown)) = shown downtown.
Proof.
  assert (Hidle : idle downtown) by (split; [reflexivity | simpl; lia]).
  assert (Hrun : request_completes no_route_site downtown
                   (run no_route_site 4 (click no_route_site downtown)))
    by (split; [apply run_steps | reflexivity]).
  assert (Hroute : route_fails no_route_site downtown)
    by (unfold route_fails; simpl; discriminate).
  split; [exact Hidle|]. split; [exact Hrun|]. split; [exact Hroute|].
  apply (proj2 (proj2 (proj2 (route_failure_is_silent no_route_site)))
           downtown _ Hidle Hrun eq_refl eq_refl Hroute).
Defined.

Lemma geocode_shows_failed (site : TaxiFareFinder)
    (results : list GeocoderResult) (status : GeocoderStatus)
    (rest : list OutputField.content) :
  status <> GeocoderStatus_OK ->
  geocode_shows site results status rest
  = [OutputField.Message (errorMessage site) (errorClass site)].
Proof.
  intros Hne. destruct status; try reflexivity. contradiction.
Qed.

Lemma geocode_shows_resolved (site : TaxiFareFinder)
    (results : list GeocoderResult) (rest : list OutputField.content) :
  results <> [] ->
  geocode_shows site results GeocoderStatus_OK rest = rest.
Proof.
  intros Hne. destruct results; [contradiction | reflexivity].
Qed.

(** C3, as the code has it: when the route request of the fare calculator
    fails and the geocoder cannot resolve the origin, or resolves the
    origin and cannot resolve the destination, the request shows the one
    fixed error message, the same in both cases, and nothing else; no fare
    is shown.  When the route request fails and both addresses resolve,
    the request shows nothing. *)
Theorem geocoding_failure_shows_message
    (site : TaxiFareFinder) (p r : page) :
  idle p -> request_completes site p r -> route_fails site p ->
  (geocoding_fails site (originInput p)
   \/ (geocoding_resolves site (originInput p)
       /\ geocoding_fails site (destinationInput p)) ->
   shown r
   = (shown p ++ [OutputField.Message (errorMessage site) (errorClass site)])%list)
  /\ (geocoding_resolves site (originInput p) ->
      geocoding_resolves site (destinationInput p) ->
      shown r = shown p)
  /\ exists emitted : list OutputField.content,
       shown r = (shown p ++ emitted)%list /\ fares emitted = [].
Proof.
  intros Hidle Hrun Hroute.
  destruct (request_effect site p r Hidle Hrun)
    as (_ & _ & _ & emitted & Hshown & Hperm).
  assert (Hfares : fares emitted = []).
  { rewrite (request_fares site p r emitted Hperm).
    now rewrite (fare_shows_failed _ _ _ Hroute). }
  unfold request_shows in Hperm.
  rewrite (fare_shows_failed _ _ _ Hroute), app_nil_r in Hperm.
  simpl in Hperm.
  split; [|split].
  - intros Hfail.
    assert (Hone : emitted
                   = [OutputField.Message (errorMessage site) (errorClass site)]).
    { apply Permutation_short; [simpl; lia|].
      destruct Hfail as [Ho | [[Ho Hres] Hd]].
      - now rewrite (geocode_shows_failed _ _ _ _ Ho) in Hperm.
      - unfold geocoding_fails in Hd.
        rewrite Ho, (geocode_shows_resolved _ _ _ Hres) in Hperm.
        now rewrite (geocode_shows_failed _ _ _ _ Hd) in Hperm. }
    now rewrite Hshown, Hone.
  - intros [Ho Hres] [Hd Hres'].
    rewrite Ho, (geocode_shows_resolved _ _ _ Hres) in Hperm.
    rewrite Hd, (geocode_shows_resolved _ _ _ Hres') in Hperm.
    apply Permutation_sym, Permutation_nil in Hperm.
    now rewrite Hshown, Hperm, app_nil_r.
  - exists emitted. now split.
Qed.

Lemma geocoding_failure_shows_message_witness :
  idle downtown
  /\ request_completes no_address_site downtown
       (run no_address_site 4 (click no_address_site downtown))
  /\ route_fails no_address_site downtown
  /\ geocoding_fails no_address_site (originInput downtown)
  /\ shown (run no_address_site 4 (click no_address_site downtown))
     = [OutputField.Message "Please enter a valid origin and destination."
                            "error"].
Proof.
  assert (Hidle : idle downtown) by (split; [reflexivity | simpl; lia]).
  assert (Hrun : request_completes no_address_site downtown
                   (run no_address_site 4 (click no_address_site downtown)))
    by (split; [apply run_steps | reflexivity]).
  assert (Hroute : route_fails no_address_site downtown)
    by (unfold route_fails; simpl; discriminate).
  assert (Hfail : geocoding_fails no_address_site (originInput downtown))
    by (unfold geocoding_fails; simpl; discriminate).
  split; [exact Hidle|]. split; [exact Hrun|]. split; [exact Hroute|].
  split; [exact Hfail|].
  apply (proj1 (geocoding_failure_shows_message no_address_site downtown _
                  Hidle Hrun Hroute)).
  left. exact Hfail.
Defined.

(** C3, as stated, fails: with two addresses the geocoder resolves and no
    route between them, the directions service reports a failure and the
    request shows no message. *)
Lemma uniform_failure_refuted : ~ uniform_failure_claim.
Proof.
  intros Hclaim.
  assert (Hidle : idle downtown) by (split; [reflexivity | simpl; lia]).
  assert (Hrun : request_completes no_route_site downtown
                   (run no_route_site 4 (click no_route_site downtown)))
    by (split; [apply run_steps | reflexivity]).
  assert (Hfail : service_failure no_route_site downtown)
    by (right; right; unfold route_fails; simpl; discriminate).
  specialize (Hclaim no_route_site downtown _ Hidle Hfail Hrun).
  vm_compute in Hclaim. discriminate Hclaim.
Qed.

(** ** Dependence on the response and on earlier requests *)

(** C8: two OK responses with the same [routes[0].legs[0].distance.value]
    make the callback of the fare calculator do the same: same variables,
    same fare and distance shown.  No other leg, route or field is read. *)
Theorem fare_depends_on_first_leg_only
    (site : TaxiFareFinder) (response response' : DirectionsResult)
    (d : JS.number) :
  first_leg_distance response = Some d ->
  first_leg_distance response' = Some d ->
  (forall (fc : FareCalculator.vars) (o : OutputField.t),
      FareCalculator.route_callback (fare site) response
        DirectionsStatus_OK fc o
      = FareCalculator.route_callback (fare site) response'
          DirectionsStatus_OK fc o)
  /\ (forall p : page,
      fare_route_reply site response DirectionsStatus_OK p
      = fare_route_reply site response' DirectionsStatus_OK p)
  /\ fare_shows site response DirectionsStatus_OK
     = fare_shows site response' DirectionsStatus_OK.
Proof.
  intros Hd Hd'.
  assert (Hcb : forall fc o,
             FareCalculator.route_callback (fare site) response
               DirectionsStatus_OK fc o
             = FareCalculator.route_callback (fare site) response'
                 DirectionsStatus_OK fc o).
  { intros fc o. unfold FareCalculator.route_callback. now rewrite Hd, Hd'. }
  split; [exact Hcb|]. split.
  - intros p. unfold fare_route_reply. now rewrite Hcb.
  - unfold fare_shows. now rewrite Hcb.
Qed.

Lemma fare_depends_on_first_leg_only_witness :
  first_leg_distance (response_of 1300) = Some 1300
  /\ first_leg_distance detour_response = Some 1300
  /\ response_of 1300 <> detour_response
  /\ fare_shows route_site detour_response DirectionsStatus_OK
     = [OutputField.FareMessage "$7.75" "1.300 km"].
Proof.
  split; [reflexivity|]. split; [reflexivity|]. split; [discriminate|].
  rewrite <- (proj2 (proj2 (fare_depends_on_first_leg_only route_site
                             (response_of 1300) detour_response 1300
                             eq_refl eq_refl))).
  vm_compute. reflexivity.
Defined.

(** C10: the callback of the fare calculator, run again on the same
    response, leaves the same variables and shows the same fare and
    distance; on an OK response with a first leg they do not depend on
    the variables and the output field it started from.  Two requests in
    a row with the same texts and the same replies show the same. *)
Theorem fare_request_repeatable :
  (forall (f : Fare) (response : DirectionsResult) (status : DirectionsStatus)
          (fc : FareCalculator.vars) (o : OutputField.t),
      let first := FareCalculator.route_callback f response status fc o in
      let second :=
        FareCalculator.route_callback f response status (fst first) (snd first) in
      fst second = fst first
      /\ OutputField.totalFare (snd second) = OutputField.totalFare (snd first)
      /\ OutputField.totalDistance (snd second)
         = OutputField.totalDistance (snd first)
      /\ exists emitted : list OutputField.content,
           OutputField.shown (snd first) = (OutputField.shown o ++ emitted)%list
           /\ OutputField.shown (snd second)
              = (OutputField.shown (snd first) ++ emitted)%list)
  /\ (forall (f : Fare) (response : DirectionsResult) (d : JS.number)
             (fc fc' : FareCalculator.vars) (o o' : OutputField.t),
      first_leg_distance response = Some d ->
      let one := FareCalculator.route_callback f response
                   DirectionsStatus_OK fc o in
      let other := FareCalculator.route_callback f response
                     DirectionsStatus_OK fc' o' in
      fst one = fst other
      /\ OutputField.totalFare (snd one) = OutputField.totalFare (snd other)
      /\ OutputField.totalDistance (snd one)
         = OutputField.totalDistance (snd other))
  /\ (forall (site : TaxiFareFinder) (p q r : page),
      idle p -> request_completes site p q -> request_completes site q r ->
      exists first second : list OutputField.content,
        shown q = (shown p ++ first)%list
        /\ shown r = (shown q ++ second)%list
        /\ Permutation first second
        /\ fares first = fares second).
Proof.
  split; [|split].
  - intros f response status fc o. cbv zeta.
    unfold FareCalculator.route_callback.
    destruct status;
      try (cbn [fst snd]; do 3 (split; [reflexivity|]);
           exists []; now rewrite !app_nil_r).
    destruct (first_leg_distance response) as [d|].
    + cbn [fst snd OutputField.showFare OutputField.totalFare
             OutputField.totalDistance OutputField.shown].
      do 3 (split; [reflexivity|]).
      eexists. split; reflexivity.
    + cbn [fst snd]. do 3 (split; [reflexivity|]).
      exists []. now rewrite !app_nil_r.
  - intros f response d fc fc' o o' Hd. cbv zeta.
    unfold FareCalculator.route_callback. rewrite Hd.
    cbn [fst snd OutputField.showFare OutputField.totalFare
           OutputField.totalDistance].
    repeat split.
  - intros site p q r Hidle Hfirst Hsecond.
    destruct (request_effect site p q Hidle Hfirst)
      as (Hidle' & Ho & Hd & first & Hshown & Hperm).
    destruct (request_effect site q r Hidle' Hsecond)
      as (_ & _ & _ & second & Hshown' & Hperm').
    assert (Hsame : request_shows site q = request_shows site p)
      by (unfold request_shows; now rewrite Ho, Hd).
    rewrite Hsame in Hperm'.
    exists first, second.
    split; [exact Hshown|]. split; [exact Hshown'|]. split.
    + eapply perm_trans; [exact Hperm | now apply Permutation_sym].
    + rewrite (request_fares site p q first Hperm).
      now rewrite (request_fares site p r second Hperm').
Qed.

Lemma fare_request_repeatable_witness :
  idle downtown
  /\ request_completes route_site downtown
       (run route_site 4 (click route_site downtown))
  /\ request_completes route_site
       (run route_site 4 (click route_site downtown))
       (run route_site 4
          (click route_site (run route_site 4 (click route_site downtown))))
  /\ exists first second : list OutputField.content,
       shown (run route_site 4 (click route_site downtown))
       = (shown downtown ++ first)%list
       /\ fares first = fares second
       /\ fares first = [("$7.75", "1.300 km")].
Proof.
  assert (Hidle : idle downtown) by (split; [reflexivity | simpl; lia]).
  assert (Hfirst : request_completes route_site downtown
                     (run route_site 4 (click route_site downtown)))
    by (split; [apply run_steps | vm_compute; reflexivity]).
  assert (Hsecond : request_completes route_site
            (run route_site 4 (click route_site downtown))
            (run route_site 4
               (click route_site (run route_site 4 (click route_site downtown)))))
    by (split; [apply run_steps | vm_compute; reflexivity]).
  split; [exact Hidle|]. split; [exact Hfirst|]. split; [exact Hsecond|].
  destruct (proj2 (proj2 fare_request_repeatable) route_site downtown _ _
              Hidle Hfirst Hsecond)
    as (first & second & Hshown & _ & _ & Hfares).
  exists first, second. split; [exact Hshown|]. split; [exact Hfares|].
  assert (Hall : shown (run route_site 4 (click route_site downtown))
                 = [OutputField.FareMessage "$7.75" "1.300 km"])
    by (vm_compute; reflexivity).
  rewrite Hshown in Hall. simpl in Hall. now rewrite Hall.
Defined.


(** ** The two threads of a request *)

Lemma route_callback_vars_any_output (f : Fare) (response : DirectionsResult)
    (status : DirectionsStatus) (fc : FareCalculator.vars)
    (o o' : OutputField.t) :
  fst (FareCalculator.route_callback f response status fc o)
  = fst (FareCalculator.route_callback f response status fc o').
Proof.
  unfold FareCalculator.route_callback.
  destruct status; try reflexivity.
  now destruct (first_leg_distance response).
Qed.

Lemma showMap_thread (site : TaxiFareFinder) (markers : list LatLng) (p : page) :
  exists t : task,
    pending (showMap site markers p) = (pending p ++ [t])%list
    /\ map_task t = true
    /\ fareCalculator (showMap site markers p) = fareCalculator p
    /\ originInput (showMap site markers p) = originInput p
    /\ destinationInput (showMap site markers p) = destinationInput p
    /\ map_after_task site (originInput p) (destinationInput p) t
         (mapOutput (showMap site markers p))
       = map_after_route
           (fst (map_directionsService_route site
                   {| origin := originInput p; destination := destinationInput p |}))
           (snd (map_directionsService_route site
                   {| origin := originInput p; destination := destinationInput p |}))
           (MapDisplay.mk (MapDisplay.addresses (mapOutput p))
              (MapDisplay.codedAddresses (mapOutput p))
              (MapDisplay.maps (mapOutput p) ++ [markers])%list
              (MapDisplay.directions (mapOutput p))).
Proof.
  unfold showMap.
  destruct (map_directionsService_route site _) as [response status].
  exists (map_route_callback response status). simpl. repeat split.
Qed.

Lemma codeAddresses_thread (site : TaxiFareFinder) (index : nat) (p : page) :
  exists for_map : option task,
    pending (codeAddresses site index p) = (pending p ++ opt_list for_map)%list
    /\ (forall t : task, for_map = Some t -> map_task t = true)
    /\ fareCalculator (codeAddresses site index p) = fareCalculator p
    /\ originInput (codeAddresses site index p) = originInput p
    /\ destinationInput (codeAddresses site index p) = destinationInput p
    /\ map_outcome site (codeAddresses site index p) for_map
       = map_after_chain site (originInput p) (destinationInput p) index
           (skipn index (MapDisplay.addresses (mapOutput p))) (mapOutput p).
Proof.
  unfold codeAddresses.
  destruct (index <? List.length (MapDisplay.addresses (mapOutput p)))%nat eqn:Hlt.
  - apply Nat.ltb_lt in Hlt.
    destruct (nth_error (MapDisplay.addresses (mapOutput p)) index) as [a|] eqn:Hnth;
      [|apply nth_error_None in Hnth; lia].
    rewrite (array_get_nth_error _ _ _ Hnth), (skipn_nth_error _ _ _ Hnth).
    simpl map_after_chain.
    destruct (geocoder_geocode site a) as [results status].
    exists (Some (geocode_callback index results status)).
    simpl. repeat split. intros t [= <-]. reflexivity.
  - apply Nat.ltb_ge in Hlt.
    rewrite (skipn_all2 _ Hlt). simpl map_after_chain. unfold map_after_end.
    destruct (array_get _ 0) as [origin|];
      [destruct (array_get _ 1) as [destination|]|].
    + destruct (showMap_thread site [origin; destination] p)
        as (t & Hp & Ht & Hf & Ho & Hd & Hm).
      exists (Some t). simpl. rewrite Ho, Hd.
      repeat split; try assumption. intros t' [= <-]. exact Ht.
    + exists None. simpl. rewrite app_nil_r. repeat split. discriminate.
    + exists None. simpl. rewrite app_nil_r. repeat split. discriminate.
Qed.

(** A reply for [MapDisplay] leaves the fare calculator alone and leads
    to at most one further reply, for [MapDisplay] again. *)
Lemma deliver_map_thread (site : TaxiFareFinder) (t : task) (p : page) :
  map_task t = true ->
  exists for_map : option task,
    pending (deliver site t p) = (pending p ++ opt_list for_map)%list
    /\ (forall t' : task, for_map = Some t' -> map_task t' = true)
    /\ fareCalculator (deliver site t p) = fareCalculator p
    /\ originInput (deliver site t p) = originInput p
    /\ destinationInput (deliver site t p) = destinationInput p
    /\ map_outcome site (deliver site t p) for_map
       = map_after_task site (originInput p) (destinationInput p) t (mapOutput p).
Proof.
  intros Hmap.
  destruct t as [index results status | response status | response status];
    [| |discriminate Hmap].
  - assert (Hstop : forall q : page,
               pending q = pending p -> fareCalculator q = fareCalculator p ->
               originInput q = originInput p ->
               destinationInput q = destinationInput p ->
               mapOutput q = mapOutput p ->
               exists for_map : option task,
                 pending q = (pending p ++ opt_list for_map)%list
                 /\ (forall t' : task, for_map = Some t' -> map_task t' = true)
                 /\ fareCalculator q = fareCalculator p
                 /\ originInput q = originInput p
                 /\ destinationInput q = destinationInput p
                 /\ map_outcome site q for_map = mapOutput p).
    { intros q Hp Hf Ho Hd Hm. exists None. simpl. rewrite app_nil_r.
      repeat split; try assumption. discriminate. }
    simpl. unfold geocode_reply, map_after_geocode.
    destruct status; try (apply Hstop; reflexivity).
    destruct results as [|result0 rest]; [apply Hstop; reflexivity|].
    set (p1 := set_mapOutput _ p).
    destruct (codeAddresses_thread site (index + 1) p1)
      as (for_map & Hp & Ht & Hf & Ho & Hd & Hm).
    exists for_map. rewrite Nat.add_1_r in *.
    repeat split; assumption.
  - exists None. simpl. unfold map_route_reply, map_after_route.
    rewrite app_nil_r.
    destruct status; simpl; repeat split; discriminate.
Qed.

(** The reply for [FareCalculator] leaves [MapDisplay] alone and leads
    to no further reply. *)
Lemma deliver_fare_thread (site : TaxiFareFinder) (t : task) (p : page) :
  map_task t = false ->
  pending (deliver site t p) = pending p
  /\ mapOutput (deliver site t p) = mapOutput p
  /\ originInput (deliver site t p) = originInput p
  /\ destinationInput (deliver site t p) = destinationInput p
  /\ fareCalculator (deliver site t p) = fare_after_task site t (fareCalculator p).
Proof.
  intros Hfare.
  destruct t as [index results status | response status | response status];
    try discriminate Hfare.
  simpl. unfold fare_route_reply.
  rewrite (route_callback_vars_any_output _ _ _ _ OutputField.create (fareOutput p)).
  destruct (FareCalculator.route_callback _ _ _ _ _) as [fc o].
  repeat split.
Qed.

Lemma threads_step (site : TaxiFareFinder) (p q : page)
    (for_map for_fare : option task) :
  threads p for_map for_fare -> step site p q ->
  exists for_map' for_fare' : option task,
    threads q for_map' for_fare'
    /\ map_outcome site q for_map' = map_outcome site p for_map
    /\ fare_outcome site q for_fare' = fare_outcome site p for_fare.
Proof.
  intros (Hperm & Hmap & Hfare) Hstep.
  destruct Hstep as [p before t after Hpending].
  rewrite Hpending in Hperm.
  set (p' := set_pending (before ++ after)%list p).
  destruct (map_task t) eqn:Ht.
  - assert (Hin : In t (opt_list for_map ++ opt_list for_fare))
      by (apply (Permutation_in _ Hperm), in_elt).
    assert (Hfm : for_map = Some t).
    { apply in_app_or in Hin. destruct Hin as [Hin|Hin].
      - destruct for_map as [t0|]; simpl in Hin; [|contradiction].
        destruct Hin as [->|[]]. reflexivity.
      - destruct for_fare as [t0|]; simpl in Hin; [|contradiction].
        destruct Hin as [->|[]]. rewrite (Hfare t eq_refl) in Ht. discriminate. }
    subst for_map. simpl in Hperm.
    apply Permutation_sym, Permutation_cons_app_inv in Hperm.
    destruct (deliver_map_thread site t p' Ht)
      as (for_map' & Hp & Ht' & Hf & Ho & Hd & Hm).
    exists for_map', for_fare. split; [|split].
    + split; [|split; assumption].
      rewrite Hp. change (pending p') with (before ++ after)%list.
      eapply perm_trans; [apply Permutation_app_comm|].
      apply Permutation_app_head. now apply Permutation_sym.
    + exact Hm.
    + unfold fare_outcome. now rewrite Hf.
  - assert (Hin : In t (opt_list for_map ++ opt_list for_fare))
      by (apply (Permutation_in _ Hperm), in_elt).
    assert (Hff : for_fare = Some t).
    { apply in_app_or in Hin. destruct Hin as [Hin|Hin].
      - destruct for_map as [t0|]; simpl in Hin; [|contradiction].
        destruct Hin as [->|[]]. rewrite (Hmap t eq_refl) in Ht. discriminate.
      - destruct for_fare as [t0|]; simpl in Hin; [|contradiction].
        destruct Hin as [->|[]]. reflexivity. }
    subst for_fare. simpl in Hperm.
    assert (Hrest : Permutation (opt_list for_map) (before ++ after)).
    { apply Permutation_cons_app_inv with (a := t).
      eapply perm_trans; [|apply Permutation_sym, Hperm].
      apply Permutation_cons_append. }
    destruct (deliver_fare_thread site t p' Ht) as (Hp & Hm & Ho & Hd & Hf).
    exists for_map, None. split; [|split].
    + split; [|split; [assumption | discriminate]].
      rewrite Hp. change (pending p') with (before ++ after)%list.
      simpl. rewrite app_nil_r. now apply Permutation_sym.
    + unfold map_outcome. now rewrite Hm, Ho, Hd.
    + exact Hf.
Qed.

Lemma threads_steps (site : TaxiFareFinder) (p r : page)
    (for_map for_fare : option task) :
  threads p for_map for_fare -> steps site p r -> pending r = [] ->
  mapOutput r = map_outcome site p for_map
  /\ fareCalculator r = fare_outcome site p for_fare.
Proof.
  intros Hthreads Hsteps. revert for_map for_fare Hthreads.
  induction Hsteps as [p | p q r Hstep _ IH]; intros for_map for_fare Hthreads Hdry.
  - destruct Hthreads as (Hperm & _ & _). rewrite Hdry in Hperm.
    apply Permutation_nil in Hperm.
    destruct for_map, for_fare; try discriminate Hperm. now split.
  - destruct (threads_step site p q for_map for_fare Hthreads Hstep)
      as (for_map' & for_fare' & Hthreads' & Hm & Hf).
    destruct (IH for_map' for_fare' Hthreads' Hdry) as [Hm' Hf'].
    split; congruence.
Qed.

(** What the click leaves in flight: the reply for the origin and the
    reply to the route request of the fare calculator. *)
Lemma click_pending (site : TaxiFareFinder) (p : page) :
  idle p ->
  click site p
  = mk_page (originInput p) (destinationInput p) (clicked_map p)
      (fareCalculator p) (fareOutput p)
      [geocode_callback 0
         (fst (geocoder_geocode site (Some (originInput p))))
         (snd (geocoder_geocode site (Some (originInput p))));
       fare_route_callback
         (fst (fare_directionsService_route site
                 {| origin := originInput p; destination := destinationInput p |}))
         (snd (fare_directionsService_route site
                 {| origin := originInput p; destination := destinationInput p |}))].
Proof.
  intros [Hpending Hlen].
  unfold click, MapDisplay_updateContent, codeAddresses.
  rewrite (clicked_addresses _ _ _ Hlen). unfold array_get. simpl.
  destruct (geocoder_geocode site (Some (originInput p))) as [results status].
  unfold FareCalculator_updateContent. simpl.
  destruct (fare_directionsService_route site _) as [response status'].
  unfold send, set_pending, clicked_map. simpl. now rewrite Hpending.
Qed.

(** Whatever the order of the replies, a request leaves [MapDisplay] as
    its chain of callbacks alone would, and [FareCalculator] as its one
    callback alone would. *)
Lemma request_outcome (site : TaxiFareFinder) (p r : page) :
  idle p -> request_completes site p r ->
  mapOutput r
  = map_after_chain site (originInput p) (destinationInput p) 0
      [Some (originInput p); Some (destinationInput p)] (clicked_map p)
  /\ fareCalculator r
     = fst (FareCalculator.route_callback (fare site)
              (fst (fare_directionsService_route site
                 {| origin := originInput p; destination := destinationInput p |}))
              (snd (fare_directionsService_route site
                 {| origin := originInput p; destination := destinationInput p |}))
              (fareCalculator p) OutputField.create).
Proof.
  intros Hidle [Hsteps Hdry].
  rewrite (click_pending site p Hidle) in Hsteps.
  match type of Hsteps with
  | steps _ (mk_page _ _ _ _ _ [?a; ?b]) _ =>
      apply (threads_steps site _ r (Some a) (Some b)) in Hsteps;
        [exact Hsteps | | exact Hdry]
  end.
  split; [apply Permutation_refl|].
  split; intros t [= <-]; reflexivity.
Qed.


Lemma array_get_set_same {A : Type} (a : list (option A)) (i : nat) (v : A) :
  array_get (array_set a i v) i = Some v.
Proof.
  unfold array_get. revert a.
  induction i as [|i IH]; intros [|x a]; simpl; try reflexivity; apply IH.
Qed.

Lemma array_get_set_other {A : Type} (a : list (option A)) (i j : nat) (v : A) :
  i <> j -> array_get (array_set a i v) j = array_get a j.
Proof.
  unfold array_get. revert a j.
  induction i as [|i IH]; intros [|x a] [|j] Hne; simpl;
    try reflexivity; try contradiction.
  - now destruct j.
  - rewrite IH by congruence. now destruct j.
  - apply IH. congruence.
Qed.

Lemma chain_shows_short (site : TaxiFareFinder)
    (addresses : list (option string)) :
  (List.length (chain_shows site addresses) <= 1)%nat.
Proof.
  induction addresses as [|a rest IH]; simpl; [lia|].
  unfold geocode_shows.
  destruct (snd (geocoder_geocode site a)); simpl; try lia.
  destruct (fst (geocoder_geocode site a)); simpl; lia.
Qed.

Lemma fares_length (l : list OutputField.content) :
  (List.length (fares l) <= List.length l)%nat.
Proof.
  induction l as [|[tf td|m c] l IH]; simpl; lia.
Qed.

(** X1: a click shows at most one error message and at most one fare,
    whatever the replies and their order: two addresses that cannot be
    resolved give one message, not two. *)
Theorem request_shows_at_most_one_of_each
    (site : TaxiFareFinder) (p r : page) :
  idle p -> request_completes site p r ->
  exists emitted : list OutputField.content,
    shown r = (shown p ++ emitted)%list
    /\ (List.length (fares emitted) <= 1)%nat
    /\ (List.length emitted - List.length (fares emitted) <= 1)%nat
    /\ (geocoding_fails site (originInput p) ->
        geocoding_fails site (destinationInput p) ->
        (List.length emitted - List.length (fares emitted) = 1)%nat).
Proof.
  intros Hidle Hrun.
  destruct (request_effect site p r Hidle Hrun)
    as (_ & _ & _ & emitted & Hshown & Hperm).
  exists emitted. split; [exact Hshown|].
  assert (Hfares : fares emitted
                   = fares (fare_shows site
                      (fst (fare_directionsService_route site
                         {| origin := originInput p;
                            destination := destinationInput p |}))
                      (snd (fare_directionsService_route site
                         {| origin := originInput p;
                            destination := destinationInput p |}))))
    by exact (request_fares site p r emitted Hperm).
  assert (Hlen := Permutation_length Hperm).
  unfold request_shows in Hlen. rewrite length_app in Hlen.
  pose proof (chain_shows_short site
                [Some (originInput p); Some (destinationInput p)]) as Hchain.
  pose proof (fare_shows_short site
                (fst (fare_directionsService_route site
                   {| origin := originInput p;
                      destination := destinationInput p |}))
                (snd (fare_directionsService_route site
                   {| origin := originInput p;
                      destination := destinationInput p |}))) as Hfare.
  assert (Hall : List.length (fares (fare_shows site
                      (fst (fare_directionsService_route site
                         {| origin := originInput p;
                            destination := destinationInput p |}))
                      (snd (fare_directionsService_route site
                         {| origin := originInput p;
                            destination := destinationInput p |}))))
                 = List.length (fare_shows site
                      (fst (fare_directionsService_route site
                         {| origin := originInput p;
                            destination := destinationInput p |}))
                      (snd (fare_directionsService_route site
                         {| origin := originInput p;
                            destination := destinationInput p |})))).
  { unfold fare_shows, FareCalculator.route_callback.
    destruct (snd (fare_directionsService_route site _)); try reflexivity.
    now destruct (first_leg_distance _). }
  rewrite Hfares. split; [exact Hfare|]. split; [lia|].
  intros Ho _.
  assert (Hone : List.length
                   (chain_shows site
                      [Some (originInput p); Some (destinationInput p)]) = 1%nat)
    by (simpl; now rewrite (geocode_shows_failed _ _ _ _ Ho)).
  lia.
Qed.

Lemma request_shows_at_most_one_of_each_witness :
  idle downtown
  /\ request_completes no_address_site downtown
       (run no_address_site 4 (click no_address_site downtown))
  /\ exists emitted : list OutputField.content,
       shown (run no_address_site 4 (click no_address_site downtown))
       = (shown downtown ++ emitted)%list
       /\ (List.length emitted - List.length (fares emitted) <= 1)%nat.
Proof.
  assert (Hidle : idle downtown) by (split; [reflexivity | simpl; lia]).
  assert (Hrun : request_completes no_address_site downtown
                   (run no_address_site 4 (click no_address_site downtown)))
    by (split; [apply run_steps | reflexivity]).
  split; [exact Hidle|]. split; [exact Hrun|].
  destruct (request_shows_at_most_one_of_each no_address_site downtown _
              Hidle Hrun) as (emitted & Hshown & _ & Hone & _).
  exists emitted. split; assumption.
Defined.

(** X2: when the geocoder resolves both addresses, the request adds
    exactly one map, with two markers at the first result for the origin
    and the first result for the destination, in that order; the route
    line is set exactly when the route request of the map succeeds.  This
    holds whatever the order of the replies. *)
Theorem map_shows_both_markers
    (site : TaxiFareFinder) (p r : page)
    (result_o result_d : GeocoderResult) (more_o more_d : list GeocoderResult) :
  idle p -> request_completes site p r ->
  geocoder_geocode site (Some (originInput p))
  = (result_o :: more_o, GeocoderStatus_OK) ->
  geocoder_geocode site (Some (destinationInput p))
  = (result_d :: more_d, GeocoderStatus_OK) ->
  let reply := map_directionsService_route site
                 {| origin := originInput p; destination := destinationInput p |} in
  MapDisplay.maps (mapOutput r)
  = (MapDisplay.maps (mapOutput p)
     ++ [[geometry_location result_o; geometry_location result_d]])%list
  /\ MapDisplay.directions (mapOutput r)
     = (MapDisplay.directions (mapOutput p)
        ++ match snd reply with
           | DirectionsStatus_OK => [fst reply]
           | _ => []
           end)%list
  /\ array_get (MapDisplay.codedAddresses (mapOutput r)) 0
     = Some (geometry_location result_o)
  /\ array_get (MapDisplay.codedAddresses (mapOutput r)) 1
     = Some (geometry_location result_d).
Proof.
  intros Hidle Hrun Ho Hd reply.
  destruct (request_outcome site p r Hidle Hrun) as [Hmap _].
  rewrite Hmap. simpl map_after_chain. rewrite Ho, Hd.
  cbn [fst snd map_after_geocode]. unfold map_after_end.
  cbn [MapDisplay.codedAddresses MapDisplay.addresses MapDisplay.maps
       MapDisplay.directions clicked_map].
  rewrite array_get_set_same.
  rewrite array_get_set_other by discriminate.
  rewrite array_get_set_same.
  fold reply. unfold map_after_route.
  destruct (snd reply); cbn [MapDisplay.maps MapDisplay.directions
                               MapDisplay.codedAddresses];
    rewrite ?app_nil_r, array_get_set_same,
      (array_get_set_other _ 1 0) by discriminate;
    rewrite array_get_set_same; repeat split.
Qed.

Lemma map_shows_both_markers_witness :
  idle downtown
  /\ request_completes route_site downtown
       (run route_site 4 (click route_site downtown))
  /\ MapDisplay.maps
       (mapOutput (run route_site 4 (click route_site downtown)))
     = [[ {| lat := 43.65; lng := -79.38 |};
          {| lat := 43.65; lng := -79.38 |} ]]
  /\ MapDisplay.directions
       (mapOutput (run route_site 4 (click route_site downtown)))
     = [response_of 1300].
Proof.
  assert (Hidle : idle downtown) by (split; [reflexivity | simpl; lia]).
  assert (Hrun : request_completes route_site downtown
                   (run route_site 4 (click route_site downtown)))
    by (split; [apply run_steps | reflexivity]).
  split; [exact Hidle|]. split; [exact Hrun|].
  destruct (map_shows_both_markers route_site downtown _ _ _ _ _
              Hidle Hrun eq_refl eq_refl) as (Hmaps & Hdir & _).
  split; [exact Hmaps | exact Hdir].
Defined.

(** X3: when the geocoder cannot resolve the origin, or resolves it and
    cannot resolve the destination, the request adds no map and no route
    line; a destination is only stored once the origin was resolved. *)
Theorem no_map_without_both_addresses
    (site : TaxiFareFinder) (p r : page) :
  idle p -> request_completes site p r ->
  (geocoding_fails site (originInput p) ->
   MapDisplay.maps (mapOutput r) = MapDisplay.maps (mapOutput p)
   /\ MapDisplay.directions (mapOutput r) = MapDisplay.directions (mapOutput p)
   /\ MapDisplay.codedAddresses (mapOutput r)
      = MapDisplay.codedAddresses (mapOutput p))
  /\ (geocoding_resolves site (originInput p) ->
      geocoding_fails site (destinationInput p) ->
      MapDisplay.maps (mapOutput r) = MapDisplay.maps (mapOutput p)
      /\ MapDisplay.directions (mapOutput r)
         = MapDisplay.directions (mapOutput p)
      /\ array_get (MapDisplay.codedAddresses (mapOutput r)) 1
         = array_get (MapDisplay.codedAddresses (mapOutput p)) 1).
Proof.
  intros Hidle Hrun.
  destruct (request_outcome site p r Hidle Hrun) as [Hmap _].
  rewrite Hmap. simpl map_after_chain. unfold map_after_geocode.
  split.
  - intros Ho. unfold geocoding_fails in Ho.
    destruct (snd (geocoder_geocode site (Some (originInput p))));
      try contradiction; repeat split.
  - intros [Ho Hres] Hd. unfold geocoding_fails in Hd. rewrite Ho.
    destruct (fst (geocoder_geocode site (Some (originInput p))));
      [contradiction|].
    destruct (snd (geocoder_geocode site (Some (destinationInput p))));
      try contradiction;
      cbn [MapDisplay.maps MapDisplay.directions MapDisplay.codedAddresses
           clicked_map];
      (split; [reflexivity|]; split; [reflexivity|];
       apply array_get_set_other; discriminate).
Qed.

Lemma no_map_without_both_addresses_witness :
  idle downtown
  /\ request_completes no_address_site downtown
       (run no_address_site 4 (click no_address_site downtown))
  /\ geocoding_fails no_address_site (originInput downtown)
  /\ MapDisplay.maps
       (mapOutput (run no_address_site 4 (click no_address_site downtown)))
     = MapDisplay.maps (mapOutput downtown).
Proof.
  assert (Hidle : idle downtown) by (split; [reflexivity | simpl; lia]).
  assert (Hrun : request_completes no_address_site downtown
                   (run no_address_site 4 (click no_address_site downtown)))
    by (split; [apply run_steps | reflexivity]).
  assert (Hfail : geocoding_fails no_address_site (originInput downtown))
    by (unfold geocoding_fails; simpl; discriminate).
  split; [exact Hidle|]. split; [exact Hrun|]. split; [exact Hfail|].
  exact (proj1 (proj1 (no_map_without_both_addresses no_address_site downtown _
                         Hidle Hrun) Hfail)).
Defined.

(** X4: after a request the variables of the fare calculator are those
    computed from the distance of the reply when the route request
    succeeded, and those of the request before when it failed: a failed
    request keeps the previous totals. *)
Theorem fare_variables_after_request
    (site : TaxiFareFinder) (p r : page) :
  idle p -> request_completes site p r ->
  let reply := fare_directionsService_route site
                 {| origin := originInput p; destination := destinationInput p |} in
  (forall dist : JS.number,
      snd reply = DirectionsStatus_OK ->
      first_leg_distance (fst reply) = Some dist ->
      fareCalculator r = computed (fare site) dist)
  /\ (route_fails site p -> fareCalculator r = fareCalculator p).
Proof.
  intros Hidle Hrun reply.
  destruct (request_outcome site p r Hidle Hrun) as [_ Hfare].
  fold reply in Hfare. rewrite Hfare. split.
  - intros dist Hok Hdist. rewrite Hok.
    unfold computed, FareCalculator.route_callback.
    now rewrite Hdist.
  - intros Hfail. unfold route_fails in Hfail. fold reply in Hfail.
    destruct (snd reply); try reflexivity. contradiction.
Qed.

Lemma fare_variables_after_request_witness :
  idle downtown
  /\ request_completes route_site downtown
       (run route_site 4 (click route_site downtown))
  /\ fareCalculator (run route_site 4 (click route_site downtown))
     = computed toronto 1300.
Proof.
  assert (Hidle : idle downtown) by (split; [reflexivity | simpl; lia]).
  assert (Hrun : request_completes route_site downtown
                   (run route_site 4 (click route_site downtown)))
    by (split; [apply run_steps | reflexivity]).
  split; [exact Hidle|]. split; [exact Hrun|].
  exact (proj1 (fare_variables_after_request route_site downtown _ Hidle Hrun)
           1300 eq_refl eq_refl).
Defined.


(** ** Races between replies *)

Lemma geocode_reply_failed (site : TaxiFareFinder) (index : nat)
    (results : list GeocoderResult) (status : GeocoderStatus) (p : page) :
  status <> GeocoderStatus_OK ->
  geocode_reply site index results status p
  = set_fareOutput
      (OutputField.showMessage (errorMessage site) (errorClass site)
         (fareOutput p)) p.
Proof.
  intros Hne. destruct status; try reflexivity. contradiction.
Qed.

Lemma fare_route_reply_shown (site : TaxiFareFinder)
    (response : DirectionsResult) (status : DirectionsStatus) (p : page) :
  shown (fare_route_reply site response status p)
  = (shown p ++ fare_shows site response status)%list
  /\ pending (fare_route_reply site response status p) = pending p.
Proof.
  unfold fare_route_reply, shown, fare_shows.
  rewrite <- (route_callback_shown (fare site) response status
                (fareCalculator p) (fareOutput p)).
  now destruct (FareCalculator.route_callback _ _ _ _ _).
Qed.

(** X5: when the geocoder cannot resolve the origin and the route
    request of the fare calculator succeeds all the same, the request
    shows both the error message and a fare, and which of the two is
    shown last depends on which reply arrives last: both orders are
    possible. *)
Theorem message_and_fare_race (site : TaxiFareFinder) (p : page)
    (dist : JS.number) :
  idle p ->
  geocoding_fails site (originInput p) ->
  let reply := fare_directionsService_route site
                 {| origin := originInput p; destination := destinationInput p |} in
  snd reply = DirectionsStatus_OK ->
  first_leg_distance (fst reply) = Some dist ->
  let message := OutputField.Message (errorMessage site) (errorClass site) in
  let bill :=
    OutputField.FareMessage
      (toCurrency (new_Decimal (valueOf (baseRate (fare site))
         + valueOf (new_Decimal (valueOf (ratePerDistanceUnit (fare site))
             * FareCalculator.tierCount (fare site)
                 (new_Decimal (valueOf (new_Decimal (dist / 1000) 3)
                               - valueOf (distanceUnit (fare site))) 3)) 2)) 2)
         "$")
      (toDistance (new_Decimal (dist / 1000) 3) " km") in
  exists r1 r2 : page,
    request_completes site p r1 /\ request_completes site p r2
    /\ shown r1 = (shown p ++ [message; bill])%list
    /\ shown r2 = (shown p ++ [bill; message])%list.
Proof.
  intros Hidle Hfail reply Hok Hdist message bill.
  assert (Hbill : fare_shows site (fst reply) (snd reply) = [bill]).
  { unfold fare_shows, FareCalculator.route_callback.
    rewrite Hok, Hdist. reflexivity. }
  unfold request_completes. rewrite (click_pending site p Hidle).
  fold reply.
  set (g := geocode_callback 0
              (fst (geocoder_geocode site (Some (originInput p))))
              (snd (geocoder_geocode site (Some (originInput p))))).
  set (f := fare_route_callback (fst reply) (snd reply)).
  set (p0 := mk_page _ _ _ _ _ [g; f]).
  set (q1 := deliver site g (set_pending ([] ++ [f])%list p0)).
  set (r1 := deliver site f (set_pending ([] ++ [])%list q1)).
  set (q2 := deliver site f (set_pending ([g] ++ [])%list p0)).
  set (r2 := deliver site g (set_pending ([] ++ [])%list q2)).
  assert (Hq1 : q1 = set_fareOutput
                       (OutputField.showMessage (errorMessage site)
                          (errorClass site) (fareOutput p))
                       (set_pending [f] p0))
    by (unfold q1, g; cbn [deliver]; now rewrite geocode_reply_failed).
  assert (Hq2 : shown q2 = (shown p ++ [bill])%list /\ pending q2 = [g]).
  { unfold q2, f. cbn [deliver].
    destruct (fare_route_reply_shown site (fst reply) (snd reply)
                (set_pending ([g] ++ [])%list p0)) as [Hs Hp].
    rewrite Hs, Hp, Hbill. now split. }
  destruct Hq2 as [Hq2s Hq2p].
  exists r1, r2. repeat split.
  - eapply steps_next; [apply (step_deliver site p0 [] g [f]); reflexivity|].
    fold q1.
    eapply steps_next;
      [apply (step_deliver site q1 [] f []); now rewrite Hq1|].
    fold r1. apply steps_done.
  - unfold r1, f. cbn [deliver].
    now rewrite (proj2 (fare_route_reply_shown site _ _ _)).
  - eapply steps_next; [apply (step_deliver site p0 [g] f []); reflexivity|].
    fold q2.
    eapply steps_next; [apply (step_deliver site q2 [] g []); exact Hq2p|].
    fold r2. apply steps_done.
  - unfold r2, g. cbn [deliver]. now rewrite geocode_reply_failed.
  - unfold r1, f. cbn [deliver].
    rewrite (proj1 (fare_route_reply_shown site _ _ _)), Hbill, Hq1.
    unfold shown. simpl. now rewrite <- app_assoc.
  - unfold r2, g. cbn [deliver]. rewrite geocode_reply_failed by exact Hfail.
    unfold shown in *. simpl. rewrite Hq2s. now rewrite <- app_assoc.
Qed.

Lemma message_and_fare_race_witness :
  idle downtown
  /\ geocoding_fails quota_site (originInput downtown)
  /\ exists r1 r2 : page,
       request_completes quota_site downtown r1
       /\ request_completes quota_site downtown r2
       /\ shown r1
          = [OutputField.Message "Please enter a valid origin and destination."
               "error";
             OutputField.FareMessage "$7.75" "1.300 km"]
       /\ shown r2
          = [OutputField.FareMessage "$7.75" "1.300 km";
             OutputField.Message "Please enter a valid origin and destination."
               "error"].
Proof.
  assert (Hidle : idle downtown) by (split; [reflexivity | simpl; lia]).
  assert (Hfail : geocoding_fails quota_site (originInput downtown))
    by (unfold geocoding_fails; simpl; discriminate).
  split; [exact Hidle|]. split; [exact Hfail|].
  destruct (message_and_fare_race quota_site downtown 1300 Hidle Hfail
              eq_refl eq_refl) as (r1 & r2 & H1 & H2 & Hs1 & Hs2).
  exists r1, r2. split; [exact H1|]. split; [exact H2|].
  split; [rewrite Hs1 | rewrite Hs2]; vm_compute; reflexivity.
Defined.


(** A click adds its two requests to those still in flight. *)
Lemma click_sends (site : TaxiFareFinder) (p : page) :
  (List.length (MapDisplay.addresses (mapOutput p)) <= 2)%nat ->
  click site p
  = mk_page (originInput p) (destinationInput p) (clicked_map p)
      (fareCalculator p) (fareOutput p)
      (pending p
       ++ [geocode_callback 0
             (fst (geocoder_geocode site (Some (originInput p))))
             (snd (geocoder_geocode site (Some (originInput p))));
           fare_route_callback
             (fst (fare_directionsService_route site
                {| origin := originInput p; destination := destinationInput p |}))
             (snd (fare_directionsService_route site
                {| origin := originInput p; destination := destinationInput p |}))])%list.
Proof.
  intros Hlen.
  unfold click, MapDisplay_updateContent, codeAddresses.
  rewrite (clicked_addresses _ _ _ Hlen). unfold array_get. simpl.
  destruct (geocoder_geocode site (Some (originInput p))) as [results status].
  unfold FareCalculator_updateContent. simpl.
  destruct (fare_directionsService_route site _) as [response status'].
  unfold send, set_pending, clicked_map. simpl. now rewrite <- app_assoc.
Qed.

Lemma fares_task_shows_map (site : TaxiFareFinder)
    (addresses : list (option string)) (t : task) :
  map_task t = true -> fares (task_shows site addresses t) = [].
Proof.
  destruct t as [index results status | response status | response status];
    simpl; try reflexivity; try discriminate.
  intros _. unfold geocode_shows.
  destruct status; try reflexivity.
  destruct results; [reflexivity | apply fares_chain_shows].
Qed.

(** While only replies for [MapDisplay] are in flight, the fare
    calculator and the fares shown stay as they are. *)
Lemma map_steps_keep_fare (site : TaxiFareFinder) (p r : page) :
  (forall t : task, In t (pending p) -> map_task t = true) ->
  steps site p r ->
  fareCalculator r = fareCalculator p
  /\ fares (shown r) = fares (shown p)
  /\ originInput r = originInput p
  /\ destinationInput r = destinationInput p.
Proof.
  intros Hall Hsteps.
  induction Hsteps as [p | p q r Hstep _ IH]; [repeat split|].
  destruct (step_effect site p q Hstep) as (Ho & Hd & _ & _ & _).
  destruct Hstep as [p before t after Hpending].
  assert (Ht : map_task t = true)
    by (apply Hall; rewrite Hpending; apply in_elt).
  set (p' := set_pending (before ++ after)%list p) in *.
  destruct (deliver_map_thread site t p' Ht)
    as (for_map & Hp & Hmap & Hf & _ & _ & _).
  destruct (deliver_effect site t p')
    as (emitted & new & (_ & _ & _ & _ & Hs) & Hshows & _).
  assert (Hnone : fares emitted = []).
  { pose proof (fares_task_shows_map site
                  (MapDisplay.addresses (mapOutput p')) t Ht) as Hnil.
    rewrite <- Hshows, fares_app in Hnil.
    now apply app_eq_nil in Hnil. }
  destruct IH as (Hf' & Hs' & Ho' & Hd').
  - intros t' Hin. rewrite Hp in Hin.
    change (pending p') with (before ++ after)%list in Hin.
    apply in_app_or in Hin. destruct Hin as [Hin|Hin].
    + apply Hall. rewrite Hpending.
      apply in_app_or in Hin. apply in_or_app.
      destruct Hin; [now left | right; now right].
    + destruct for_map as [t0|]; simpl in Hin; [|contradiction].
      destruct Hin as [<-|[]]. now apply Hmap.
  - split; [now rewrite Hf', Hf|].
    split; [|split; [now rewrite Ho' | now rewrite Hd']].
    rewrite Hs', Hs, fares_app, Hnone. now rewrite app_nil_r.
Qed.

(** X6: a reply that arrives late overwrites a newer one.  After a click
    for one pair of addresses and, before its replies are in, a click for
    another pair, the replies can arrive so that the fare of the first
    pair is computed and shown last, while the input fields hold the
    second pair. *)
Theorem stale_reply_wins (site : TaxiFareFinder) (p : page)
    (a1 a2 b1 b2 : string) (dist : JS.number) :
  idle p ->
  let first := fare_directionsService_route site
                 {| origin := a1; destination := a2 |} in
  let second := fare_directionsService_route site
                  {| origin := b1; destination := b2 |} in
  snd first = DirectionsStatus_OK ->
  first_leg_distance (fst first) = Some dist ->
  exists r : page,
    steps site (click site (enter b1 b2 (click site (enter a1 a2 p)))) r
    /\ pending r = []
    /\ originInput r = b1 /\ destinationInput r = b2
    /\ fareCalculator r = computed (fare site) dist
    /\ fares (shown r)
       = (fares (shown p)
          ++ fares (fare_shows site (fst second) (snd second))
          ++ fares (fare_shows site (fst first) (snd first)))%list.
Proof.
  intros Hidle first second Hok Hdist.
  assert (Hidle' : idle (enter a1 a2 p)) by exact Hidle.
  rewrite (click_pending site _ Hidle').
  cbn [enter originInput destinationInput mapOutput fareCalculator
       fareOutput pending].
  fold first.
  rewrite click_sends by (simpl; lia).
  unfold enter.
  cbn [originInput destinationInput mapOutput fareCalculator fareOutput
       pending app].
  fold second.
  set (gA := geocode_callback 0 (fst (geocoder_geocode site (Some a1)))
               (snd (geocoder_geocode site (Some a1)))).
  set (gB := geocode_callback 0 (fst (geocoder_geocode site (Some b1)))
               (snd (geocoder_geocode site (Some b1)))).
  set (fA := fare_route_callback (fst first) (snd first)).
  set (fB := fare_route_callback (fst second) (snd second)).
  set (p0 := mk_page b1 b2 _ _ _ [gA; fA; gB; fB]).
  set (q1 := deliver site fB (set_pending ([gA; fA; gB] ++ [])%list p0)).
  set (q2 := deliver site fA (set_pending ([gA] ++ [gB])%list q1)).
  assert (Hs1 : shown q1
                = (shown p ++ fare_shows site (fst second) (snd second))%list)
    by exact (proj1 (fare_route_reply_shown site (fst second) (snd second)
                       (set_pending ([gA; fA; gB] ++ [])%list p0))).
  assert (Hp1 : pending q1 = [gA; fA; gB])
    by exact (proj2 (fare_route_reply_shown site (fst second) (snd second)
                       (set_pending ([gA; fA; gB] ++ [])%list p0))).
  destruct (deliver_fare_thread site fB
              (set_pending ([gA; fA; gB] ++ [])%list p0) eq_refl)
    as (_ & _ & Ho1 & Hd1 & _).
  fold q1 in Ho1, Hd1.
  assert (Hs2 : shown q2
                = (shown q1 ++ fare_shows site (fst first) (snd first))%list)
    by exact (proj1 (fare_route_reply_shown site (fst first) (snd first)
                       (set_pending ([gA] ++ [gB])%list q1))).
  assert (Hp2 : pending q2 = [gA; gB])
    by exact (proj2 (fare_route_reply_shown site (fst first) (snd first)
                       (set_pending ([gA] ++ [gB])%list q1))).
  destruct (deliver_fare_thread site fA
              (set_pending ([gA] ++ [gB])%list q1) eq_refl)
    as (_ & _ & Ho2 & Hd2 & Hf2).
  fold q2 in Ho2, Hd2, Hf2.
  destruct (event_loop_runs_dry site q2) as (r & Hsteps & Hdry).
  destruct (map_steps_keep_fare site q2 r) as (Hf & Hs & Ho & Hd).
  { rewrite Hp2. intros t [<-|[<-|[]]]; reflexivity. }
  { exact Hsteps. }
  exists r. split; [|split; [exact Hdry|]].
  - eapply steps_next;
      [apply (step_deliver site p0 [gA; fA; gB] fB []); reflexivity|].
    fold q1.
    eapply steps_next;
      [apply (step_deliver site q1 [gA] fA [gB]); exact Hp1|].
    exact Hsteps.
  - split; [rewrite Ho, Ho2; exact Ho1|].
    split; [rewrite Hd, Hd2; exact Hd1|].
    split.
    + rewrite Hf, Hf2. unfold fA, fare_after_task, computed,
        FareCalculator.route_callback. now rewrite Hok, Hdist.
    + rewrite Hs, Hs2, Hs1.
      now rewrite !fares_app, <- app_assoc.
Qed.

Lemma stale_reply_wins_witness :
  idle downtown
  /\ snd (fare_directionsService_route quota_site
            {| origin := "CN Tower"; destination := "Casa Loma" |})
     = DirectionsStatus_OK
  /\ first_leg_distance
       (fst (fare_directionsService_route quota_site
               {| origin := "CN Tower"; destination := "Casa Loma" |}))
     = Some 1300
  /\ exists r : page,
       steps quota_site
         (click quota_site
            (enter "Union Station" "High Park"
               (click quota_site (enter "CN Tower" "Casa Loma" downtown)))) r
       /\ pending r = []
       /\ originInput r = "Union Station"
       /\ fareCalculator r = computed toronto 1300.
Proof.
  assert (Hidle : idle downtown) by (split; [reflexivity | simpl; lia]).
  split; [exact Hidle|]. split; [reflexivity|]. split; [reflexivity|].
  destruct (stale_reply_wins quota_site downtown "CN Tower" "Casa Loma"
              "Union Station" "High Park" 1300 Hidle eq_refl eq_refl)
    as (r & Hsteps & Hdry & Ho & _ & Hf & _).
  exists r. repeat split; assumption.
Defined.


(** ** Counting replies *)

Lemma codeAddresses_cost (site : TaxiFareFinder) (index : nat) (p : page) :
  exists new : list task,
    pending (codeAddresses site index p) = (pending p ++ new)%list
    /\ MapDisplay.addresses (mapOutput (codeAddresses site index p))
       = MapDisplay.addresses (mapOutput p)
    /\ (list_sum (map (task_cost (MapDisplay.addresses (mapOutput p))) new)
        <= 1 + (List.length (MapDisplay.addresses (mapOutput p)) - index))%nat.
Proof.
  unfold codeAddresses.
  destruct (index <? List.length (MapDisplay.addresses (mapOutput p)))%nat eqn:Hlt.
  - apply Nat.ltb_lt in Hlt.
    destruct (geocoder_geocode site _) as [results status].
    exists [geocode_callback index results status].
    simpl. repeat split. lia.
  - destruct (array_get _ 0) as [origin|];
      [destruct (array_get _ 1) as [destination|]|].
    + unfold showMap.
      destruct (map_directionsService_route site _) as [response status].
      exists [map_route_callback response status]. simpl. repeat split. lia.
    + exists []. simpl. rewrite app_nil_r. repeat split. lia.
    + exists []. simpl. rewrite app_nil_r. repeat split. lia.
Qed.

Lemma deliver_cost (site : TaxiFareFinder) (t : task) (p : page) :
  exists new : list task,
    pending (deliver site t p) = (pending p ++ new)%list
    /\ MapDisplay.addresses (mapOutput (deliver site t p))
       = MapDisplay.addresses (mapOutput p)
    /\ (list_sum (map (task_cost (MapDisplay.addresses (mapOutput p))) new)
        < task_cost (MapDisplay.addresses (mapOutput p)) t)%nat.
Proof.
  destruct t as [index results status | response status | response status].
  - assert (Hstop : forall q : page,
               pending q = pending p ->
               MapDisplay.addresses (mapOutput q)
               = MapDisplay.addresses (mapOutput p) ->
               exists new : list task,
                 pending q = (pending p ++ new)%list
                 /\ MapDisplay.addresses (mapOutput q)
                    = MapDisplay.addresses (mapOutput p)
                 /\ (list_sum
                       (map (task_cost (MapDisplay.addresses (mapOutput p))) new)
                     < task_cost (MapDisplay.addresses (mapOutput p))
                         (geocode_callback index results status))%nat).
    { intros q Hp Ha. exists []. rewrite app_nil_r. simpl.
      repeat split; try assumption. lia. }
    simpl deliver. unfold geocode_reply.
    destruct status; try (apply Hstop; reflexivity).
    destruct results as [|result0 rest]; [apply Hstop; reflexivity|].
    set (p1 := set_mapOutput _ p).
    destruct (codeAddresses_cost site (index + 1) p1) as (new & Hp & Ha & Hc).
    exists new. change (MapDisplay.addresses (mapOutput p1))
      with (MapDisplay.addresses (mapOutput p)) in *.
    change (pending p1) with (pending p) in Hp.
    split; [exact Hp|]. split; [exact Ha|].
    rewrite Nat.add_1_r in Hc. simpl. lia.
  - exists []. simpl. unfold map_route_reply. rewrite app_nil_r.
    destruct status; simpl; repeat split; lia.
  - exists []. simpl. unfold fare_route_reply. rewrite app_nil_r.
    destruct (FareCalculator.route_callback _ _ _ _ _) as [fc o].
    simpl. repeat split. lia.
Qed.

Lemma step_cost (site : TaxiFareFinder) (p q : page) :
  step site p q -> (cost q < cost p)%nat.
Proof.
  intros Hstep.
  destruct Hstep as [p before t after Hpending].
  destruct (deliver_cost site t (set_pending (before ++ after)%list p))
    as (new & Hp & Ha & Hc).
  unfold cost. rewrite Ha, Hp. simpl in *. rewrite Hpending.
  rewrite !map_app, !list_sum_app. simpl. lia.
Qed.

Lemma steps_in_cost (site : TaxiFareFinder) (n : nat) (p r : page) :
  steps_in site n p r -> (n + cost r <= cost p)%nat.
Proof.
  induction 1 as [p | n p q r Hstep _ IH]; [lia|].
  apply step_cost in Hstep. lia.
Qed.

Lemma run_steps_in (site : TaxiFareFinder) (fuel : nat) (p : page) :
  steps_in site (turns site fuel p) p (run site fuel p).
Proof.
  revert p. induction fuel as [|fuel IH]; intros p; simpl.
  - apply steps_in_done.
  - destruct (pending p) as [|t rest] eqn:Hpending.
    + apply steps_in_done.
    + eapply steps_in_next; [|apply IH].
      apply (step_deliver site p [] t rest Hpending).
Qed.

(** X15: a click is answered after at most four replies (two of the
    geocoder, one for the route line of the map, one for the fare),
    whatever the replies are and in whatever order they arrive; the
    callbacks never ask again after a failure. *)
Theorem request_takes_at_most_four_replies
    (site : TaxiFareFinder) (p r : page) (n : nat) :
  idle p -> steps_in site n (click site p) r -> (n <= 4)%nat.
Proof.
  intros Hidle Hsteps.
  apply steps_in_cost in Hsteps.
  rewrite (click_pending site p Hidle) in Hsteps.
  unfold cost at 2 in Hsteps. simpl in Hsteps. lia.
Qed.

Lemma request_takes_at_most_four_replies_witness :
  idle downtown
  /\ steps_in route_site 4 (click route_site downtown)
       (run route_site 4 (click route_site downtown))
  /\ (4 <= 4)%nat.
Proof.
  assert (Hidle : idle downtown) by (split; [reflexivity | simpl; lia]).
  assert (Hsteps : steps_in route_site 4 (click route_site downtown)
                     (run route_site 4 (click route_site downtown))).
  { pose proof (run_steps_in route_site 4 (click route_site downtown)) as H.
    assert (Hturns : turns route_site 4 (click route_site downtown) = 4%nat)
      by (vm_compute; reflexivity).
    rewrite Hturns in H. exact H. }
  split; [exact Hidle|]. split; [exact Hsteps|].
  exact (request_takes_at_most_four_replies route_site downtown _ 4
           Hidle Hsteps).
Defined.


(** ** NaN, zero and Infinity in the fare formula *)

Lemma nan_mul_l (y : JS.number) : nan * y = nan.
Proof.
  apply Prim2SF_inj. rewrite mul_spec. reflexivity.
Qed.

Lemma nan_mul_r (x : JS.number) : x * nan = nan.
Proof.
  apply Prim2SF_inj. rewrite mul_spec.
  change (Prim2SF nan) with S754_nan. unfold SF64mul, SFmul.
  destruct (Prim2SF x); reflexivity.
Qed.

Lemma nan_add_l (y : JS.number) : nan + y = nan.
Proof.
  apply Prim2SF_inj. rewrite add_spec. reflexivity.
Qed.

Lemma nan_add_r (x : JS.number) : x + nan = nan.
Proof.
  apply Prim2SF_inj. rewrite add_spec.
  change (Prim2SF nan) with S754_nan. unfold SF64add, SFadd.
  destruct (Prim2SF x); reflexivity.
Qed.

Lemma nan_sub_r (x : JS.number) : x - nan = nan.
Proof.
  apply Prim2SF_inj. rewrite sub_spec.
  change (Prim2SF nan) with S754_nan. unfold SF64sub, SFsub.
  destruct (Prim2SF x); reflexivity.
Qed.

Lemma nan_div_l (y : JS.number) : nan / y = nan.
Proof.
  apply Prim2SF_inj. rewrite div_spec. reflexivity.
Qed.

Lemma valueOf_nan (n : nat) : valueOf (new_Decimal nan n) = nan.
Proof.
  unfold valueOf. cbn [amount decimalPlaces].
  rewrite nan_mul_l.
  change (JS.Math_floor nan) with nan.
  apply nan_div_l.
Qed.

Lemma valueOf_of_nan (x : JS.number) (n : nat) :
  x = nan -> valueOf (new_Decimal x n) = nan.
Proof.
  intros ->. apply valueOf_nan.
Qed.

(** X7: the three configured numbers are not checked.  If one of them is
    NaN (what [parseFloat] gives for a missing or malformed entry), every
    successful request shows the total ['$NaN']. *)
Theorem NaN_rate_shows_NaN
    (b u r : JS.number) (response : DirectionsResult) (d : JS.number)
    (fc : FareCalculator.vars) (o : OutputField.t) :
  first_leg_distance response = Some d ->
  b = nan \/ u = nan \/ r = nan ->
  OutputField.totalFare
    (snd (FareCalculator.route_callback (initialize_fare b u r) response
            DirectionsStatus_OK fc o))
  = Some "$NaN".
Proof.
  intros Hd Hnan.
  destruct (route_callback_OK (initialize_fare b u r) response d fc o Hd)
    as (tD & oB & dF & tF & Hrun & HtD & HoB & HdF & HtF).
  rewrite Hrun. cbn [snd OutputField.showFare OutputField.totalFare].
  f_equal.
  assert (Htotal : valueOf tF = nan).
  { rewrite HtF. apply valueOf_of_nan.
    cbn [initialize_fare baseRate distanceUnit ratePerDistanceUnit] in *.
    destruct Hnan as [-> | [-> | ->]].
    - rewrite valueOf_nan. apply nan_add_l.
    - assert (Hover : valueOf oB = nan)
        by (rewrite HoB; apply valueOf_of_nan; rewrite valueOf_nan;
            apply nan_sub_r).
      assert (Htier : FareCalculator.tierCount
                        (initialize_fare b nan r) oB = nan).
      { unfold FareCalculator.tierCount. rewrite Hover, nan_div_l.
        reflexivity. }
      assert (Hfare : valueOf dF = nan)
        by (rewrite HdF; apply valueOf_of_nan;
            cbn [initialize_fare ratePerDistanceUnit];
            rewrite Htier; apply nan_mul_r).
      rewrite Hfare. apply nan_add_r.
    - assert (Hfare : valueOf dF = nan)
        by (rewrite HdF; apply valueOf_of_nan;
            cbn [initialize_fare ratePerDistanceUnit];
            rewrite valueOf_nan; apply nan_mul_l).
      rewrite Hfare. apply nan_add_r. }
  unfold toCurrency. rewrite Htotal. reflexivity.
Qed.

Lemma NaN_rate_shows_NaN_witness :
  first_leg_distance (response_of 1300) = Some 1300
  /\ (4.25 = nan \/ nan = nan \/ 1.75 = nan)
  /\ OutputField.totalFare
       (snd (FareCalculator.route_callback (initialize_fare 4.25 nan 1.75)
               (response_of 1300) DirectionsStatus_OK FareCalculator.create
               OutputField.create))
     = Some "$NaN".
Proof.
  split; [reflexivity|]. split; [right; left; reflexivity|].
  exact (NaN_rate_shows_NaN 4.25 nan 1.75 (response_of 1300) 1300
           FareCalculator.create OutputField.create eq_refl
           (or_intror (or_introl eq_refl))).
Defined.

Lemma positive_div_zero (x : JS.number) :
  is_positive_finite x = true -> x / 0 = infinity.
Proof.
  unfold is_positive_finite. intros Hx.
  apply Prim2SF_inj. rewrite div_spec.
  change (Prim2SF 0) with (S754_zero false).
  destruct (Prim2SF x) as [| | |[|] m e]; try discriminate Hx. reflexivity.
Qed.

Lemma positive_mul_infinity (x : JS.number) :
  is_positive_finite x = true -> x * infinity = infinity.
Proof.
  unfold is_positive_finite. intros Hx.
  apply Prim2SF_inj. rewrite mul_spec.
  change (Prim2SF infinity) with (S754_infinity false).
  destruct (Prim2SF x) as [| | |[|] m e]; try discriminate Hx. reflexivity.
Qed.

Lemma finite_add_infinity (x : JS.number) :
  is_finite_number x = true -> x + infinity = infinity.
Proof.
  unfold is_finite_number. intros Hx.
  apply Prim2SF_inj. rewrite add_spec.
  change (Prim2SF infinity) with (S754_infinity false).
  destruct (Prim2SF x); try discriminate Hx; reflexivity.
Qed.

(** The distance over a base of 0, at a whole number of metres. *)
Lemma over_zero_base_positive (metres : nat) :
  (1 <= metres < 5000)%nat ->
  is_positive_finite
    (Spec.distanceOverBase 0 (JS.number_of_Z (Z.of_nat metres))) = true.
Proof.
  intros Hrange.
  assert (Hall : forallb
            (fun k => is_positive_finite
                        (Spec.distanceOverBase 0 (JS.number_of_Z (Z.of_nat k))))
            (seq 1 4999) = true) by (vm_compute; reflexivity).
  rewrite forallb_forall in Hall. apply Hall, in_seq. lia.
Qed.

(** X8: a distance unit of 0 is not rejected.  With it, a positive rate
    and a finite base rate, a trip of 1 to 4999 whole metres is charged
    ['$Infinity'], and a trip of 0 metres ['$NaN'], whatever the rates. *)
Theorem zero_distance_unit_charges_Infinity
    (fare : Fare) (fc : FareCalculator.vars) (o : OutputField.t) :
  valueOf (distanceUnit fare) = 0 ->
  (forall metres : nat,
      (1 <= metres < 5000)%nat ->
      is_positive_finite (valueOf (ratePerDistanceUnit fare)) = true ->
      is_finite_number (valueOf (baseRate fare)) = true ->
      OutputField.totalFare
        (snd (FareCalculator.route_callback fare
                (response_of (JS.number_of_Z (Z.of_nat metres)))
                DirectionsStatus_OK fc o))
      = Some "$Infinity")
  /\ OutputField.totalFare
       (snd (FareCalculator.route_callback fare (response_of 0)
               DirectionsStatus_OK fc o))
     = Some "$NaN".
Proof.
  intros Hunit.
  assert (Hover : forall d tD oB,
             tD = new_Decimal (d / 1000) 3 ->
             oB = new_Decimal (valueOf tD - valueOf (distanceUnit fare)) 3 ->
             valueOf oB = Spec.distanceOverBase 0 d).
  { intros d tD oB -> ->. rewrite Hunit.
    unfold Spec.distanceOverBase, Spec.totalDistanceKm.
    now rewrite !valueOf_truncate. }
  split.
  - intros metres Hrange Hrate Hbase.
    destruct (route_callback_OK fare
                (response_of (JS.number_of_Z (Z.of_nat metres)))
                (JS.number_of_Z (Z.of_nat metres)) fc o eq_refl)
      as (tD & oB & dF & tF & Hrun & HtD & HoB & HdF & HtF).
    rewrite Hrun. cbn [snd OutputField.showFare OutputField.totalFare].
    f_equal.
    assert (Htier : FareCalculator.tierCount fare oB = infinity).
    { unfold FareCalculator.tierCount.
      rewrite Hunit, positive_div_zero; [reflexivity|].
      rewrite (Hover _ _ _ HtD HoB). now apply over_zero_base_positive. }
    assert (Hfare : valueOf dF = infinity).
    { rewrite HdF, Htier, positive_mul_infinity by exact Hrate. reflexivity. }
    assert (Htotal : valueOf tF = infinity).
    { rewrite HtF, Hfare, finite_add_infinity by exact Hbase. reflexivity. }
    unfold toCurrency. rewrite Htotal. reflexivity.
  - destruct (route_callback_OK fare (response_of 0) 0 fc o eq_refl)
      as (tD & oB & dF & tF & Hrun & HtD & HoB & HdF & HtF).
    rewrite Hrun. cbn [snd OutputField.showFare OutputField.totalFare].
    f_equal.
    assert (Htier : FareCalculator.tierCount fare oB = nan).
    { unfold FareCalculator.tierCount.
      rewrite Hunit, (Hover 0 _ _ HtD HoB). reflexivity. }
    assert (Hfare : valueOf dF = nan)
      by (rewrite HdF, Htier, nan_mul_r; reflexivity).
    assert (Htotal : valueOf tF = nan)
      by (rewrite HtF, Hfare, nan_add_r; reflexivity).
    unfold toCurrency. rewrite Htotal. reflexivity.
Qed.

Lemma zero_distance_unit_charges_Infinity_witness :
  valueOf (distanceUnit (initialize_fare 4.25 0 1.75)) = 0
  /\ (1 <= 1300 < 5000)%nat
  /\ is_positive_finite
       (valueOf (ratePerDistanceUnit (initialize_fare 4.25 0 1.75))) = true
  /\ is_finite_number (valueOf (baseRate (initialize_fare 4.25 0 1.75))) = true
  /\ OutputField.totalFare
       (snd (FareCalculator.route_callback (initialize_fare 4.25 0 1.75)
               (response_of (JS.number_of_Z (Z.of_nat 1300)))
               DirectionsStatus_OK FareCalculator.create OutputField.create))
     = Some "$Infinity".
Proof.
  split; [reflexivity|]. split; [lia|].
  split; [reflexivity|]. split; [reflexivity|].
  apply (proj1 (zero_distance_unit_charges_Infinity
                  (initialize_fare 4.25 0 1.75) FareCalculator.create
                  OutputField.create eq_refl) 1300%nat).
  - lia.
  - reflexivity.
  - reflexivity.
Defined.


(** ** Truncation of exact decimals *)

(** X9: the binary product is floored, not the decimal one, so an exact
    figure can lose its last digit.  A route of a whole number of metres
    below 5000 is shown as that many thousandths of a kilometre or one
    less, and 1001 m is shown as ['1.000 km']; a configured rate of a
    whole number of cents below 2000 is read as that many cents or one
    less, and 0.29 is read as ['$0.28']. *)
Theorem exact_decimals_may_lose_a_digit :
  (forall (fare : Fare) (metres : nat)
          (fc : FareCalculator.vars) (o : OutputField.t),
      (metres < 5000)%nat ->
      let text :=
        OutputField.totalDistance
          (snd (FareCalculator.route_callback fare
                  (response_of (JS.number_of_Z (Z.of_nat metres)))
                  DirectionsStatus_OK fc o)) in
      text = Some (JS.fixed_notation (Z.of_nat metres) 3 ++ " km")
      \/ text = Some (JS.fixed_notation (Z.of_nat metres - 1) 3 ++ " km"))
  /\ (forall (fare : Fare) (fc : FareCalculator.vars) (o : OutputField.t),
      OutputField.totalDistance
        (snd (FareCalculator.route_callback fare (response_of 1001)
                DirectionsStatus_OK fc o))
      = Some "1.000 km")
  /\ (forall (cents : nat) (u r : JS.number),
      (cents < 2000)%nat ->
      let text :=
        toCurrency
          (baseRate (initialize_fare (JS.number_of_Z (Z.of_nat cents) / 100) u r))
          "$" in
      text = "$" ++ JS.fixed_notation (Z.of_nat cents) 2
      \/ text = "$" ++ JS.fixed_notation (Z.of_nat cents - 1) 2)
  /\ (forall u r : JS.number,
      toCurrency (baseRate (initialize_fare 0.29 u r)) "$" = "$0.28").
Proof.
  split; [|split; [|split]].
  - intros fare metres fc o Hlt text.
    assert (Hall : forallb metres_check (seq 0 5000) = true)
      by (vm_compute; reflexivity).
    rewrite forallb_forall in Hall.
    assert (Hin : In metres (seq 0 5000)) by (apply in_seq; lia).
    specialize (Hall metres Hin). unfold metres_check in Hall.
    destruct (route_callback_OK fare
                (response_of (JS.number_of_Z (Z.of_nat metres)))
                (JS.number_of_Z (Z.of_nat metres)) fc o eq_refl)
      as (tD & oB & dF & tF & Hrun & HtD & _).
    subst text. rewrite Hrun, HtD.
    cbn [snd OutputField.showFare OutputField.totalDistance].
    apply orb_prop in Hall.
    destruct Hall as [Heq|Heq]; apply String.eqb_eq in Heq;
      [left | right]; now rewrite Heq.
  - intros fare fc o.
    destruct (route_callback_OK fare (response_of 1001) 1001 fc o eq_refl)
      as (tD & oB & dF & tF & Hrun & HtD & _).
    rewrite Hrun, HtD. reflexivity.
  - intros cents u r Hlt text.
    assert (Hall : forallb cents_check (seq 0 2000) = true)
      by (vm_compute; reflexivity).
    rewrite forallb_forall in Hall.
    assert (Hin : In cents (seq 0 2000)) by (apply in_seq; lia).
    specialize (Hall cents Hin). unfold cents_check in Hall.
    apply orb_prop in Hall.
    destruct Hall as [Heq|Heq]; apply String.eqb_eq in Heq;
      [left | right]; exact Heq.
  - intros u r. reflexivity.
Qed.

Lemma exact_decimals_may_lose_a_digit_witness :
  (1300 < 5000)%nat
  /\ (OutputField.totalDistance
        (snd (FareCalculator.route_callback toronto
                (response_of (JS.number_of_Z (Z.of_nat 1300)))
                DirectionsStatus_OK FareCalculator.create OutputField.create))
      = Some (JS.fixed_notation (Z.of_nat 1300) 3 ++ " km")
      \/ OutputField.totalDistance
           (snd (FareCalculator.route_callback toronto
                   (response_of (JS.number_of_Z (Z.of_nat 1300)))
                   DirectionsStatus_OK FareCalculator.create OutputField.create))
         = Some (JS.fixed_notation (Z.of_nat 1300 - 1) 3 ++ " km")).
Proof.
  split; [lia|].
  apply (proj1 exact_decimals_may_lose_a_digit toronto 1300%nat
           FareCalculator.create OutputField.create).
  lia.
Defined.


(** ** [InputField] *)

Lemma InputField_handle_consistent (f : InputField.t) (focused : bool)
    (e : InputField.event) :
  InputField.possible focused [e] = true ->
  InputField.consistent f focused ->
  InputField.placeholder (InputField.handle f e) = InputField.placeholder f
  /\ InputField.consistent (InputField.handle f e)
       (InputField.focused_after focused [e]).
Proof.
  intros Hok [Hclass Hfull].
  destruct e as [|text|]; simpl in Hok; rewrite andb_true_r in Hok;
    unfold InputField.consistent; simpl.
  - apply negb_true_iff in Hok. subst focused.
    unfold InputField.updateOnFocus.
    destruct (((InputField.val f =? InputField.placeholder f)%string
               && InputField.hasClass_placeholder f)%bool) eqn:Hshow; simpl.
    + split; [reflexivity|]. split; discriminate.
    + split; [reflexivity|]. split; [|discriminate].
      intros Hc. destruct (Hclass Hc) as [Hval _].
      rewrite Hc, Hval, String.eqb_refl in Hshow. discriminate.
  - subst focused. split; [reflexivity|]. split; [|discriminate].
    intros Hc. destruct (Hclass Hc) as [_ Hno]. discriminate.
  - subst focused. unfold InputField.updateOnBlur.
    destruct (InputField.val f =? "")%string eqn:Hempty; simpl.
    + split; [reflexivity|]. split; [now split | intros _ Hne; exact Hne].
    + split; [reflexivity|]. split.
      * intros Hc. destruct (Hclass Hc) as [_ Hno]. discriminate.
      * intros _ _. now apply String.eqb_neq.
Qed.

Lemma InputField_invariant (f : InputField.t) (focused : bool)
    (es : list InputField.event) :
  InputField.possible focused es = true ->
  InputField.consistent f focused ->
  InputField.placeholder (InputField.after es f) = InputField.placeholder f
  /\ InputField.consistent (InputField.after es f)
       (InputField.focused_after focused es).
Proof.
  revert f focused.
  induction es as [|e es IH]; intros f focused Hok Hf; [now split|].
  assert (Hone : InputField.possible focused [e] = true
                 /\ InputField.possible
                      (InputField.focused_after focused [e]) es = true).
  { destruct e; simpl in *; apply andb_prop in Hok; destruct Hok as [H1 H2];
      (split; [now rewrite H1 | exact H2]). }
  destruct Hone as [Hnow Hrest].
  destruct (InputField_handle_consistent f focused e Hnow Hf) as [Hp Hc].
  destruct (IH _ _ Hrest Hc) as [Hp' Hc'].
  split.
  - change (InputField.after (e :: es) f)
      with (InputField.after es (InputField.handle f e)). now rewrite Hp'.
  - change (InputField.after (e :: es) f)
      with (InputField.after es (InputField.handle f e)).
    replace (InputField.focused_after focused (e :: es))
      with (InputField.focused_after
              (InputField.focused_after focused [e]) es)
      by (now destruct e).
    exact Hc'.
Qed.

Lemma InputField_create_consistent
    (element_val : string) (element_hasClass : bool) (placeholder : string) :
  InputField.consistent
    (InputField.create element_val element_hasClass placeholder) false.
Proof.
  split; simpl; [now split | intros _ Hne; exact Hne].
Qed.

(** Whether or not the field has the focus to begin with, it is not
    left empty. *)
Lemma InputField_filled (f : InputField.t) (focused : bool)
    (es : list InputField.event) :
  InputField.possible focused es = true ->
  (focused = false -> InputField.placeholder f <> "" -> InputField.val f <> "") ->
  InputField.placeholder (InputField.after es f) = InputField.placeholder f
  /\ (InputField.focused_after focused es = false ->
      InputField.placeholder f <> "" ->
      InputField.val (InputField.after es f) <> "").
Proof.
  revert f focused.
  induction es as [|e es IH]; intros f focused Hok Hf; [now split|].
  change (InputField.after (e :: es) f)
    with (InputField.after es (InputField.handle f e)).
  destruct e as [|text|]; simpl in Hok; apply andb_prop in Hok;
    destruct Hok as [Hnow Hrest]; cbn [InputField.focused_after].
  - destruct (IH (InputField.handle f InputField.focus) true Hrest)
      as [Hp Hfilled]; [discriminate|].
    replace (InputField.placeholder (InputField.handle f InputField.focus))
      with (InputField.placeholder f) in *
      by (simpl; unfold InputField.updateOnFocus;
          now destruct ((_ =? _)%string && _)%bool).
    now split.
  - subst focused.
    destruct (IH (InputField.handle f (InputField.input text)) true Hrest)
      as [Hp Hfilled]; [discriminate|].
    now split.
  - destruct (IH (InputField.handle f InputField.blur) false Hrest)
      as [Hp Hfilled].
    + intros _. simpl. unfold InputField.updateOnBlur.
      destruct (InputField.val f =? "")%string eqn:Hempty; simpl.
      * now intros Hne.
      * intros _. now apply String.eqb_neq.
    + replace (InputField.placeholder (InputField.handle f InputField.blur))
        with (InputField.placeholder f) in *
        by (simpl; unfold InputField.updateOnBlur;
            now destruct (_ =? _)%string).
      now split.
Qed.

(** X10: over everything a user can do to a field (enter it, type while
    it has the focus, leave it), whether or not the field has the focus
    already when the [InputField] is built, a field that has no focus is
    never empty (unless the placeholder is): it holds the placeholder text
    instead.  If the field has no focus when it is built, the class
    ['placeholder'] is only on the element while it holds the placeholder
    text and has no focus.  If it is built while it has the focus, that
    fails: text typed before the field is left keeps the class. *)
Theorem InputField_shows_placeholder_when_empty
    (element_val : string) (element_hasClass : bool) (placeholder : string)
    (focused : bool) (es : list InputField.event) :
  InputField.possible focused es = true ->
  let f := InputField.after es
             (InputField.create element_val element_hasClass placeholder) in
  (InputField.focused_after focused es = false ->
   placeholder <> "" -> InputField.val f <> "")
  /\ (focused = false ->
      InputField.hasClass_placeholder f = true ->
      InputField.val f = placeholder
      /\ InputField.focused_after focused es = false)
  /\ (forall text : string,
      text <> "" ->
      let g := InputField.after [InputField.input text; InputField.blur]
                 (InputField.create element_val element_hasClass placeholder) in
      InputField.possible true [InputField.input text; InputField.blur] = true
      /\ InputField.hasClass_placeholder g = true
      /\ InputField.val g = text).
Proof.
  intros Hok f. split; [|split].
  - destruct (InputField_filled
                (InputField.create element_val element_hasClass placeholder)
                focused es Hok) as [_ Hfilled].
    + intros _ Hne. exact Hne.
    + exact Hfilled.
  - intros Hfocus. subst focused.
    destruct (InputField_invariant _ false es Hok
                (InputField_create_consistent element_val element_hasClass
                   placeholder)) as (Hp & Hclass & _).
    fold f in Hp, Hclass. simpl in Hp. now rewrite Hp in Hclass.
  - intros text Hne g. split; [reflexivity|].
    unfold g. simpl. unfold InputField.updateOnBlur. simpl.
    apply String.eqb_neq in Hne. rewrite Hne. now split.
Qed.

Lemma InputField_shows_placeholder_when_empty_witness :
  InputField.possible true
    [InputField.input "CN Tower"; InputField.input ""; InputField.blur] = true
  /\ InputField.val
       (InputField.after
          [InputField.input "CN Tower"; InputField.input ""; InputField.blur]
          (InputField.create "" false "Enter origin"))
     <> "".
Proof.
  split; [reflexivity|].
  apply (proj1 (InputField_shows_placeholder_when_empty "" false "Enter origin"
                  true
                  [InputField.input "CN Tower"; InputField.input "";
                   InputField.blur] eq_refl)).
  - reflexivity.
  - discriminate.
Defined.

(** X11: text the user typed into a field that had no focus when it was
    built is kept: once a non-empty text was typed, leaving the field and
    entering it again leave it in place, even when it is the placeholder
    text itself.  Text typed into a field that was built while it had the
    focus is kept when it differs from the placeholder text, and cleared
    on entering the field again when it is the placeholder text. *)
Theorem InputField_keeps_typed_text
    (element_val : string) (element_hasClass : bool) (placeholder : string)
    (text : string) :
  text <> "" ->
  (forall es : list InputField.event,
      InputField.possible false
        (es ++ [InputField.input text; InputField.blur; InputField.focus])
      = true ->
      let typed := InputField.after (es ++ [InputField.input text])
                     (InputField.create element_val element_hasClass
                        placeholder) in
      InputField.val typed = text
      /\ InputField.val (InputField.handle typed InputField.blur) = text
      /\ InputField.val
           (InputField.handle (InputField.handle typed InputField.blur)
              InputField.focus)
         = text)
  /\ (let typed := InputField.after [InputField.input text]
                     (InputField.create element_val element_hasClass
                        placeholder) in
      InputField.possible true
        [InputField.input text; InputField.blur; InputField.focus] = true
      /\ InputField.val (InputField.handle typed InputField.blur) = text
      /\ InputField.val
           (InputField.handle (InputField.handle typed InputField.blur)
              InputField.focus)
         = if (text =? placeholder)%string then "" else text).
Proof.
  intros Hne. split.
  - intros es Hok typed.
    assert (Hsplit : forall (l l' : list InputField.event) (b : bool),
               InputField.possible b (l ++ l') = true ->
               InputField.possible b l = true
               /\ InputField.possible (InputField.focused_after b l) l' = true).
    { induction l as [|e l IHl]; intros l' b H; simpl in *; [now split|].
      destruct e; apply andb_prop in H; destruct H as [H1 H2];
        destruct (IHl l' _ H2) as [H3 H4];
        (split; [now rewrite H3, H1 | exact H4]). }
    destruct (Hsplit _ _ _ Hok) as [Hes Hlast].
    simpl in Hlast. apply andb_prop in Hlast. destruct Hlast as [Hfocus _].
    destruct (InputField_invariant _ false es Hes
                (InputField_create_consistent element_val element_hasClass
                   placeholder)) as (_ & Hclass & _).
    set (g := InputField.after es
                (InputField.create element_val element_hasClass placeholder))
      in *.
    assert (Hno : InputField.hasClass_placeholder g = false).
    { destruct (InputField.hasClass_placeholder g); [|reflexivity].
      destruct (Hclass eq_refl) as [_ Hf]. rewrite Hf in Hfocus. discriminate. }
    assert (Htyped : typed
                     = InputField.mk (InputField.placeholder g) text false
                         (InputField.oldValue g)).
    { unfold typed, InputField.after. rewrite fold_left_app.
      fold (InputField.after es
              (InputField.create element_val element_hasClass placeholder)).
      fold g. simpl. now rewrite Hno. }
    rewrite Htyped. simpl. unfold InputField.updateOnBlur. simpl.
    apply String.eqb_neq in Hne. rewrite Hne.
    unfold InputField.updateOnFocus. simpl. rewrite andb_false_r.
    now repeat split.
  - intros typed. split; [reflexivity|].
    unfold typed. simpl. unfold InputField.updateOnBlur. simpl.
    apply String.eqb_neq in Hne. rewrite Hne.
    split; [reflexivity|].
    unfold InputField.updateOnFocus. simpl. rewrite andb_true_r.
    now destruct (text =? placeholder)%string.
Qed.

Lemma InputField_keeps_typed_text_witness :
  "Enter origin" <> ""
  /\ InputField.val
       (InputField.handle
          (InputField.handle
             (InputField.after ([InputField.focus]
                                ++ [InputField.input "Enter origin"])
                (InputField.create "" false "Enter origin"))
             InputField.blur)
          InputField.focus)
     = "Enter origin"
  /\ InputField.val
       (InputField.handle
          (InputField.handle
             (InputField.after [InputField.input "Enter origin"]
                (InputField.create "" false "Enter origin"))
             InputField.blur)
          InputField.focus)
     = "".
Proof.
  assert (Hne : "Enter origin" <> "") by discriminate.
  split; [exact Hne|]. split.
  - apply (proj1 (InputField_keeps_typed_text "" false "Enter origin"
                    "Enter origin" Hne) [InputField.focus] eq_refl).
  - apply (proj2 (InputField_keeps_typed_text "" false "Enter origin"
                    "Enter origin" Hne)).
Defined.

Lemma InputField_visit (element_val : string) (element_hasClass : bool)
    (placeholder : string) (n : nat) :
  InputField.after (InputField.visits n)
    (InputField.create element_val element_hasClass placeholder)
  = InputField.mk placeholder placeholder true "".
Proof.
  induction n as [|n IH]; [reflexivity|].
  unfold InputField.visits, InputField.after in *.
  rewrite <- Nat.add_1_r, repeat_app, concat_app, fold_left_app, IH.
  simpl. unfold InputField.updateOnFocus. simpl.
  rewrite String.eqb_refl. reflexivity.
Qed.

(** X12: entering and leaving a field without typing leaves it as it was
    built, holding its placeholder text, so a click then sends that text:
    the replies awaited are the geocoder's for the origin placeholder and
    the directions service's for the route between the two placeholders.
    The map built on load asks for the same route. *)
Theorem untouched_fields_send_placeholders
    (site : TaxiFareFinder) (p : page)
    (origin_placeholder destination_placeholder : string) (n n' : nat) :
  idle p ->
  let origin_field :=
    InputField.after (InputField.visits n)
      (InputField.create "" false origin_placeholder) in
  let destination_field :=
    InputField.after (InputField.visits n')
      (InputField.create "" false destination_placeholder) in
  let request := {| origin := origin_placeholder;
                    destination := destination_placeholder |} in
  pending (click site (read_fields origin_field destination_field p))
  = [geocode_callback 0
       (fst (geocoder_geocode site (Some origin_placeholder)))
       (snd (geocoder_geocode site (Some origin_placeholder)));
     fare_route_callback
       (fst (fare_directionsService_route site request))
       (snd (fare_directionsService_route site request))]
  /\ pending (initialize site (InputField.val origin_field)
                (InputField.val destination_field))
     = [map_route_callback
          (fst (map_directionsService_route site request))
          (snd (map_directionsService_route site request))].
Proof.
  intros Hidle origin_field destination_field request.
  unfold origin_field, destination_field. rewrite !InputField_visit.
  split.
  - rewrite click_pending by exact Hidle. reflexivity.
  - unfold initialize, showMap. cbn [InputField.val originInput destinationInput].
    fold request.
    now destruct (map_directionsService_route site request).
Qed.

Lemma untouched_fields_send_placeholders_witness :
  idle downtown
  /\ pending
       (click route_site
          (read_fields
             (InputField.after (InputField.visits 2)
                (InputField.create "" false "Enter origin"))
             (InputField.after (InputField.visits 0)
                (InputField.create "" false "Enter destination"))
             downtown))
     = [geocode_callback 0
          (fst (geocoder_geocode route_site (Some "Enter origin")))
          (snd (geocoder_geocode route_site (Some "Enter origin")));
        fare_route_callback
          (fst (fare_directionsService_route route_site
                  {| origin := "Enter origin";
                     destination := "Enter destination" |}))
          (snd (fare_directionsService_route route_site
                  {| origin := "Enter origin";
                     destination := "Enter destination" |}))].
Proof.
  assert (Hidle : idle downtown) by (split; [reflexivity | simpl; lia]).
  split; [exact Hidle|].
  exact (proj1 (untouched_fields_send_placeholders route_site downtown
                  "Enter origin" "Enter destination" 2 0 Hidle)).
Defined.


(** ** The element of [OutputField] *)

Lemma last_call_app (l : list OutputField.content) (c : OutputField.content) :
  OutputElement.last_call (l ++ [c]) = Some c.
Proof.
  induction l as [|x l IH]; simpl; [reflexivity | now rewrite IH].
Qed.

Lemma last_action_app (q : list OutputElement.effect) (a : OutputElement.action) :
  OutputElement.last_action
    (q ++ [OutputElement.fadeOut a; OutputElement.fadeIn]) = Some a.
Proof.
  induction q as [|[b|] q IH]; simpl; [reflexivity| |]; now rewrite IH.
Qed.

(** *** Class names *)

Lemma append_assoc (a b c : string) : (a ++ b) ++ c = a ++ b ++ c.
Proof. induction a as [|x a IH]; simpl; [reflexivity | now rewrite IH]. Qed.

Lemma append_empty (a : string) : a ++ "" = a.
Proof. induction a as [|x a IH]; simpl; [reflexivity | now rewrite IH]. Qed.

Lemma no_blank_append (a b : string) :
  OutputElement.no_blank (a ++ b)
  = OutputElement.no_blank a && OutputElement.no_blank b.
Proof.
  induction a as [|x a IH]; simpl; [reflexivity|].
  now rewrite IH, andb_assoc.
Qed.

Lemma class_names_from_names (s word : string) :
  OutputElement.no_blank word = true ->
  Forall (fun name => OutputElement.is_class_name name = true)
         (OutputElement.class_names_from word s).
Proof.
  revert word.
  induction s as [|c s IH]; intros word Hword; simpl.
  - destruct word as [|x word]; constructor; [|constructor].
    unfold OutputElement.is_class_name. now rewrite Hword.
  - destruct (OutputElement.is_blank c) eqn:Hc.
    + destruct word as [|x word]; [now apply IH|].
      constructor; [|now apply IH].
      unfold OutputElement.is_class_name. now rewrite Hword.
    + apply IH. rewrite no_blank_append, Hword. simpl. now rewrite Hc.
Qed.

Lemma class_names_names (value : string) :
  Forall (fun name => OutputElement.is_class_name name = true)
         (OutputElement.class_names value).
Proof. now apply class_names_from_names. Qed.

Lemma class_names_from_name (s word : string) :
  OutputElement.no_blank s = true -> word ++ s <> "" ->
  OutputElement.class_names_from word s = [word ++ s].
Proof.
  revert word.
  induction s as [|c s IH]; intros word Hs Hne; simpl.
  - rewrite append_empty in *. destruct word; [contradiction | reflexivity].
  - simpl in Hs. apply andb_prop in Hs. destruct Hs as [Hc Hs].
    apply negb_true_iff in Hc. rewrite Hc.
    rewrite IH; [|exact Hs|].
    + now rewrite append_assoc.
    + rewrite append_assoc. simpl. now destruct word.
Qed.

(** A class name is the one name in itself. *)
Lemma class_names_name (c : string) :
  OutputElement.is_class_name c = true -> OutputElement.class_names c = [c].
Proof.
  intros Hc. unfold OutputElement.is_class_name in Hc.
  apply andb_prop in Hc. destruct Hc as [Hne Hc].
  apply negb_true_iff, String.eqb_neq in Hne.
  now apply (class_names_from_name c "").
Qed.

Lemma blank_space (c : ascii) :
  OutputElement.is_blank c = false -> " "%char <> c.
Proof. intros Hc <-. discriminate Hc. Qed.

Lemma occurs_skip (pattern t s : string) :
  OutputElement.no_blank t = true ->
  OutputElement.occurs (String " " pattern) (t ++ s)
  = OutputElement.occurs (String " " pattern) s.
Proof.
  intros Ht.
  induction t as [|x t IH]; [reflexivity|].
  simpl in Ht. apply andb_prop in Ht. destruct Ht as [Hx Ht].
  apply negb_true_iff, blank_space in Hx.
  cbn [append OutputElement.occurs String.prefix].
  destruct (ascii_dec " " x) as [Heq|_]; [contradiction|].
  now apply IH.
Qed.

Lemma prefix_name (c t s : string) :
  OutputElement.no_blank c = true -> OutputElement.no_blank t = true ->
  String.prefix (c ++ " ") (t ++ String " " s) = (c =? t)%string.
Proof.
  revert t.
  induction c as [|x c IH]; intros t Hc Ht.
  - destruct t as [|y t]; cbn [append String.prefix String.eqb].
    + destruct (ascii_dec " " " ") as [_|Hne]; [now destruct s | contradiction].
    + simpl in Ht. apply andb_prop in Ht. destruct Ht as [Hy _].
      apply negb_true_iff, blank_space in Hy.
      now destruct (ascii_dec " " y).
  - simpl in Hc. apply andb_prop in Hc. destruct Hc as [Hx Hc].
    apply negb_true_iff, blank_space in Hx.
    destruct t as [|y t]; cbn [append String.prefix String.eqb].
    + destruct (ascii_dec x " ") as [Heq|_]; [|reflexivity].
      symmetry in Heq. contradiction.
    + simpl in Ht. apply andb_prop in Ht. destruct Ht as [_ Ht].
      destruct (ascii_dec x y) as [->|Hne].
      * rewrite Ascii.eqb_refl. now apply IH.
      * apply Ascii.eqb_neq in Hne. now rewrite Hne.
Qed.

Lemma occurs_nowhere (c : string) :
  OutputElement.is_class_name c = true ->
  OutputElement.occurs (" " ++ c ++ " ") " " = false.
Proof.
  intros Hc. unfold OutputElement.is_class_name in Hc.
  apply andb_prop in Hc. destruct Hc as [_ Hc].
  destruct c as [|x c]; cbn [append OutputElement.occurs String.prefix].
  - now destruct (ascii_dec " " " ").
  - now destruct (ascii_dec " " " ").
Qed.

Lemma occurs_in_names (c t : string) (l : list string) :
  OutputElement.is_class_name c = true ->
  Forall (fun name => OutputElement.is_class_name name = true) (t :: l) ->
  OutputElement.occurs (" " ++ c ++ " ")
    (" " ++ String.concat " " (t :: l) ++ " ")
  = existsb (String.eqb c) (t :: l).
Proof.
  intros Hc. pose proof Hc as Hname.
  unfold OutputElement.is_class_name in Hc.
  apply andb_prop in Hc. destruct Hc as [_ Hc].
  revert t.
  induction l as [|t' l IH]; intros t Hl;
    inversion Hl as [|? ? Ht Hl']; subst;
    unfold OutputElement.is_class_name in Ht;
    apply andb_prop in Ht; destruct Ht as [_ Ht].
  - cbn [String.concat existsb].
    change (" " ++ t ++ " ") with (String " " (t ++ String " " "")).
    change (" " ++ c ++ " ") with (String " " (c ++ " ")).
    cbn [OutputElement.occurs String.prefix].
    destruct (ascii_dec " " " ") as [_|Hne]; [|contradiction].
    rewrite prefix_name by assumption.
    rewrite occurs_skip by assumption.
    change (String " " (c ++ " ")) with (" " ++ c ++ " ").
    now rewrite occurs_nowhere.
  - change (String.concat " " (t :: t' :: l))
      with (t ++ " " ++ String.concat " " (t' :: l)).
    rewrite !append_assoc.
    change (" " ++ t ++ " " ++ String.concat " " (t' :: l) ++ " ")
      with (String " " (t ++ String " " (String.concat " " (t' :: l) ++ " "))).
    change (" " ++ c ++ " ") with (String " " (c ++ " ")).
    cbn [OutputElement.occurs String.prefix existsb].
    destruct (ascii_dec " " " ") as [_|Hne]; [|contradiction].
    rewrite prefix_name by assumption.
    rewrite occurs_skip by assumption.
    f_equal. now apply IH.
Qed.

(** For one class name and an element whose classes are class names, the
    test of [hasClass] is membership. *)
Lemma hasClass_name (c : string) (l : list string) :
  OutputElement.is_class_name c = true ->
  Forall (fun name => OutputElement.is_class_name name = true) l ->
  OutputElement.hasClass c l = existsb (String.eqb c) l.
Proof.
  intros Hc Hl. unfold OutputElement.hasClass, OutputElement.class_attribute.
  destruct l as [|t l]; [|now apply occurs_in_names].
  unfold OutputElement.is_class_name in Hc.
  apply andb_prop in Hc. destruct Hc as [Hne Hc].
  destruct c as [|x c]; [discriminate Hne|].
  simpl in Hc. apply andb_prop in Hc. destruct Hc as [Hx _].
  apply negb_true_iff, blank_space in Hx.
  cbn [String.concat append OutputElement.occurs String.prefix existsb].
  destruct (ascii_dec " " " ") as [_|Hne']; [|contradiction].
  destruct (ascii_dec x " ") as [Heq|_]; [symmetry in Heq; contradiction|].
  destruct (ascii_dec " " x) as [Heq|_]; [contradiction|].
  reflexivity.
Qed.

Lemma add_name_keeps (l : list string) (c name : string) :
  In name l -> In name (OutputElement.add_name l c).
Proof.
  intros H. unfold OutputElement.add_name.
  destruct (existsb (String.eqb c) l); [exact H|].
  apply in_or_app. now left.
Qed.

Lemma add_name_adds (l : list string) (c : string) :
  In c (OutputElement.add_name l c).
Proof.
  unfold OutputElement.add_name.
  destruct (existsb (String.eqb c) l) eqn:H.
  - apply existsb_exists in H. destruct H as (x & Hin & Heq).
    apply String.eqb_eq in Heq. now subst x.
  - apply in_or_app. right. now left.
Qed.

Lemma addClass_keeps (value : string) (l : list string) (name : string) :
  In name l -> In name (OutputElement.addClass value l).
Proof.
  unfold OutputElement.addClass.
  generalize (OutputElement.class_names value) as names. intros names.
  revert l. induction names as [|c names IH]; intros l H; simpl; [exact H|].
  apply IH. now apply add_name_keeps.
Qed.

Lemma addClass_adds (value : string) (l : list string) :
  Forall (fun name => In name (OutputElement.addClass value l))
         (OutputElement.class_names value).
Proof.
  unfold OutputElement.addClass.
  generalize (OutputElement.class_names value) as names. intros names.
  revert l. induction names as [|c names IH]; intros l; simpl;
    constructor.
  - assert (Hkeeps : forall (ns : list string) (l' : list string),
               In c l' -> In c (fold_left OutputElement.add_name ns l')).
    { induction ns as [|x ns IHns]; intros l' H; simpl; [exact H|].
      apply IHns. now apply add_name_keeps. }
    apply Hkeeps, add_name_adds.
  - apply IH.
Qed.

Lemma removeClass_removes (value : string) (l : list string) :
  Forall (fun name => ~ In name (OutputElement.removeClass value l))
         (OutputElement.class_names value).
Proof.
  apply Forall_forall. intros name Hname Hin.
  unfold OutputElement.removeClass in Hin.
  apply filter_In in Hin. destruct Hin as [_ Hkept].
  apply negb_true_iff in Hkept.
  assert (Hthere : existsb (String.eqb name) (OutputElement.class_names value)
                   = true).
  { apply existsb_exists. exists name. split; [exact Hname|].
    apply String.eqb_refl. }
  rewrite Hthere in Hkept. discriminate.
Qed.

Lemma removeClass_keeps (value : string) (l : list string) (name : string) :
  ~ In name (OutputElement.class_names value) ->
  In name l -> In name (OutputElement.removeClass value l).
Proof.
  intros Hother Hin. unfold OutputElement.removeClass.
  apply filter_In. split; [exact Hin|].
  apply negb_true_iff.
  destruct (existsb (String.eqb name) (OutputElement.class_names value))
    eqn:H; [|reflexivity].
  apply existsb_exists in H. destruct H as (x & Hx & Heq).
  apply String.eqb_eq in Heq. subst x. contradiction.
Qed.

(** The classes on the element are class names all along. *)
Lemma addClass_names (value : string) (l : list string) :
  Forall (fun name => OutputElement.is_class_name name = true) l ->
  Forall (fun name => OutputElement.is_class_name name = true)
         (OutputElement.addClass value l).
Proof.
  unfold OutputElement.addClass.
  pose proof (class_names_names value) as Hnames.
  revert l.
  induction Hnames as [|c names Hc _ IH]; intros l Hl; simpl; [exact Hl|].
  apply IH. unfold OutputElement.add_name.
  destruct (existsb (String.eqb c) l); [exact Hl|].
  apply Forall_app. split; [exact Hl | now constructor].
Qed.

Lemma removeClass_names (value : string) (l : list string) :
  Forall (fun name => OutputElement.is_class_name name = true) l ->
  Forall (fun name => OutputElement.is_class_name name = true)
         (OutputElement.removeClass value l).
Proof.
  intros Hl. apply Forall_forall. intros name Hin.
  unfold OutputElement.removeClass in Hin. apply filter_In in Hin.
  rewrite Forall_forall in Hl. now apply Hl.
Qed.

Lemma after_names (sc : OutputElement.stylingClasses)
    (evs : list OutputElement.event) (e : OutputElement.t) :
  Forall (fun name => OutputElement.is_class_name name = true)
         (OutputElement.classes e) ->
  Forall (fun name => OutputElement.is_class_name name = true)
         (OutputElement.classes (OutputElement.after sc evs e)).
Proof.
  revert e.
  induction evs as [|ev evs IH]; intros e He; [exact He|].
  apply IH.
  destruct ev as [f d|m cl|]; simpl; try exact He.
  unfold OutputElement.effect_ends.
  destruct (OutputElement.fx e) as [|[[|]|] rest]; simpl; try exact He.
  - destruct (OutputField.messageClass (OutputElement.closure e));
      [now apply addClass_names | exact He].
  - destruct (OutputField.totalFare (OutputElement.closure e)),
             (OutputField.totalDistance (OutputElement.closure e));
      simpl; try exact He.
    destruct (OutputElement.hasClass (OutputElement.error sc)
                (OutputElement.classes e)); [|exact He].
    now apply removeClass_names.
Qed.

Lemma settle_names (sc : OutputElement.stylingClasses) (e : OutputElement.t) :
  Forall (fun name => OutputElement.is_class_name name = true)
         (OutputElement.classes e) ->
  Forall (fun name => OutputElement.is_class_name name = true)
         (OutputElement.classes (OutputElement.settle sc e)).
Proof.
  intros He. unfold OutputElement.settle.
  induction (List.length (OutputElement.fx e)) as [|n IH]; [exact He|].
  cbn [Nat.iter].
  apply (after_names sc [OutputElement.animation_ends]). exact IH.
Qed.

Lemma create_names (sc : OutputElement.stylingClasses)
    (element_class : string) (element_content : OutputElement.html) :
  Forall (fun name => OutputElement.is_class_name name = true)
         (OutputElement.classes
            (OutputElement.create sc element_class element_content)).
Proof.
  apply removeClass_names, class_names_names.
Qed.

Lemma coherent_call (sc : OutputElement.stylingClasses)
    (element_content : OutputElement.html) (e : OutputElement.t)
    (ev : OutputElement.event) :
  ev <> OutputElement.animation_ends ->
  OutputElement.coherent sc element_content e ->
  OutputElement.coherent sc element_content (OutputElement.handle sc e ev).
Proof.
  intros Hcall _.
  destruct ev as [f d|m c|]; [| |contradiction];
    unfold OutputElement.coherent; simpl;
    rewrite last_call_app, last_action_app; simpl;
    (split; [now split|]); (split; [reflexivity|]);
    destruct (OutputElement.fx e) as [|x q]; simpl.
  - now exists [OutputElement.fadeOut OutputElement.makeFareMessage].
  - exists (x :: q ++ [OutputElement.fadeOut OutputElement.makeFareMessage])%list.
    simpl. now rewrite <- app_assoc.
  - now exists [OutputElement.fadeOut OutputElement.makeMessage].
  - exists (x :: q ++ [OutputElement.fadeOut OutputElement.makeMessage])%list.
    simpl. now rewrite <- app_assoc.
Qed.

Lemma run_displays (sc : OutputElement.stylingClasses)
    (c : OutputField.content) (e : OutputElement.t) :
  OutputElement.holds c (OutputElement.closure e) ->
  OutputElement.displays sc c
    (OutputElement.run sc (OutputElement.action_of c) e).
Proof.
  destruct c as [f d|m cl]; simpl; intros [H1 H2]; rewrite H1, H2; simpl.
  - split; [reflexivity|].
    destruct (OutputElement.hasClass (OutputElement.error sc)
                (OutputElement.classes e)) eqn:H;
      [right; apply removeClass_removes | left; exact H].
  - split; [reflexivity | apply addClass_adds].
Qed.

Lemma coherent_effect_ends (sc : OutputElement.stylingClasses)
    (element_content : OutputElement.html) (e : OutputElement.t) :
  OutputElement.coherent sc element_content e ->
  OutputElement.coherent sc element_content (OutputElement.effect_ends sc e).
Proof.
  unfold OutputElement.coherent, OutputElement.effect_ends.
  destruct (OutputElement.fx e) as [|[a|] rest] eqn:Hfx; [now rewrite Hfx| |].
  - assert (Hclosure : OutputElement.closure
               (OutputElement.run sc a
                  (OutputElement.mk (OutputElement.closure e)
                     (OutputElement.classes e) (OutputElement.content e)
                     false rest)) = OutputElement.closure e)
      by (destruct a; simpl; [reflexivity|];
          now destruct (OutputField.totalFare (OutputElement.closure e)),
                       (OutputField.totalDistance (OutputElement.closure e))).
    assert (Hrest : OutputElement.fx
               (OutputElement.run sc a
                  (OutputElement.mk (OutputElement.closure e)
                     (OutputElement.classes e) (OutputElement.content e)
                     false rest)) = rest)
      by (destruct a; simpl; [reflexivity|];
          now destruct (OutputField.totalFare (OutputElement.closure e)),
                       (OutputField.totalDistance (OutputElement.closure e))).
    rewrite Hclosure, Hrest.
    destruct (OutputElement.last_call _) as [c|]; [|intros [H _]; discriminate H].
    simpl. intros (Hholds & Hlast & q & Hq).
    split; [exact Hholds|].
    destruct q as [|x q]; [discriminate Hq|].
    injection Hq as _ Hq. subst rest.
    split.
    + destruct (OutputElement.last_action (q ++ [OutputElement.fadeIn]));
        [exact Hlast|].
      subst a. now apply run_displays.
    + destruct q; simpl; [now exists [] | now exists (e0 :: q)].
  - simpl. destruct (OutputElement.last_call _) as [c|];
      [|intros [H _]; discriminate H].
    intros (Hholds & Hlast & q & Hq).
    split; [exact Hholds|]. split.
    + destruct (OutputElement.last_action rest); [exact Hlast|].
      destruct c; exact Hlast.
    + destruct rest as [|x rest]; [reflexivity|].
      destruct q as [|y q]; [discriminate Hq|].
      injection Hq as _ Hq. now exists q.
Qed.

Lemma coherent_after (sc : OutputElement.stylingClasses)
    (element_content : OutputElement.html)
    (evs : list OutputElement.event) (e : OutputElement.t) :
  OutputElement.coherent sc element_content e ->
  OutputElement.coherent sc element_content (OutputElement.after sc evs e).
Proof.
  revert e.
  induction evs as [|ev evs IH]; intros e He; [exact He|].
  apply IH.
  destruct ev; [apply coherent_call; [discriminate | exact He]
               | apply coherent_call; [discriminate | exact He]
               | now apply coherent_effect_ends].
Qed.

Lemma effect_ends_shortens (sc : OutputElement.stylingClasses)
    (e : OutputElement.t) :
  List.length (OutputElement.fx (OutputElement.effect_ends sc e))
  = Nat.pred (List.length (OutputElement.fx e))
  /\ OutputElement.closure (OutputElement.effect_ends sc e)
     = OutputElement.closure e.
Proof.
  unfold OutputElement.effect_ends.
  destruct (OutputElement.fx e) as [|[a|] rest] eqn:Hfx;
    [now rewrite Hfx | | now split].
  destruct a; simpl; [now split|].
  now destruct (OutputField.totalFare (OutputElement.closure e)),
               (OutputField.totalDistance (OutputElement.closure e)).
Qed.

Lemma settle_settled (sc : OutputElement.stylingClasses)
    (element_content : OutputElement.html) (e : OutputElement.t) :
  OutputElement.coherent sc element_content e ->
  OutputElement.coherent sc element_content (OutputElement.settle sc e)
  /\ OutputElement.fx (OutputElement.settle sc e) = []
  /\ OutputElement.closure (OutputElement.settle sc e)
     = OutputElement.closure e.
Proof.
  unfold OutputElement.settle.
  remember (List.length (OutputElement.fx e)) as n eqn:Hn.
  revert e Hn.
  induction n as [|n IH]; intros e Hn He; simpl.
  - split; [exact He|]. split; [|reflexivity].
    now destruct (OutputElement.fx e).
  - assert (Hiter : forall (k : nat) (x : OutputElement.t),
               OutputElement.effect_ends sc (Nat.iter k (OutputElement.effect_ends sc) x)
               = Nat.iter k (OutputElement.effect_ends sc)
                   (OutputElement.effect_ends sc x)).
    { induction k as [|k IHk]; intros x; simpl; [reflexivity | now rewrite IHk]. }
    rewrite Hiter.
    destruct (effect_ends_shortens sc e) as [Hlen Hclosure].
    destruct (IH (OutputElement.effect_ends sc e)) as (H1 & H2 & H3).
    + rewrite Hlen, <- Hn. reflexivity.
    + now apply coherent_effect_ends.
    + split; [exact H1|]. split; [exact H2 | now rewrite H3].
Qed.

(** X13: whatever calls of [showFare] and [showMessage] were made and
    whenever the fades between them ended, once the last fade has ended
    the element is visible and shows what the last call asked for: the
    two paragraphs of the last fare on an element that fails the test for
    the error class or carries none of its names, or the last message on
    an element that carries every name of its class.  When
    [stylingClasses.error] is one class name, as ['error'] is, the
    element does not carry it after the last fare.  A function queued by
    an earlier call reads the variables when it runs, so it cannot bring
    older values back. *)
Theorem output_field_settles_on_last_call
    (sc : OutputElement.stylingClasses)
    (element_class : string) (element_content : OutputElement.html)
    (evs : list OutputElement.event) :
  let e := OutputElement.settle sc
             (OutputElement.after sc evs
                (OutputElement.create sc element_class element_content)) in
  OutputElement.fx e = []
  /\ match OutputElement.last_call
             (OutputField.shown (OutputElement.closure e)) with
     | None =>
         OutputElement.content e = element_content
         /\ OutputElement.visible e = false
     | Some c =>
         OutputElement.visible e = true /\ OutputElement.displays sc c e
     end
  /\ (OutputElement.is_class_name (OutputElement.error sc) = true ->
      forall newTotalFare newTotalDistance : string,
        OutputElement.last_call (OutputField.shown (OutputElement.closure e))
        = Some (OutputField.FareMessage newTotalFare newTotalDistance) ->
        ~ In (OutputElement.error sc) (OutputElement.classes e)).
Proof.
  intros e.
  assert (Hstart : OutputElement.coherent sc element_content
                     (OutputElement.create sc element_class element_content))
    by (unfold OutputElement.coherent; simpl; now repeat split).
  destruct (settle_settled sc element_content _
              (coherent_after sc element_content evs _ Hstart))
    as (Hcoherent & Hfx & _).
  fold e in Hcoherent, Hfx.
  assert (Hnames : Forall (fun name => OutputElement.is_class_name name = true)
                     (OutputElement.classes e))
    by (apply settle_names, after_names, create_names).
  split; [exact Hfx|].
  unfold OutputElement.coherent in Hcoherent. rewrite Hfx in Hcoherent.
  destruct (OutputElement.last_call _) as [c|].
  - destruct Hcoherent as (_ & Hshow & Hvisible).
    split; [now split|].
    intros Hname f d [= ->] Hin.
    destruct Hshow as [_ [Htest | Hnone]].
    + rewrite (hasClass_name _ _ Hname Hnames) in Htest.
      assert (Hthere : existsb (String.eqb (OutputElement.error sc))
                         (OutputElement.classes e) = true).
      { apply existsb_exists. exists (OutputElement.error sc).
        split; [exact Hin | apply String.eqb_refl]. }
      rewrite Hthere in Htest. discriminate Htest.
    + rewrite (class_names_name _ Hname) in Hnone.
      inversion Hnone as [|? ? Hout _]. contradiction.
  - destruct Hcoherent as (_ & Hcontent & Hvisible).
    split; [now split|]. intros _ f d H. discriminate H.
Qed.

Lemma output_field_settles_on_last_call_witness :
  OutputElement.is_class_name "error" = true
  /\ ~ In "error"
         (OutputElement.classes
            (OutputElement.settle
               {| OutputElement.hidden := "js-hidden";
                  OutputElement.error := "error";
                  OutputElement.totalFare := "total-fare" |}
               (OutputElement.after
                  {| OutputElement.hidden := "js-hidden";
                     OutputElement.error := "error";
                     OutputElement.totalFare := "total-fare" |}
                  [OutputElement.call_showMessage "No such address" "error";
                   OutputElement.animation_ends;
                   OutputElement.call_showFare "$7.75" "1.300 km"]
                  (OutputElement.create
                     {| OutputElement.hidden := "js-hidden";
                        OutputElement.error := "error";
                        OutputElement.totalFare := "total-fare" |}
                     "js-hidden" (OutputElement.markup ""))))).
Proof.
  split; [reflexivity|].
  apply (proj2 (proj2 (output_field_settles_on_last_call
                         {| OutputElement.hidden := "js-hidden";
                            OutputElement.error := "error";
                            OutputElement.totalFare := "total-fare" |}
                         "js-hidden" (OutputElement.markup "")
                         [OutputElement.call_showMessage "No such address"
                            "error";
                          OutputElement.animation_ends;
                          OutputElement.call_showFare "$7.75" "1.300 km"]))
           eq_refl "$7.75" "1.300 km" eq_refl).
Defined.

(** X14: the only class names the element ever loses after it was built
    are those in [stylingClasses.error], when a fare is displayed.  Any
    other name on the element, such as a name of a message class that is
    not in [stylingClasses.error], stays for good, also under the fares
    shown later: after a message of class ['error big'] and a fare, the
    element is left with the class ['big']. *)
Theorem only_the_error_class_is_removed
    (sc : OutputElement.stylingClasses) (name : string)
    (evs : list OutputElement.event) (e : OutputElement.t) :
  ~ In name (OutputElement.class_names (OutputElement.error sc)) ->
  In name (OutputElement.classes e) ->
  In name (OutputElement.classes (OutputElement.after sc evs e)).
Proof.
  intros Hother. revert e.
  induction evs as [|ev evs IH]; intros e He; [exact He|].
  apply IH.
  destruct ev as [f d|m cl|]; simpl; try exact He.
  unfold OutputElement.effect_ends.
  destruct (OutputElement.fx e) as [|[[|]|] rest]; simpl; try exact He.
  - destruct (OutputField.messageClass (OutputElement.closure e));
      [now apply addClass_keeps | exact He].
  - destruct (OutputField.totalFare (OutputElement.closure e)),
             (OutputField.totalDistance (OutputElement.closure e));
      simpl; try exact He.
    destruct (OutputElement.hasClass (OutputElement.error sc)
                (OutputElement.classes e)); [|exact He].
    now apply removeClass_keeps.
Qed.

Lemma only_the_error_class_is_removed_witness :
  ~ In "big" (OutputElement.class_names "error")
  /\ In "big"
       (OutputElement.classes
          (OutputElement.after
             {| OutputElement.hidden := "js-hidden";
                OutputElement.error := "error";
                OutputElement.totalFare := "total-fare" |}
             [OutputElement.call_showFare "$7.75" "1.300 km";
              OutputElement.animation_ends; OutputElement.animation_ends]
             (OutputElement.settle
                {| OutputElement.hidden := "js-hidden";
                   OutputElement.error := "error";
                   OutputElement.totalFare := "total-fare" |}
                (OutputElement.showMessage "No such address" "error big"
                   (OutputElement.create
                      {| OutputElement.hidden := "js-hidden";
                         OutputElement.error := "error";
                         OutputElement.totalFare := "total-fare" |}
                      "js-hidden" (OutputElement.markup ""))))))
  /\ OutputElement.classes
       (OutputElement.after
          {| OutputElement.hidden := "js-hidden";
             OutputElement.error := "error";
             OutputElement.totalFare := "total-fare" |}
          [OutputElement.call_showFare "$7.75" "1.300 km";
           OutputElement.animation_ends; OutputElement.animation_ends]
          (OutputElement.settle
             {| OutputElement.hidden := "js-hidden";
                OutputElement.error := "error";
                OutputElement.totalFare := "total-fare" |}
             (OutputElement.showMessage "No such address" "error big"
                (OutputElement.create
                   {| OutputElement.hidden := "js-hidden";
                      OutputElement.error := "error";
                      OutputElement.totalFare := "total-fare" |}
                   "js-hidden" (OutputElement.markup "")))))
     = ["big"].
Proof.
  assert (Hother : ~ In "big" (OutputElement.class_names "error"))
    by (simpl; intros [H|[]]; discriminate H).
  split; [exact Hother|]. split; [|reflexivity].
  apply (only_the_error_class_is_removed
           {| OutputElement.hidden := "js-hidden";
              OutputElement.error := "error";
              OutputElement.totalFare := "total-fare" |} "big" _ _ Hother).
  vm_compute. right. now left.
Defined.

(** ** Fields edited while the replies are awaited *)

(** X16: [showMap] reads the input fields again when the geocoding has
    ended.  If the fields are edited after the click and before the
    replies are in, the markers of the new map are those of the addresses
    that were clicked, while its route line is the one between the texts
    the fields hold now; the fare is the one of the addresses that were
    clicked. *)
Theorem map_route_reads_the_fields_again
    (site : TaxiFareFinder) (p r : page) (a1 a2 b1 b2 : string)
    (result_o result_d : GeocoderResult) (more_o more_d : list GeocoderResult) :
  idle p ->
  geocoder_geocode site (Some a1) = (result_o :: more_o, GeocoderStatus_OK) ->
  geocoder_geocode site (Some a2) = (result_d :: more_d, GeocoderStatus_OK) ->
  steps site (enter b1 b2 (click site (enter a1 a2 p))) r ->
  pending r = [] ->
  let line := map_directionsService_route site
                {| origin := b1; destination := b2 |} in
  let trip := fare_directionsService_route site
                {| origin := a1; destination := a2 |} in
  MapDisplay.maps (mapOutput r)
  = (MapDisplay.maps (mapOutput p)
     ++ [[geometry_location result_o; geometry_location result_d]])%list
  /\ MapDisplay.directions (mapOutput r)
     = (MapDisplay.directions (mapOutput p)
        ++ match snd line with
           | DirectionsStatus_OK => [fst line]
           | _ => []
           end)%list
  /\ fareCalculator r
     = fst (FareCalculator.route_callback (fare site) (fst trip) (snd trip)
              (fareCalculator p) OutputField.create).
Proof.
  intros Hidle Ho Hd Hsteps Hdry line trip.
  assert (Hidle' : idle (enter a1 a2 p)) by exact Hidle.
  rewrite (click_pending site _ Hidle') in Hsteps.
  unfold enter at 1 in Hsteps.
  cbn [originInput destinationInput mapOutput fareCalculator fareOutput
       pending enter] in Hsteps.
  match type of Hsteps with
  | steps _ (mk_page _ _ _ _ _ [?a; ?b]) _ =>
      apply (threads_steps site _ r (Some a) (Some b)) in Hsteps;
        [| split; [apply Permutation_refl
                  | split; intros t [= <-]; reflexivity]
         | exact Hdry]
  end.
  destruct Hsteps as [Hmap Hfare].
  split; [|split].
  - rewrite Hmap. unfold map_outcome, map_after_task.
    cbn [originInput destinationInput mapOutput clicked_map
         MapDisplay.addresses skipn].
    rewrite Ho.
    cbn [fst snd map_after_geocode map_after_chain enter destinationInput].
    rewrite Hd. cbn [fst snd map_after_geocode]. unfold map_after_end.
    cbn [MapDisplay.codedAddresses MapDisplay.addresses MapDisplay.maps
         MapDisplay.directions].
    rewrite array_get_set_same.
    rewrite array_get_set_other by discriminate.
    rewrite array_get_set_same.
    fold line. unfold map_after_route.
    destruct (snd line); reflexivity.
  - rewrite Hmap. unfold map_outcome, map_after_task.
    cbn [originInput destinationInput mapOutput clicked_map
         MapDisplay.addresses skipn].
    rewrite Ho.
    cbn [fst snd map_after_geocode map_after_chain enter destinationInput].
    rewrite Hd. cbn [fst snd map_after_geocode]. unfold map_after_end.
    cbn [MapDisplay.codedAddresses MapDisplay.addresses MapDisplay.maps
         MapDisplay.directions].
    rewrite array_get_set_same.
    rewrite array_get_set_other by discriminate.
    rewrite array_get_set_same.
    fold line. unfold map_after_route.
    destruct (snd line); cbn [MapDisplay.directions];
      rewrite ?app_nil_r; reflexivity.
  - rewrite Hfare. reflexivity.
Qed.

Lemma map_route_reads_the_fields_again_witness :
  idle downtown
  /\ pending (run origin_site 4
                (enter "Union Station" "Casa Loma"
                   (click origin_site (enter "CN Tower" "Casa Loma" downtown))))
     = []
  /\ MapDisplay.directions
       (mapOutput
          (run origin_site 4
             (enter "Union Station" "Casa Loma"
                (click origin_site (enter "CN Tower" "Casa Loma" downtown)))))
     = [response_of 7234]
  /\ OutputField.totalDistance
       (fareOutput
          (run origin_site 4
             (enter "Union Station" "Casa Loma"
                (click origin_site (enter "CN Tower" "Casa Loma" downtown)))))
     = Some "1.300 km".
Proof.
  assert (Hidle : idle downtown) by (split; [reflexivity | simpl; lia]).
  split; [exact Hidle|]. split; [reflexivity|].
  split; [|reflexivity].
  exact (proj1 (proj2
    (map_route_reads_the_fields_again origin_site downtown _
       "CN Tower" "Casa Loma" "Union Station" "Casa Loma" _ _ _ _
       Hidle eq_refl eq_refl (run_steps origin_site 4 _) eq_refl))).
Defined.
